(** * EdgeTPU host driver: mapping tracker, wakelock ioctls, client removal,
      VII response codes and the in-kernel fence awaiter

    Shallow embedding of
    - [edgetpu-mapping.c]  (compare, edgetpu_mapping_add,
      edgetpu_mapping_find_iova_range, edgetpu_mappings_total_size),
    - [edgetpu-fs.c]       (lock_check_group_member, edgetpu_ioctl with
      edgetpu_ioctl_check_permissions and the group-scoped ioctl handlers,
      edgetpu_ioctl_acquire_wakelock, edgetpu_ioctl_release_wakelock),
    - [edgetpu-core.c]     (edgetpu_client_remove),
    - [edgetpu.h]          (the VII_RESPONSE_CODE_KERNEL codes and the
      EDGETPU_ERROR bits),
    - [gcip-ikf.c]         (gcip_ikf_thread_func, gcip_ikf_awaiter_exit,
      gcip_ikf_wait_timeout).

    C integers are [Z] with the wrap-around of their width written out;
    [int] return values are [0] or a negated errno. *)

From Stdlib Require Import ZArith List Bool Lia Sorting.Sorted.
Import ListNotations.
Open Scope Z_scope.

(** ** Kernel constants used by the driver

    The errno numbers are those of the kernel's
    [include/uapi/asm-generic/errno-base.h], [errno.h] and
    [include/linux/errno.h]; the driver only names them. *)

Definition EPERM : Z := 1.
Definition EAGAIN : Z := 11.
Definition ENOMEM : Z := 12.
Definition EFAULT : Z := 14.
Definition EBUSY : Z := 16.
Definition EINVAL : Z := 22.
Definition ENODEV : Z := 19.
Definition EOVERFLOW : Z := 75.
Definition EOPNOTSUPP : Z := 95.
Definition ETIMEDOUT : Z := 110.
Definition ERESTARTSYS : Z := 512.

(** [u64], [size_t] and [tpu_addr_t] are 64 bits wide on the arm64 targets
    of this driver; arithmetic on them wraps. *)
Definition INT_MAX : Z := 2147483647.
Definition U64_MODULUS : Z := 2 ^ 64.
Definition U64_MAX : Z := U64_MODULUS - 1.
Definition wrap64 (x : Z) : Z := x mod U64_MODULUS.

(** ** The mapping tracker ([edgetpu-mapping.c]) *)

Module Mapping.

(** [struct gcip_iommu_mapping], the two fields the tracker reads. *)
Record gcip_iommu_mapping := {
  device_address : Z;   (* tpu_addr_t *)
  size : Z              (* size_t *)
}.

(** [struct edgetpu_mapping].  [map_handle] stands for the address of the
    object (two mappings are the same object iff they have the same handle
    and contents); [release] is [true] when the release callback is set. *)
Record edgetpu_mapping := {
  map_handle : nat;
  gcip_mapping : gcip_iommu_mapping;
  release : bool
}.

Definition dev_addr (map : edgetpu_mapping) : Z :=
  device_address (gcip_mapping map).
Definition map_size (map : edgetpu_mapping) : Z :=
  size (gcip_mapping map).

(** The tree hanging off [mappings->rb.rb_node]: a NULL link or a node with
    its [rb_left] and [rb_right] links.  Colours are only read by the
    kernel's rebalancing code and are left out. *)
Inductive rb_node :=
| rb_null
| rb_link (rb_left : rb_node) (this : edgetpu_mapping) (rb_right : rb_node).

(** [struct edgetpu_mapping_root]: the tree and the [count] of its nodes. *)
Record edgetpu_mapping_root := {
  rb : rb_node;
  count : Z
}.

(** Sequence visited by [rb_first] / [rb_next]: the in-order walk. *)
Fixpoint rb_inorder (t : rb_node) : list edgetpu_mapping :=
  match t with
  | rb_null => []
  | rb_link l this r => rb_inorder l ++ this :: rb_inorder r
  end.

(** [compare]: -1, 0, 1 as [map->gcip_mapping->device_address] is less
    than, equal to or larger than [iova]. *)
Definition compare (map : edgetpu_mapping) (iova : Z) : Z :=
  if negb (dev_addr map =? iova) then
    if dev_addr map <? iova then -1 else 1
  else 0.

(** [edgetpu_mapping_init]. *)
Definition edgetpu_mapping_init : edgetpu_mapping_root :=
  {| rb := rb_null; count := 0 |}.

(** The [while] descent over [new] of [edgetpu_mapping_add] followed by
    [rb_link_node]: [Some] tree with [map] linked at the NULL slot the
    descent stops at, [None] when the descent hits [goto out]. *)
Fixpoint descend_and_link (t : rb_node) (map : edgetpu_mapping)
  : option rb_node :=
  match t with
  | rb_null => Some (rb_link rb_null map rb_null)
  | rb_link l this r =>
      let cmp := compare this (dev_addr map) in
      if cmp >? 0 then
        match descend_and_link l map with
        | Some l' => Some (rb_link l' this r)
        | None => None
        end
      else if cmp <? 0 then
        match descend_and_link r map with
        | Some r' => Some (rb_link l this r')
        | None => None
        end
      else None
  end.

(** [edgetpu_mapping_find_locked]. *)
Fixpoint edgetpu_mapping_find_locked (node : rb_node) (iova : Z)
  : option edgetpu_mapping :=
  match node with
  | rb_null => None
  | rb_link l map r =>
      let cmp := compare map iova in
      if cmp >? 0 then edgetpu_mapping_find_locked l iova
      else if cmp <? 0 then edgetpu_mapping_find_locked r iova
      else Some map
  end.




(** [edgetpu_mappings_total_size]: [total += size] in [size_t] over the
    in-order walk. *)
Definition edgetpu_mappings_total_size (mappings : edgetpu_mapping_root) : Z :=
  fold_left (fun total map => wrap64 (total + map_size map))
            (rb_inorder (rb mappings)) 0.

(** What the tracker's clients see of it: the mappings present. *)
Definition live (mappings : edgetpu_mapping_root) : list edgetpu_mapping :=
  rb_inorder (rb mappings).

(** Search-tree order on device addresses, the shape invariant that the
    descent of [edgetpu_mapping_add] maintains. *)
Definition addr_lt (a b : edgetpu_mapping) : Prop := dev_addr a < dev_addr b.

Definition rb_ordered (t : rb_node) : Prop :=
  StronglySorted addr_lt (rb_inorder t).

(** The fields hold values of their C types and the range
    [device_address, device_address + size) ends inside the address
    space. *)
Definition range_valid (map : edgetpu_mapping) : Prop :=
  0 <= dev_addr map /\ 0 <= map_size map /\
  dev_addr map + map_size map <= U64_MAX.

(** [iova] lies in [device_address, device_address + size). *)
Definition in_range (map : edgetpu_mapping) (iova : Z) : Prop :=
  dev_addr map <= iova < dev_addr map + map_size map.

(** Interval overlap of the device-address ranges of two mappings. *)
Definition ranges_overlap (a b : edgetpu_mapping) : Prop :=
  dev_addr a < dev_addr b + map_size b /\
  dev_addr b < dev_addr a + map_size a.

Definition pairwise_disjoint (l : list edgetpu_mapping) : Prop :=
  forall a b, In a l -> In b l -> a <> b -> ~ ranges_overlap a b.

(** Exact sum of the sizes, in unbounded integers. *)
Definition sum_sizes (l : list edgetpu_mapping) : Z :=
  fold_right (fun map acc => map_size map + acc) 0 l.

Section WithRebalancing.

(** [rb_insert_color] is the kernel's red-black rebalancing
    ([lib/rbtree.c]).  It recolours and rotates; rotations keep the in-order
    sequence, which is all the tracker relies on. *)
Variable rb_insert_color : edgetpu_mapping -> rb_node -> rb_node.
Hypothesis rb_insert_color_inorder :
  forall node t, rb_inorder (rb_insert_color node t) = rb_inorder t.

(** [edgetpu_mapping_add]: the return value and the tracker afterwards. *)
Definition edgetpu_mapping_add
  (mappings : edgetpu_mapping_root) (map : edgetpu_mapping)
  : Z * edgetpu_mapping_root :=
  if negb (release map) then (- EINVAL, mappings)
  else
    match descend_and_link (rb mappings) map with
    | None => (- EBUSY, mappings)
    | Some t =>
        (0, {| rb := rb_insert_color map t;
               count := wrap64 (count mappings + 1) |})
    end.

End WithRebalancing.

(** Sample mappings used to exercise the statements below. *)
Definition sample_map (h : nat) (addr sz : Z) (rel : bool) : edgetpu_mapping :=
  {| map_handle := h;
     gcip_mapping := {| device_address := addr; size := sz |};
     release := rel |}.

(** A rebalancing that leaves the tree as linked; it keeps the in-order
    sequence, as every rotation does. *)
Definition no_rotation (node : edgetpu_mapping) (t : rb_node) : rb_node := t.

(** A single left rotation at the root, as [rb_insert_color] performs when
    the right side has grown. *)
Definition rotate_left_root (node : edgetpu_mapping) (t : rb_node) : rb_node :=
  match t with
  | rb_link a x (rb_link b y c) => rb_link (rb_link a x b) y c
  | _ => t
  end.

(** The tracker obtained by adding the mappings of [l] in turn. *)
Definition tracker_of (l : list edgetpu_mapping)
  (rebalance : edgetpu_mapping -> rb_node -> rb_node) : edgetpu_mapping_root :=
  fold_left (fun t m => snd (edgetpu_mapping_add rebalance t m))
            l edgetpu_mapping_init.

Definition buf_a : edgetpu_mapping := sample_map 1 4096 8192 true.
Definition buf_b : edgetpu_mapping := sample_map 2 6144 256 true.
Definition buf_c : edgetpu_mapping := sample_map 3 4096 16 true.
Definition buf_d : edgetpu_mapping := sample_map 4 65536 4096 true.
Definition buf_norelease : edgetpu_mapping := sample_map 5 4096 16 false.


(** *** Properties of the tracker *)

Lemma wrap64_small x : 0 <= x <= U64_MAX -> wrap64 x = x.
Proof.
  unfold wrap64, U64_MAX, U64_MODULUS. intros H.
  apply Z.mod_small. lia.
Qed.

Lemma addr_lt_trans a b c : addr_lt a b -> addr_lt b c -> addr_lt a c.
Proof. unfold addr_lt. lia. Qed.

(** Sortedness of a sequence split at a pivot. *)
Lemma sorted_split l1 x l2 :
  StronglySorted addr_lt (l1 ++ x :: l2) <->
  StronglySorted addr_lt l1 /\ StronglySorted addr_lt l2 /\
  (forall a, In a l1 -> addr_lt a x) /\ (forall b, In b l2 -> addr_lt x b).
Proof.
  induction l1 as [|h l1 IH]; simpl.
  - split.
    + intros H. inversion H as [|? ? Hs Hall]; subst.
      rewrite Forall_forall in Hall.
      repeat split; auto; try constructor. intros a [].
    + intros (_ & Hs & _ & Hall). constructor; auto.
      rewrite Forall_forall. auto.
  - split.
    + intros H. inversion H as [|? ? Hs Hall]; subst.
      apply IH in Hs. destruct Hs as (Hs1 & Hs2 & Hl & Hr).
      rewrite Forall_forall in Hall.
      repeat split; auto.
      * constructor; auto. rewrite Forall_forall.
        intros y Hy. apply Hall. apply in_or_app. now left.
      * intros a [<- | Ha]; auto.
        apply Hall. apply in_or_app. right. now left.
    + intros (Hs1 & Hs2 & Hl & Hr).
      inversion Hs1 as [|? ? Hs1' Hall1]; subst.
      rewrite Forall_forall in Hall1.
      constructor.
      * apply IH. repeat split; auto.
      * rewrite Forall_forall. intros y Hy.
        apply in_app_or in Hy. destruct Hy as [Hy | [<- | Hy]]; auto.
        apply addr_lt_trans with x; auto.
Qed.

Lemma rb_ordered_link l this r :
  rb_ordered (rb_link l this r) <->
  rb_ordered l /\ rb_ordered r /\
  (forall a, In a (rb_inorder l) -> dev_addr a < dev_addr this) /\
  (forall b, In b (rb_inorder r) -> dev_addr this < dev_addr b).
Proof. unfold rb_ordered. simpl. apply sorted_split. Qed.

Lemma compare_cases map iova :
  (compare map iova = -1 /\ dev_addr map < iova) \/
  (compare map iova = 0 /\ dev_addr map = iova) \/
  (compare map iova = 1 /\ iova < dev_addr map).
Proof.
  unfold compare.
  destruct (Z.eqb_spec (dev_addr map) iova); simpl; [lia|].
  destruct (Z.ltb_spec (dev_addr map) iova); lia.
Qed.

(** When the descent reaches [goto out] the tree holds the address. *)
Lemma descend_none_present t map :
  descend_and_link t map = None ->
  exists old, In old (rb_inorder t) /\ dev_addr old = dev_addr map.
Proof.
  induction t as [|l IHl this r IHr]; simpl; [discriminate|].
  destruct (compare_cases this (dev_addr map)) as [(-> & H)|[(-> & H)|(-> & H)]];
    simpl.
  - destruct (descend_and_link r map); [discriminate|].
    intros _. destruct IHr as (old & Hin & Ha); auto.
    exists old. split; auto. apply in_or_app. right. now right.
  - intros _. exists this. split; auto. apply in_or_app. right. now left.
  - destruct (descend_and_link l map); [discriminate|].
    intros _. destruct IHl as (old & Hin & Ha); auto.
    exists old. split; auto. apply in_or_app. now left.
Qed.

(** In an ordered tree the descent links [map] between the mappings below
    and above its device address and keeps the order. *)
Lemma descend_some_ordered t map t' :
  rb_ordered t ->
  descend_and_link t map = Some t' ->
  rb_ordered t' /\
  (forall old, In old (rb_inorder t) -> dev_addr old <> dev_addr map) /\
  (forall x, In x (rb_inorder t') <-> x = map \/ In x (rb_inorder t)).
Proof.
  revert t'. induction t as [|l IHl this r IHr]; simpl; intros t' Hord Hd.
  - inversion Hd; subst. simpl. repeat split.
    + unfold rb_ordered. simpl. repeat constructor.
    + intros old [].
    + intros [<-|[]]; now left.
    + intros [->|[]]; now left.
  - apply rb_ordered_link in Hord. destruct Hord as (Hl & Hr & Hlo & Hhi).
    destruct (compare_cases this (dev_addr map)) as [(E & H)|[(E & H)|(E & H)]];
      rewrite E in Hd; simpl in Hd.
    + destruct (descend_and_link r map) as [r'|] eqn:Er; [|discriminate].
      inversion Hd; subst t'. destruct (IHr r' Hr eq_refl) as (Hr' & Hne & Hin).
      repeat split.
      * apply rb_ordered_link. repeat split; auto.
        intros b Hb. apply Hin in Hb. destruct Hb as [->|Hb]; auto.
      * intros old Ho. apply in_app_or in Ho.
        destruct Ho as [Ho|[<-|Ho]]; [apply Hlo in Ho; lia | lia | auto].
      * simpl. intros Hx. apply in_app_or in Hx.
        destruct Hx as [Hx|[<-|Hx]].
        -- right. apply in_or_app. now left.
        -- right. apply in_or_app. right. now left.
        -- apply Hin in Hx. destruct Hx as [->|Hx]; [now left|].
           right. apply in_or_app. right. now right.
      * simpl. intros [->|Hx].
        -- apply in_or_app. right. right. apply Hin. now left.
        -- apply in_app_or in Hx. apply in_or_app.
           destruct Hx as [Hx|[<-|Hx]]; [now left | right; now left |].
           right. right. apply Hin. now right.
    + discriminate.
    + destruct (descend_and_link l map) as [l'|] eqn:El; [|discriminate].
      inversion Hd; subst t'. destruct (IHl l' Hl eq_refl) as (Hl' & Hne & Hin).
      repeat split.
      * apply rb_ordered_link. repeat split; auto.
        intros a Ha. apply Hin in Ha. destruct Ha as [->|Ha]; auto.
      * intros old Ho. apply in_app_or in Ho.
        destruct Ho as [Ho|[<-|Ho]]; [auto | lia | apply Hhi in Ho; lia].
      * simpl. intros Hx. apply in_app_or in Hx.
        destruct Hx as [Hx|[<-|Hx]].
        -- apply Hin in Hx. destruct Hx as [->|Hx]; [now left|].
           right. apply in_or_app. now left.
        -- right. apply in_or_app. right. now left.
        -- right. apply in_or_app. right. now right.
      * simpl. intros [->|Hx].
        -- apply in_or_app. left. apply Hin. now left.
        -- apply in_app_or in Hx. apply in_or_app.
           destruct Hx as [Hx|[<-|Hx]]; [| right; now left | right; now right].
           left. apply Hin. now right.
Qed.

Lemma no_rotation_inorder node t :
  rb_inorder (no_rotation node t) = rb_inorder t.
Proof. reflexivity. Qed.

Lemma rotate_left_root_inorder node t :
  rb_inorder (rotate_left_root node t) = rb_inorder t.
Proof.
  destruct t as [|a x [|b y c]]; simpl; auto.
  now rewrite <- app_assoc.
Qed.

Section TrackerInsert.

Variable rb_insert_color : edgetpu_mapping -> rb_node -> rb_node.
Hypothesis rb_insert_color_inorder :
  forall node t, rb_inorder (rb_insert_color node t) = rb_inorder t.

(** C9: a mapping without a release callback is refused with -EINVAL and
    the tracker is left as it was, whatever its contents: the test comes
    before the descent that looks for a duplicate device address, so the
    answer is -EINVAL (not -EBUSY) also when the address is present. *)
Theorem add_without_release_einval :
  forall mappings map,
    release map = false ->
    edgetpu_mapping_add rb_insert_color mappings map = (- EINVAL, mappings).
Proof.
  intros mappings map Hrel.
  unfold edgetpu_mapping_add. now rewrite Hrel.
Qed.

(** C2, as the code has it: with a release callback set, the insert
    succeeds exactly when no live mapping has the same device address
    (ranges are not looked at); on success the new mapping joins the live
    ones and the order is kept; otherwise the answer is -EBUSY and the
    tracker is unchanged.  Inserting a second mapping at the device address
    of one just inserted is refused with -EBUSY, the tracker is unchanged
    and the only live mapping at that address is the first. *)
Theorem add_same_address_ebusy :
  forall mappings map,
    rb_ordered (rb mappings) -> release map = true ->
    (fst (edgetpu_mapping_add rb_insert_color mappings map) = 0 <->
       forall old, In old (live mappings) -> dev_addr old <> dev_addr map) /\
    (fst (edgetpu_mapping_add rb_insert_color mappings map) = 0 ->
       rb_ordered (rb (snd (edgetpu_mapping_add rb_insert_color mappings map))) /\
       forall x,
         In x (live (snd (edgetpu_mapping_add rb_insert_color mappings map)))
         <-> x = map \/ In x (live mappings)) /\
    (fst (edgetpu_mapping_add rb_insert_color mappings map) <> 0 ->
       edgetpu_mapping_add rb_insert_color mappings map = (- EBUSY, mappings)) /\
    (forall second,
       release second = true -> dev_addr second = dev_addr map ->
       fst (edgetpu_mapping_add rb_insert_color mappings map) = 0 ->
       let after := snd (edgetpu_mapping_add rb_insert_color mappings map) in
       edgetpu_mapping_add rb_insert_color after second = (- EBUSY, after) /\
       In map (live after) /\
       forall x, In x (live after) -> dev_addr x = dev_addr second -> x = map).
Proof.
  intros mappings map Hord Hrel.
  assert (Hcases :
    (descend_and_link (rb mappings) map = None /\
     edgetpu_mapping_add rb_insert_color mappings map = (- EBUSY, mappings)) \/
    (exists t, descend_and_link (rb mappings) map = Some t /\
       edgetpu_mapping_add rb_insert_color mappings map =
         (0, {| rb := rb_insert_color map t;
                count := wrap64 (count mappings + 1) |}))).
  { unfold edgetpu_mapping_add. rewrite Hrel. simpl.
    destruct (descend_and_link (rb mappings) map) as [t|]; eauto. }
  destruct Hcases as [(Hd & ->) | (t & Hd & ->)]; simpl.
  - apply descend_none_present in Hd. destruct Hd as (old & Hin & Ha).
    unfold EBUSY. repeat split; try discriminate; try reflexivity.
    intros Hall. exfalso. apply (Hall old Hin Ha).
  - destruct (descend_some_ordered _ _ _ Hord Hd) as (Hord' & Hne & Hin).
    assert (Hlive : forall x,
      In x (live {| rb := rb_insert_color map t;
                    count := wrap64 (count mappings + 1) |})
      <-> x = map \/ In x (live mappings)).
    { intros x. unfold live. simpl. rewrite rb_insert_color_inorder. apply Hin. }
    assert (Hord'' : rb_ordered (rb_insert_color map t)).
    { unfold rb_ordered. now rewrite rb_insert_color_inorder. }
    repeat split; auto; try congruence.
    + apply Hlive.
    + apply Hlive.
    + unfold edgetpu_mapping_add. rewrite H. simpl.
      destruct (descend_and_link (rb_insert_color map t) second) as [t2|] eqn:E2;
        [|reflexivity].
      exfalso.
      destruct (descend_some_ordered _ _ _ Hord'' E2) as (_ & Hne2 & _).
      apply (Hne2 map); [|congruence].
      rewrite rb_insert_color_inorder. apply Hin. now left.
    + apply Hlive. now left.
    + intros x Hx Hax. apply Hlive in Hx. destruct Hx as [->|Hx]; auto.
      exfalso. apply (Hne x Hx). congruence.
Qed.

End TrackerInsert.

Lemma add_without_release_einval_witness :
  release buf_norelease = false /\
  edgetpu_mapping_add rotate_left_root
    (tracker_of [buf_a; buf_d] rotate_left_root) buf_norelease
  = (- EINVAL, tracker_of [buf_a; buf_d] rotate_left_root).
Proof.
  split; [reflexivity|].
  apply (add_without_release_einval rotate_left_root
           (tracker_of [buf_a; buf_d] rotate_left_root) buf_norelease).
  reflexivity.
Defined.

(** C2 as stated does not hold: [buf_b] lies inside the range of the live
    [buf_a], yet it is inserted and both are live afterwards. *)
Lemma add_accepts_overlapping_ranges :
  ranges_overlap buf_a buf_b /\
  in_range buf_a 6200 /\ in_range buf_b 6200 /\
  live (tracker_of [buf_a] no_rotation) = [buf_a] /\
  fst (edgetpu_mapping_add no_rotation
         (tracker_of [buf_a] no_rotation) buf_b) = 0 /\
  live (snd (edgetpu_mapping_add no_rotation
               (tracker_of [buf_a] no_rotation) buf_b)) = [buf_a; buf_b].
Proof.
  unfold ranges_overlap, in_range. cbn. repeat split; lia.
Qed.

Lemma tracker_of_sample_ordered :
  rb_ordered (rb (tracker_of [buf_a; buf_d] rotate_left_root)).
Proof.
  unfold rb_ordered. cbn.
  repeat constructor; unfold addr_lt; cbn; lia.
Qed.

Lemma add_same_address_ebusy_witness :
  (forall node t, rb_inorder (rotate_left_root node t) = rb_inorder t) /\
  rb_ordered (rb (tracker_of [buf_d] rotate_left_root)) /\
  release buf_a = true /\
  edgetpu_mapping_add rotate_left_root
    (tracker_of [buf_d; buf_a] rotate_left_root) buf_c
  = (- EBUSY, tracker_of [buf_d; buf_a] rotate_left_root).
Proof.
  assert (Hord : rb_ordered (rb (tracker_of [buf_d] rotate_left_root))).
  { unfold rb_ordered. cbn. repeat constructor. }
  split; [apply rotate_left_root_inorder|].
  split; [exact Hord|]. split; [reflexivity|].
  pose proof (add_same_address_ebusy rotate_left_root rotate_left_root_inorder
                (tracker_of [buf_d] rotate_left_root) buf_a Hord eq_refl)
    as (_ & _ & _ & Hsecond).
  destruct (Hsecond buf_c eq_refl eq_refl eq_refl) as (Hadd & _).
  exact Hadd.
Defined.





(** For ranges that are not empty, overlapping is sharing an address. *)
Lemma ranges_overlap_common_address a b :
  0 < map_size a -> 0 < map_size b ->
  (ranges_overlap a b <-> exists iova, in_range a iova /\ in_range b iova).
Proof.
  intros Ha Hb. unfold ranges_overlap, in_range. split.
  - intros (H1 & H2). exists (Z.max (dev_addr a) (dev_addr b)). lia.
  - intros (iova & H1 & H2). lia.
Qed.



(** The accumulation in [size_t] yields the exact sum reduced modulo 2^64. *)
Lemma total_size_fold l acc :
  0 <= acc <= U64_MAX ->
  fold_left (fun total map => wrap64 (total + map_size map)) l acc
  = wrap64 (acc + sum_sizes l).
Proof.
  revert acc. induction l as [|m l IH]; simpl; intros acc Hacc.
  - rewrite Z.add_0_r. symmetry. now apply wrap64_small.
  - rewrite IH.
    + unfold wrap64. rewrite Zplus_mod_idemp_l. f_equal. lia.
    + unfold wrap64, U64_MAX, U64_MODULUS.
      pose proof (Z.mod_pos_bound (acc + map_size m) (2 ^ 64)). lia.
Qed.

Lemma total_size_wraps mappings :
  edgetpu_mappings_total_size mappings = wrap64 (sum_sizes (live mappings)).
Proof.
  unfold edgetpu_mappings_total_size, live.
  rewrite total_size_fold; [reflexivity|].
  unfold U64_MAX, U64_MODULUS. lia.
Qed.

(** In a list ordered by device address whose ranges are valid and do not
    overlap, the ranges follow one another, so the sizes add up to no more
    than the address space: the sum is a [size_t] value. *)
Lemma ordered_disjoint_sum x l :
  StronglySorted addr_lt (x :: l) ->
  (forall m, In m (x :: l) -> range_valid m) ->
  pairwise_disjoint (x :: l) ->
  dev_addr x + sum_sizes (x :: l) <= U64_MAX.
Proof.
  revert x. induction l as [|y l IH]; intros x Hs Hv Hd.
  - destruct (Hv x (or_introl eq_refl)) as (_ & _ & He).
    change (sum_sizes [x]) with (map_size x + 0). lia.
  - inversion Hs as [|? ? Hs' Hall]; subst.
    assert (Hxy : dev_addr x < dev_addr y).
    { rewrite Forall_forall in Hall. apply Hall. now left. }
    assert (Hend : dev_addr x + map_size x <= dev_addr y).
    { destruct (Hv y (or_intror (or_introl eq_refl))) as (_ & Hsy & _).
      assert (Hno : ~ ranges_overlap x y).
      { apply Hd; [now left | right; now left |]. intros ->. lia. }
      unfold ranges_overlap in Hno. lia. }
    assert (Hrec : dev_addr y + sum_sizes (y :: l) <= U64_MAX).
    { apply IH; auto.
      - intros m Hm. apply Hv. now right.
      - intros a b Ha Hb. apply Hd; now right. }
    change (sum_sizes (x :: y :: l)) with (map_size x + sum_sizes (y :: l)).
    lia.
Qed.

Lemma sum_sizes_nonneg l :
  (forall m, In m l -> range_valid m) -> 0 <= sum_sizes l.
Proof.
  induction l as [|x l IH]; intros Hv; [cbn; lia|].
  destruct (Hv x (or_introl eq_refl)) as (_ & Hs & _).
  assert (0 <= sum_sizes l) by (apply IH; intros m Hm; apply Hv; now right).
  change (sum_sizes (x :: l)) with (map_size x + sum_sizes l). lia.
Qed.

Lemma disjoint_ranges_sum_fits mappings :
  rb_ordered (rb mappings) ->
  (forall m, In m (live mappings) -> range_valid m) ->
  pairwise_disjoint (live mappings) ->
  0 <= sum_sizes (live mappings) <= U64_MAX.
Proof.
  unfold rb_ordered, live. intros Hs Hv Hd.
  split; [now apply sum_sizes_nonneg|].
  destruct (rb_inorder (rb mappings)) as [|x l] eqn:E.
  - cbn. unfold U64_MAX, U64_MODULUS. lia.
  - pose proof (ordered_disjoint_sum x l Hs Hv Hd) as H.
    destruct (Hv x (or_introl eq_refl)) as (Ha & _). lia.
Qed.

(** C8: [edgetpu_mappings_total_size] returns the sum of the sizes of the
    mappings present, for every tracker whose sum is a [size_t] value, and
    0 for a tracker without mappings. *)
Theorem total_size_is_sum :
  forall mappings,
    0 <= sum_sizes (live mappings) <= U64_MAX ->
    edgetpu_mappings_total_size mappings = sum_sizes (live mappings) /\
    (live mappings = [] -> edgetpu_mappings_total_size mappings = 0).
Proof.
  intros mappings Hfit. rewrite total_size_wraps.
  rewrite wrap64_small by assumption.
  split; [reflexivity|]. now intros ->.
Qed.

Lemma total_size_is_sum_witness :
  0 <= sum_sizes (live (tracker_of [buf_d; buf_a; buf_b] rotate_left_root))
    <= U64_MAX /\
  edgetpu_mappings_total_size (tracker_of [buf_d; buf_a; buf_b] rotate_left_root)
  = 8192 + 256 + 4096.
Proof.
  assert (Hfit : 0 <= sum_sizes
                   (live (tracker_of [buf_d; buf_a; buf_b] rotate_left_root))
                 <= U64_MAX).
  { unfold U64_MAX, U64_MODULUS. cbn. lia. }
  split; [exact Hfit|].
  destruct (total_size_is_sum
              (tracker_of [buf_d; buf_a; buf_b] rotate_left_root) Hfit)
    as (Hsum & _).
  rewrite Hsum. reflexivity.
Defined.

End Mapping.

(** ** Kernel-synthesized VII response codes ([edgetpu.h]) *)

Module Vii.




(** [struct edgetpu_vii_response] (packed). *)
Record edgetpu_vii_response := {
  seq : Z;             (* __u64 *)
  code : Z;            (* __u16 *)
  cluster_index : Z;   (* __s8 *)
  reserved : Z;        (* __u8 *)
  client_id : Z;       (* __u32 *)
  retval : Z           (* __u64 *)
}.







(** *** Properties of the codes *)







End Vii.

(** ** Clients and their wakelocks ([edgetpu-internal.h]) *)

Module Internal.

(** Modelled from the spec: [struct edgetpu_wakelock] and its
    [edgetpu_wakelock_acquire] / [edgetpu_wakelock_release]
    ([edgetpu-wakelock.c] is not among the sources).  The record keeps the
    outstanding-acquire count [req_count] that the sources read and the
    number of mmap events that pin the wakelock. *)
Record edgetpu_wakelock := {
  req_count : Z;      (* uint *)
  mmap_events : Z
}.

(** Modelled from the spec: [edgetpu_wakelock_acquire] increments the count
    and fails with a negative errno when the count would turn negative.
    Its callers take the answer for the count before the increment (they
    test [!count] for the first acquisition and log [count + 1]). *)
Definition edgetpu_wakelock_acquire (w : edgetpu_wakelock)
  : Z * edgetpu_wakelock :=
  if req_count w + 1 >? INT_MAX then (- EOVERFLOW, w)
  else (req_count w,
        {| req_count := req_count w + 1; mmap_events := mmap_events w |}).

(** Modelled from the spec: [edgetpu_wakelock_release] fails when the count
    is already zero, and (comment on EDGETPU_RELEASE_WAKE_LOCK) with EAGAIN
    when the last acquisition is released while mmap'ed buffers are held;
    otherwise it answers the decremented count. *)
Definition edgetpu_wakelock_release (w : edgetpu_wakelock)
  : Z * edgetpu_wakelock :=
  if req_count w =? 0 then (- EINVAL, w)
  else if (req_count w =? 1) && (0 <? mmap_events w) then (- EAGAIN, w)
  else (req_count w - 1,
        {| req_count := req_count w - 1; mmap_events := mmap_events w |}).

(** [struct edgetpu_client]: the fields the handlers below use.  [group] is
    [client->group], [None] for NULL. *)
Record edgetpu_client := {
  count : Z;                          (* refcount_t *)
  group : option nat;
  wakelock : edgetpu_wakelock;
  perdie_events : Z                   (* u64 bit field *)
}.

Definition set_wakelock (client : edgetpu_client) (w : edgetpu_wakelock)
  : edgetpu_client :=
  {| count := count client; group := group client; wakelock := w;
     perdie_events := perdie_events client |}.

(** [enum edgetpu_vii_format]. *)
Inductive edgetpu_vii_format :=
| EDGETPU_VII_FORMAT_UNKNOWN
| EDGETPU_VII_FORMAT_FLATBUFFER
| EDGETPU_VII_FORMAT_LITEBUF.

Definition vii_format_eqb (a b : edgetpu_vii_format) : bool :=
  match a, b with
  | EDGETPU_VII_FORMAT_UNKNOWN, EDGETPU_VII_FORMAT_UNKNOWN => true
  | EDGETPU_VII_FORMAT_FLATBUFFER, EDGETPU_VII_FORMAT_FLATBUFFER => true
  | EDGETPU_VII_FORMAT_LITEBUF, EDGETPU_VII_FORMAT_LITEBUF => true
  | _, _ => false
  end.

(** The calls a handler makes into the rest of the driver and the kernel,
    in program order.  Calls whose return value steers the handler carry
    it. *)
Inductive call :=
| trace_point
| lock_group_lock
| unlock_group_lock
| edgetpu_group_set_eventfd (g : nat)
| edgetpu_group_unset_eventfd (g : nat)
| edgetpu_device_group_get (g : nat)
| edgetpu_device_group_put (g : nat)
| edgetpu_device_group_map (g : nat) (ret : Z)
| edgetpu_device_group_unmap (g : nat)
| edgetpu_device_group_sync_buffer (g : nat)
| edgetpu_map_dmabuf (g : nat) (ret : Z)
| edgetpu_unmap_dmabuf (g : nat)
| edgetpu_sync_fence_create (g : nat) (ret : Z)
| get_fence_array_from_user (err : Z)
| gcip_fence_array_put
| gcip_fence_array_get_iif_id (err : Z)
| kfree
| kzalloc (ok : bool)
| edgetpu_iremap_alloc (ret : Z)
| edgetpu_iremap_free
| copy_payload_from_user (ok : bool)
| edgetpu_device_group_send_vii_command (g : nat) (ret : Z)
| edgetpu_device_group_get_vii_response (g : nat) (ret : Z)
| copy_to_user (ok : bool)
| edgetpu_pm_get (ret : Z)
| edgetpu_pm_put
| edgetpu_group_attach_and_open_mailbox (g : nat) (ret : Z)
| edgetpu_group_close_and_detach_mailbox (g : nat)
| set_dev_inaccessible (g : nat)
| list_del_client
| edgetpu_device_group_leave (g : nat)
| edgetpu_ext_client_remove
| edgetpu_telemetry_unset_event (log_type : bool)
| edgetpu_client_put (freed : bool).

End Internal.

(** ** Device-file handlers ([edgetpu-fs.c]) *)

Module Fs.

Import Internal.

(** What the surroundings answer during one ioctl: whether the user copies
    succeed, the device's VII configuration, and the return values of the
    callees. *)
Record environment := {
  copy_from_user_ok : bool;       (* copy_from_user of the ioctl argument *)
  copy_payload_ok : bool;         (* copy_from_user of a litebuf payload *)
  copy_to_user_ok : bool;         (* copy_to_user of the ioctl argument *)
  copy_payload_out_ok : bool;     (* copy_to_user of a litebuf payload *)
  use_ikv : bool;                 (* etdev->mailbox_manager->use_ikv *)
  vii_format : edgetpu_vii_format;
  callee_ret : Z;                 (* the group operation's answer *)
  in_fence_err : Z;               (* 0, or PTR_ERR of the in-fence array *)
  out_fence_err : Z;
  in_iif_err : Z;
  out_iif_err : Z;
  litebuf_inline : bool;          (* litebuf_size <= VII_CMD_PAYLOAD_SIZE_BYTES *)
  kzalloc_ok : bool;
  iremap_alloc_ret : Z;
  thermal_suspended : bool;       (* gcip_thermal_is_device_suspended *)
  pm_get_ret : Z;
  attach_ret : Z
}.

Definition result : Type := Z * list call.

(** [lock_check_group_member]: the group when the client has one (the lock
    stays held), NULL after unlocking otherwise. *)
Definition lock_check_group_member (client : edgetpu_client)
  : option nat * list call :=
  match group client with
  | None => (None, [lock_group_lock; unlock_group_lock])
  | Some g => (Some g, [lock_group_lock])
  end.

Definition edgetpu_ioctl_set_eventfd (env : environment)
  (client : edgetpu_client) : result :=
  if negb (copy_from_user_ok env) then (- EFAULT, [])
  else
    match lock_check_group_member client with
    | (None, tr) => (- EINVAL, tr)
    | (Some g, tr) =>
        (callee_ret env, tr ++ [edgetpu_group_set_eventfd g; unlock_group_lock])
    end.

Definition edgetpu_ioctl_unset_eventfd (env : environment)
  (client : edgetpu_client) : result :=
  match lock_check_group_member client with
  | (None, tr) => (- EINVAL, tr)
  | (Some g, tr) =>
      (0, tr ++ [edgetpu_group_unset_eventfd g; unlock_group_lock])
  end.

Definition edgetpu_ioctl_map_buffer (env : environment)
  (client : edgetpu_client) : result :=
  if negb (copy_from_user_ok env) then (- EFAULT, [])
  else
    match lock_check_group_member client with
    | (None, tr) => (- EINVAL, trace_point :: tr)
    | (Some g, tr) =>
        let pre := trace_point :: tr ++
                   [edgetpu_device_group_get g; unlock_group_lock;
                    edgetpu_device_group_map g (callee_ret env)] in
        let out := [edgetpu_device_group_put g; trace_point] in
        if negb (callee_ret env =? 0) then (callee_ret env, pre ++ out)
        else if negb (copy_to_user_ok env) then
          (- EFAULT,
           pre ++ [copy_to_user false; edgetpu_device_group_unmap g] ++ out)
        else (0, pre ++ [copy_to_user true] ++ out)
    end.

Definition edgetpu_ioctl_unmap_buffer (env : environment)
  (client : edgetpu_client) : result :=
  if negb (copy_from_user_ok env) then (- EFAULT, [])
  else
    match lock_check_group_member client with
    | (None, tr) => (- EINVAL, tr)
    | (Some g, tr) =>
        (callee_ret env, tr ++ [edgetpu_device_group_unmap g; unlock_group_lock])
    end.

Definition edgetpu_ioctl_sync_buffer (env : environment)
  (client : edgetpu_client) : result :=
  if negb (copy_from_user_ok env) then (- EFAULT, [])
  else
    match lock_check_group_member client with
    | (None, tr) => (- EINVAL, tr)
    | (Some g, tr) =>
        (callee_ret env,
         tr ++ [edgetpu_device_group_sync_buffer g; unlock_group_lock])
    end.

Definition edgetpu_ioctl_map_dmabuf (env : environment)
  (client : edgetpu_client) : result :=
  if negb (copy_from_user_ok env) then (- EFAULT, [])
  else
    match lock_check_group_member client with
    | (None, tr) => (- EINVAL, trace_point :: tr)
    | (Some g, tr) =>
        let pre := trace_point :: tr ++
                   [edgetpu_device_group_get g;
                    edgetpu_map_dmabuf g (callee_ret env);
                    unlock_group_lock] in
        let out := [edgetpu_device_group_put g; trace_point] in
        if negb (callee_ret env =? 0) then (callee_ret env, pre ++ out)
        else if negb (copy_to_user_ok env) then
          (- EFAULT, pre ++ [copy_to_user false; edgetpu_unmap_dmabuf g] ++ out)
        else (0, pre ++ [copy_to_user true] ++ out)
    end.

Definition edgetpu_ioctl_unmap_dmabuf (env : environment)
  (client : edgetpu_client) : result :=
  if negb (copy_from_user_ok env) then (- EFAULT, [])
  else
    match lock_check_group_member client with
    | (None, tr) => (- EINVAL, tr)
    | (Some g, tr) =>
        (callee_ret env, tr ++ [edgetpu_unmap_dmabuf g; unlock_group_lock])
    end.

(** The check is written out in this handler (LOCK, test, UNLOCK). *)
Definition edgetpu_ioctl_sync_fence_create (env : environment)
  (client : edgetpu_client) : result :=
  if negb (copy_from_user_ok env) then (- EFAULT, [])
  else
    match group client with
    | None => (- EINVAL, [lock_group_lock; unlock_group_lock])
    | Some g =>
        let pre := [lock_group_lock;
                    edgetpu_sync_fence_create g (callee_ret env);
                    unlock_group_lock] in
        if negb (callee_ret env =? 0) then (callee_ret env, pre)
        else if negb (copy_to_user_ok env) then
          (- EFAULT, pre ++ [copy_to_user false])
        else (0, pre ++ [copy_to_user true])
    end.

(** The guard of the four VII handlers:
    [!use_ikv || vii_format != wanted]. *)
Definition vii_unsupported (env : environment) (wanted : edgetpu_vii_format)
  : bool :=
  negb (use_ikv env) || negb (vii_format_eqb (vii_format env) wanted).

Definition edgetpu_ioctl_vii_command (env : environment)
  (client : edgetpu_client) : result :=
  if negb (copy_from_user_ok env) then (- EFAULT, [])
  else if vii_unsupported env EDGETPU_VII_FORMAT_FLATBUFFER then
    (- EOPNOTSUPP, [trace_point; trace_point])
  else
    match lock_check_group_member client with
    | (None, tr) => (- EINVAL, trace_point :: tr ++ [trace_point])
    | (Some g, tr) =>
        let pre := trace_point :: tr ++
                   [get_fence_array_from_user (in_fence_err env)] in
        let err_unlock := [unlock_group_lock; trace_point] in
        if negb (in_fence_err env =? 0) then
          (in_fence_err env, pre ++ err_unlock)
        else if negb (out_fence_err env =? 0) then
          (out_fence_err env,
           pre ++ [get_fence_array_from_user (out_fence_err env);
                   gcip_fence_array_put] ++ err_unlock)
        else
          (callee_ret env,
           pre ++ [get_fence_array_from_user 0;
                   edgetpu_device_group_send_vii_command g (callee_ret env);
                   gcip_fence_array_put; gcip_fence_array_put] ++ err_unlock)
    end.

Definition edgetpu_ioctl_vii_response (env : environment)
  (client : edgetpu_client) : result :=
  if vii_unsupported env EDGETPU_VII_FORMAT_FLATBUFFER then
    (- EOPNOTSUPP, [trace_point; trace_point])
  else
    match lock_check_group_member client with
    | (None, tr) => (- EINVAL, trace_point :: tr ++ [trace_point])
    | (Some g, tr) =>
        let pre := trace_point :: tr ++
                   [edgetpu_device_group_get_vii_response g (callee_ret env)] in
        let out := [unlock_group_lock; trace_point] in
        if negb (callee_ret env =? 0) then (callee_ret env, pre ++ out)
        else if negb (copy_to_user_ok env) then
          (- EFAULT, pre ++ [copy_to_user false] ++ out)
        else (0, pre ++ [copy_to_user true] ++ out)
    end.

Definition edgetpu_ioctl_vii_litebuf_command (env : environment)
  (client : edgetpu_client) : result :=
  if negb (copy_from_user_ok env) then (- EFAULT, [])
  else if vii_unsupported env EDGETPU_VII_FORMAT_LITEBUF then
    (- EOPNOTSUPP, [trace_point; trace_point])
  else
    match lock_check_group_member client with
    | (None, tr) => (- EINVAL, trace_point :: tr ++ [trace_point])
    | (Some g, tr) =>
        let start := trace_point :: tr in
        let out_unlock := [unlock_group_lock; trace_point] in
        let big := negb (litebuf_inline env) in
        (* out_free_large_command_iremap and out_free_large_command_buffer *)
        let free_large (ret : Z) :=
          if negb (ret =? 0) && big then [edgetpu_iremap_free; kfree] else [] in
        (* the staging of the payload; [None] when it went through *)
        let staged : option result :=
          if litebuf_inline env then
            if copy_payload_ok env then None
            else Some (- EFAULT, [copy_payload_from_user false] ++ out_unlock)
          else if negb (kzalloc_ok env) then
            Some (- ENOMEM, [kzalloc false] ++ out_unlock)
          else if negb (iremap_alloc_ret env =? 0) then
            Some (iremap_alloc_ret env,
                  [kzalloc true; edgetpu_iremap_alloc (iremap_alloc_ret env);
                   kfree] ++ out_unlock)
          else if negb (copy_payload_ok env) then
            Some (- EFAULT,
                  [kzalloc true; edgetpu_iremap_alloc 0;
                   copy_payload_from_user false;
                   edgetpu_iremap_free; kfree] ++ out_unlock)
          else None in
        let staging :=
          if litebuf_inline env then [copy_payload_from_user true]
          else [kzalloc true; edgetpu_iremap_alloc 0;
                copy_payload_from_user true] in
        match staged with
        | Some (ret, tl) => (ret, start ++ tl)
        | None =>
            let pre := start ++ staging ++
                       [get_fence_array_from_user (in_fence_err env)] in
            if negb (in_fence_err env =? 0) then
              (in_fence_err env, pre ++ out_unlock)
            else if negb (out_fence_err env =? 0) then
              (out_fence_err env,
               pre ++ [get_fence_array_from_user (out_fence_err env);
                       gcip_fence_array_put]
                   ++ free_large (out_fence_err env) ++ out_unlock)
            else if negb (in_iif_err env =? 0) then
              (in_iif_err env,
               pre ++ [get_fence_array_from_user 0;
                       gcip_fence_array_get_iif_id (in_iif_err env);
                       gcip_fence_array_put; gcip_fence_array_put]
                   ++ free_large (in_iif_err env) ++ out_unlock)
            else if negb (out_iif_err env =? 0) then
              (out_iif_err env,
               pre ++ [get_fence_array_from_user 0;
                       gcip_fence_array_get_iif_id 0;
                       gcip_fence_array_get_iif_id (out_iif_err env);
                       kfree; gcip_fence_array_put; gcip_fence_array_put]
                   ++ free_large (out_iif_err env) ++ out_unlock)
            else
              (callee_ret env,
               pre ++ [get_fence_array_from_user 0;
                       gcip_fence_array_get_iif_id 0;
                       gcip_fence_array_get_iif_id 0;
                       edgetpu_device_group_send_vii_command g (callee_ret env);
                       kfree; kfree;
                       gcip_fence_array_put; gcip_fence_array_put]
                   ++ free_large (callee_ret env) ++ out_unlock)
        end
    end.

Definition edgetpu_ioctl_vii_litebuf_response (env : environment)
  (client : edgetpu_client) : result :=
  if negb (copy_from_user_ok env) then (- EFAULT, [])
  else if vii_unsupported env EDGETPU_VII_FORMAT_LITEBUF then
    (- EOPNOTSUPP, [trace_point; trace_point])
  else
    match lock_check_group_member client with
    | (None, tr) => (- EINVAL, trace_point :: tr ++ [trace_point])
    | (Some g, tr) =>
        let pre := trace_point :: tr ++
                   [edgetpu_device_group_get_vii_response g (callee_ret env)] in
        let out := [unlock_group_lock; trace_point] in
        if negb (callee_ret env =? 0) then (callee_ret env, pre ++ out)
        else if negb (copy_payload_out_ok env) then
          (- EFAULT, pre ++ [copy_to_user false] ++ out)
        else if negb (copy_to_user_ok env) then
          (- EFAULT, pre ++ [copy_to_user true; copy_to_user false] ++ out)
        else (0, pre ++ [copy_to_user true; copy_to_user true] ++ out)
    end.

(** The group-scoped commands of the [switch] in [edgetpu_ioctl]. *)
Inductive group_scoped_cmd :=
| EDGETPU_MAP_BUFFER
| EDGETPU_UNMAP_BUFFER
| EDGETPU_SYNC_BUFFER
| EDGETPU_MAP_DMABUF
| EDGETPU_UNMAP_DMABUF
| EDGETPU_SET_EVENTFD
| EDGETPU_UNSET_EVENT
| EDGETPU_CREATE_SYNC_FENCE
| EDGETPU_VII_COMMAND
| EDGETPU_VII_RESPONSE
| EDGETPU_VII_LITEBUF_COMMAND
| EDGETPU_VII_LITEBUF_RESPONSE.

(** [struct file], as far as the ioctl path reads it: [private_data] is
    the client, NULL when [edgetpu_open] could not create one, and [f_mode]
    holds the access mode bits. *)
Record file := {
  private_data : option edgetpu_client;
  f_mode : Z
}.

Definition FMODE_READ : Z := 1.    (* include/linux/fs.h *)
Definition FMODE_WRITE : Z := 2.

(** [edgetpu_ioctl_check_permissions]: [file->f_mode & FMODE_WRITE], for
    every command. *)
Definition edgetpu_ioctl_check_permissions (f : file)
  (cmd : group_scoped_cmd) : bool :=
  negb (Z.land (f_mode f) FMODE_WRITE =? 0).

(** [edgetpu_ioctl]: the two guards, then the [switch], here with its
    cases for the group-scoped commands. *)
Definition edgetpu_ioctl (f : file) (cmd : group_scoped_cmd)
  (env : environment) : result :=
  match private_data f with
  | None => (- ENODEV, [])
  | Some client =>
      if negb (edgetpu_ioctl_check_permissions f cmd) then (- EPERM, [])
      else
        match cmd with
        | EDGETPU_MAP_BUFFER => edgetpu_ioctl_map_buffer env client
        | EDGETPU_UNMAP_BUFFER => edgetpu_ioctl_unmap_buffer env client
        | EDGETPU_SYNC_BUFFER => edgetpu_ioctl_sync_buffer env client
        | EDGETPU_MAP_DMABUF => edgetpu_ioctl_map_dmabuf env client
        | EDGETPU_UNMAP_DMABUF => edgetpu_ioctl_unmap_dmabuf env client
        | EDGETPU_SET_EVENTFD => edgetpu_ioctl_set_eventfd env client
        | EDGETPU_UNSET_EVENT => edgetpu_ioctl_unset_eventfd env client
        | EDGETPU_CREATE_SYNC_FENCE =>
            edgetpu_ioctl_sync_fence_create env client
        | EDGETPU_VII_COMMAND => edgetpu_ioctl_vii_command env client
        | EDGETPU_VII_RESPONSE => edgetpu_ioctl_vii_response env client
        | EDGETPU_VII_LITEBUF_COMMAND =>
            edgetpu_ioctl_vii_litebuf_command env client
        | EDGETPU_VII_LITEBUF_RESPONSE =>
            edgetpu_ioctl_vii_litebuf_response env client
        end
  end.

(** Handlers that start by copying their argument in. *)
Definition copies_argument_in (cmd : group_scoped_cmd) : bool :=
  match cmd with
  | EDGETPU_UNSET_EVENT | EDGETPU_VII_RESPONSE => false
  | _ => true
  end.

(** The VII format a handler insists on before it looks at the group. *)
Definition wanted_vii_format (cmd : group_scoped_cmd)
  : option edgetpu_vii_format :=
  match cmd with
  | EDGETPU_VII_COMMAND | EDGETPU_VII_RESPONSE =>
      Some EDGETPU_VII_FORMAT_FLATBUFFER
  | EDGETPU_VII_LITEBUF_COMMAND | EDGETPU_VII_LITEBUF_RESPONSE =>
      Some EDGETPU_VII_FORMAT_LITEBUF
  | _ => None
  end.

(** The guards passed before [lock_check_group_member], in the order in
    which they are tested: those of [edgetpu_ioctl], then those of the
    handler. *)
Definition early_error (f : file) (cmd : group_scoped_cmd)
  (env : environment) : option Z :=
  match private_data f with
  | None => Some (- ENODEV)
  | Some _ =>
      if negb (edgetpu_ioctl_check_permissions f cmd) then Some (- EPERM)
      else if copies_argument_in cmd && negb (copy_from_user_ok env) then
        Some (- EFAULT)
      else
        match wanted_vii_format cmd with
        | Some fmt =>
            if vii_unsupported env fmt then Some (- EOPNOTSUPP) else None
        | None => None
        end
  end.

(** Calls without effect on the driver's state: tracepoints, and taking or
    dropping [client->group_lock]. *)
Definition harmless (c : call) : bool :=
  match c with
  | trace_point | lock_group_lock | unlock_group_lock => true
  | _ => false
  end.

Fixpoint lock_depth (tr : list call) (held : Z) : Z :=
  match tr with
  | [] => held
  | lock_group_lock :: tl => lock_depth tl (held + 1)
  | unlock_group_lock :: tl => lock_depth tl (held - 1)
  | _ :: tl => lock_depth tl held
  end.

(** [edgetpu_ioctl_release_wakelock]: return value, client afterwards,
    calls. *)
Definition edgetpu_ioctl_release_wakelock (client : edgetpu_client)
  : Z * edgetpu_client * list call :=
  let (count, w) := edgetpu_wakelock_release (wakelock client) in
  if count <? 0 then
    (count, set_wakelock client w,
     [trace_point; lock_group_lock; unlock_group_lock; trace_point])
  else
    let detach :=
      if count =? 0 then
        match group client with
        | Some g => [edgetpu_group_close_and_detach_mailbox g]
        | None => []
        end
      else [] in
    (0, set_wakelock client w,
     [trace_point; lock_group_lock] ++ detach ++
     [unlock_group_lock; edgetpu_pm_put; trace_point]).

(** [edgetpu_ioctl_acquire_wakelock]. *)
Definition edgetpu_ioctl_acquire_wakelock (env : environment)
  (client : edgetpu_client) : Z * edgetpu_client * list call :=
  if thermal_suspended env then (- EAGAIN, client, [trace_point; trace_point])
  else if negb (pm_get_ret env =? 0) then
    (pm_get_ret env, client,
     [trace_point; edgetpu_pm_get (pm_get_ret env); trace_point])
  else
    let pre := [trace_point; edgetpu_pm_get 0; lock_group_lock] in
    let (count, w) := edgetpu_wakelock_acquire (wakelock client) in
    if count <? 0 then
      (count, set_wakelock client w,
       pre ++ [unlock_group_lock; edgetpu_pm_put; trace_point])
    else
      match (if count =? 0 then group client else None) with
      | Some g =>
          if negb (attach_ret env =? 0) then
            (attach_ret env,
             set_wakelock client (snd (edgetpu_wakelock_release w)),
             pre ++ [edgetpu_group_attach_and_open_mailbox g (attach_ret env);
                     unlock_group_lock; edgetpu_pm_put; trace_point])
          else
            (0, set_wakelock client w,
             pre ++ [edgetpu_group_attach_and_open_mailbox g 0;
                     unlock_group_lock; trace_point])
      | None =>
          (0, set_wakelock client w, pre ++ [unlock_group_lock; trace_point])
      end.

(** The power-management and mailbox calls of a handler, in order. *)
Definition power_mailbox_calls (tr : list call) : list call :=
  filter (fun c =>
            match c with
            | edgetpu_pm_get _ | edgetpu_pm_put
            | edgetpu_group_attach_and_open_mailbox _ _
            | edgetpu_group_close_and_detach_mailbox _ => true
            | _ => false
            end) tr.

Definition detached (tr : list call) (g : nat) : Prop :=
  In (edgetpu_group_close_and_detach_mailbox g) tr.

(** No mmap event is counted on a wakelock that is not held. *)
Definition wakelock_consistent (w : edgetpu_wakelock) : Prop :=
  0 <= req_count w /\ (req_count w = 0 -> mmap_events w = 0).

Definition crosses_up (before after : edgetpu_client) : Prop :=
  req_count (wakelock before) = 0 /\ req_count (wakelock after) = 1.

Definition crosses_down (before after : edgetpu_client) : Prop :=
  req_count (wakelock before) = 1 /\ req_count (wakelock after) = 0.

(** Sample surroundings and clients. *)
Definition quiet_env : environment :=
  {| copy_from_user_ok := true; copy_payload_ok := true;
     copy_to_user_ok := true; copy_payload_out_ok := true;
     use_ikv := true; vii_format := EDGETPU_VII_FORMAT_FLATBUFFER;
     callee_ret := 0; in_fence_err := 0; out_fence_err := 0;
     in_iif_err := 0; out_iif_err := 0; litebuf_inline := true;
     kzalloc_ok := true; iremap_alloc_ret := 0;
     thermal_suspended := false; pm_get_ret := 0; attach_ret := 0 |}.

Definition no_ikv_env : environment :=
  {| copy_from_user_ok := true; copy_payload_ok := true;
     copy_to_user_ok := true; copy_payload_out_ok := true;
     use_ikv := false; vii_format := EDGETPU_VII_FORMAT_FLATBUFFER;
     callee_ret := 0; in_fence_err := 0; out_fence_err := 0;
     in_iif_err := 0; out_iif_err := 0; litebuf_inline := true;
     kzalloc_ok := true; iremap_alloc_ret := 0;
     thermal_suspended := false; pm_get_ret := 0; attach_ret := 0 |}.

Definition attach_fails_env : environment :=
  {| copy_from_user_ok := true; copy_payload_ok := true;
     copy_to_user_ok := true; copy_payload_out_ok := true;
     use_ikv := true; vii_format := EDGETPU_VII_FORMAT_FLATBUFFER;
     callee_ret := 0; in_fence_err := 0; out_fence_err := 0;
     in_iif_err := 0; out_iif_err := 0; litebuf_inline := true;
     kzalloc_ok := true; iremap_alloc_ret := 0;
     thermal_suspended := false; pm_get_ret := 0; attach_ret := - 5 |}.

Definition sample_client (g : option nat) (held : Z) : edgetpu_client :=
  {| count := 1; group := g;
     wakelock := {| req_count := held; mmap_events := 0 |};
     perdie_events := 0 |}.

(** The device file of a client, opened for reading and writing, and
    opened for reading only. *)
Definition sample_file (client : edgetpu_client) : file :=
  {| private_data := Some client; f_mode := Z.lor FMODE_READ FMODE_WRITE |}.

Definition read_only_file (client : edgetpu_client) : file :=
  {| private_data := Some client; f_mode := FMODE_READ |}.

(** Closes the clauses about one concrete list of calls. *)
Ltac settle :=
  cbn;
  repeat match goal with
         | |- _ /\ _ => split
         | |- forall _, _ => intro
         | |- ~ _ => intro
         | H : _ /\ _ |- _ => destruct H
         | H : False |- _ => contradiction
         | H : _ \/ _ |- _ => destruct H as [H|H]
         | H : Some _ = Some _ |- _ => inversion H; subst; clear H
         | H : @eq call _ _ |- _ =>
             first [discriminate H | inversion H; subst; clear H]
         end;
  cbn in *;
  try reflexivity; try discriminate; try congruence; try lia;
  try (exfalso; auto; fail).

(** *** Properties of the handlers *)

(** C10 as stated does not hold: without in-kernel VII the VII command
    handler answers -EOPNOTSUPP to a client that has no group, and on a
    file that is not open for writing [edgetpu_ioctl] answers -EPERM before
    any handler runs. *)
Lemma vii_command_without_group_eopnotsupp :
  group (sample_client None 0) = None /\
  copy_from_user_ok no_ikv_env = true /\
  edgetpu_ioctl (sample_file (sample_client None 0))
                EDGETPU_VII_COMMAND no_ikv_env
  = (- EOPNOTSUPP, [trace_point; trace_point]) /\
  - EOPNOTSUPP <> - EINVAL /\
  edgetpu_ioctl (read_only_file (sample_client None 0))
                EDGETPU_MAP_BUFFER quiet_env
  = (- EPERM, []) /\
  - EPERM <> - EINVAL.
Proof. repeat split; discriminate. Qed.

(** C10, as the code has it: on a file whose client has no group each
    group-scoped operation fails and calls nothing but tracepoints and the
    group lock, which it leaves released.  The error is -EINVAL once the
    guards that come first have passed: [edgetpu_ioctl] answers -ENODEV for
    a file without a client and -EPERM for one not open for writing; the
    handler answers -EFAULT when the argument cannot be copied in, and the
    VII handlers -EOPNOTSUPP when in-kernel VII with their format is not in
    use. *)
Theorem no_group_fails_without_effect :
  forall f cmd env,
    (forall client, private_data f = Some client -> group client = None) ->
    fst (edgetpu_ioctl f cmd env)
    = match early_error f cmd env with Some e => e | None => - EINVAL end /\
    fst (edgetpu_ioctl f cmd env) < 0 /\
    forallb harmless (snd (edgetpu_ioctl f cmd env)) = true /\
    lock_depth (snd (edgetpu_ioctl f cmd env)) 0 = 0.
Proof.
  intros [[client|] mode] cmd env Hg;
    unfold edgetpu_ioctl, early_error; cbn [private_data];
    [|repeat split; reflexivity].
  specialize (Hg client eq_refl).
  destruct (edgetpu_ioctl_check_permissions
              {| private_data := Some client; f_mode := mode |} cmd);
    cbn [negb]; cbv iota; [|repeat split; reflexivity].
  destruct cmd;
    unfold edgetpu_ioctl_map_buffer, edgetpu_ioctl_unmap_buffer,
      edgetpu_ioctl_sync_buffer, edgetpu_ioctl_map_dmabuf,
      edgetpu_ioctl_unmap_dmabuf, edgetpu_ioctl_set_eventfd,
      edgetpu_ioctl_unset_eventfd, edgetpu_ioctl_sync_fence_create,
      edgetpu_ioctl_vii_command, edgetpu_ioctl_vii_response,
      edgetpu_ioctl_vii_litebuf_command, edgetpu_ioctl_vii_litebuf_response,
      lock_check_group_member, vii_unsupported;
    rewrite Hg; cbn [copies_argument_in wanted_vii_format andb];
    destruct (copy_from_user_ok env), (use_ikv env), (vii_format env);
    cbn; repeat split; reflexivity.
Qed.

Lemma no_group_fails_without_effect_witness :
  group (sample_client None 2) = None /\
  fst (edgetpu_ioctl (sample_file (sample_client None 2))
                     EDGETPU_MAP_BUFFER quiet_env)
  = - EINVAL /\
  forallb harmless
    (snd (edgetpu_ioctl (sample_file (sample_client None 2))
                        EDGETPU_MAP_BUFFER quiet_env))
  = true /\
  fst (edgetpu_ioctl (read_only_file (sample_client None 2))
                     EDGETPU_MAP_BUFFER quiet_env)
  = - EPERM.
Proof.
  assert (Hg : forall f : file,
             (f = sample_file (sample_client None 2) \/
              f = read_only_file (sample_client None 2)) ->
             forall client, private_data f = Some client ->
                            group client = None).
  { intros f [->| ->] client H; inversion H; reflexivity. }
  split; [reflexivity|].
  destruct (no_group_fails_without_effect
              (sample_file (sample_client None 2)) EDGETPU_MAP_BUFFER
              quiet_env (Hg _ (or_introl eq_refl)))
    as (Hret & _ & Hcalls & _).
  destruct (no_group_fails_without_effect
              (read_only_file (sample_client None 2)) EDGETPU_MAP_BUFFER
              quiet_env (Hg _ (or_intror eq_refl)))
    as (Hperm & _).
  split; [exact Hret|]. split; [exact Hcalls | exact Hperm].
Defined.

(** C3 as stated does not hold: this acquire finds the count at 0, calls
    the attach, which fails, and leaves the count at 0: the attach call is
    made on an acquire that does not take the count from 0 to 1. *)
Lemma failed_attach_without_crossing :
  req_count (wakelock (sample_client (Some 7%nat) 0)) = 0 /\
  edgetpu_ioctl_acquire_wakelock attach_fails_env (sample_client (Some 7%nat) 0)
  = (- 5, sample_client (Some 7%nat) 0,
     [trace_point; edgetpu_pm_get 0; lock_group_lock;
      edgetpu_group_attach_and_open_mailbox 7 (- 5);
      unlock_group_lock; edgetpu_pm_put; trace_point]).
Proof. split; reflexivity. Qed.

(** C3, as the code has it: an acquire that takes the client's count from
    0 to 1 while it owns a group calls [edgetpu_pm_get] and then, once,
    attaches and opens the group's mailbox; a release that takes the count
    from 1 to 0 closes and detaches the mailbox, once, and then calls
    [edgetpu_pm_put].  The attach is called only by an acquire that finds
    the count at 0 while the client owns a group: when it succeeds the
    count goes to 1, when it fails the acquire fails with its error, the
    count is taken back to 0 and the power released, without a detach.
    The detach is called by no release that leaves the count elsewhere;
    an acquire never detaches and a release never attaches. *)
Theorem wakelock_power_mailbox_order :
  forall env client,
    wakelock_consistent (wakelock client) ->
    (forall ret after tr,
       edgetpu_ioctl_acquire_wakelock env client = (ret, after, tr) ->
       (forall g, group client = Some g -> crosses_up client after ->
          ret = 0 /\
          power_mailbox_calls tr
          = [edgetpu_pm_get 0; edgetpu_group_attach_and_open_mailbox g 0]) /\
       (forall g r,
          In (edgetpu_group_attach_and_open_mailbox g r) tr ->
          group client = Some g /\ req_count (wakelock client) = 0 /\
          (r = 0 -> ret = 0 /\ crosses_up client after) /\
          (r <> 0 ->
           ret = r /\ wakelock after = wakelock client /\
           power_mailbox_calls tr
           = [edgetpu_pm_get 0; edgetpu_group_attach_and_open_mailbox g r;
              edgetpu_pm_put])) /\
       (forall g, ~ detached tr g)) /\
    (forall ret after tr,
       edgetpu_ioctl_release_wakelock client = (ret, after, tr) ->
       (forall g, group client = Some g -> crosses_down client after ->
          ret = 0 /\
          power_mailbox_calls tr
          = [edgetpu_group_close_and_detach_mailbox g; edgetpu_pm_put]) /\
       (~ crosses_down client after -> forall g, ~ detached tr g) /\
       (forall g, detached tr g -> group client = Some g) /\
       (forall g r, ~ In (edgetpu_group_attach_and_open_mailbox g r) tr)).
Proof.
  intros env [cnt grp [rc ev] pe] (Hrc & Hev). cbn in Hrc, Hev.
  unfold crosses_up, crosses_down, detached.
  split; intros ret after tr Hrun.
  - replace ret with (fst (fst (edgetpu_ioctl_acquire_wakelock env
      {| count := cnt; group := grp;
         wakelock := {| req_count := rc; mmap_events := ev |};
         perdie_events := pe |}))) by now rewrite Hrun.
    replace after with (snd (fst (edgetpu_ioctl_acquire_wakelock env
      {| count := cnt; group := grp;
         wakelock := {| req_count := rc; mmap_events := ev |};
         perdie_events := pe |}))) by now rewrite Hrun.
    replace tr with (snd (edgetpu_ioctl_acquire_wakelock env
      {| count := cnt; group := grp;
         wakelock := {| req_count := rc; mmap_events := ev |};
         perdie_events := pe |})) by now rewrite Hrun.
    clear Hrun.
    unfold edgetpu_ioctl_acquire_wakelock, edgetpu_wakelock_acquire,
      edgetpu_wakelock_release, INT_MAX.
    cbn [wakelock req_count mmap_events group].
    destruct (thermal_suspended env); [settle|].
    destruct (Z.eqb_spec (pm_get_ret env) 0) as [Hpm|Hpm]; cbn [negb];
      [|settle].
    destruct (Z.gtb_spec (rc + 1) 2147483647) as [Hov|Hov]; [settle|].
    destruct (Z.ltb_spec rc 0) as [Hlt|_]; [lia|].
    destruct (Z.eqb_spec rc 0) as [Hz|Hz].
    + subst rc. specialize (Hev eq_refl). subst ev.
      destruct grp as [g0|]; [|settle].
      destruct (Z.eqb_spec (attach_ret env) 0) as [Ha|Ha]; settle.
    + settle.
  - replace ret with (fst (fst (edgetpu_ioctl_release_wakelock
      {| count := cnt; group := grp;
         wakelock := {| req_count := rc; mmap_events := ev |};
         perdie_events := pe |}))) by now rewrite Hrun.
    replace after with (snd (fst (edgetpu_ioctl_release_wakelock
      {| count := cnt; group := grp;
         wakelock := {| req_count := rc; mmap_events := ev |};
         perdie_events := pe |}))) by now rewrite Hrun.
    replace tr with (snd (edgetpu_ioctl_release_wakelock
      {| count := cnt; group := grp;
         wakelock := {| req_count := rc; mmap_events := ev |};
         perdie_events := pe |})) by now rewrite Hrun.
    clear Hrun.
    unfold edgetpu_ioctl_release_wakelock, edgetpu_wakelock_release.
    cbn [wakelock req_count mmap_events group].
    destruct (Z.eqb_spec rc 0) as [Hz|Hz]; [settle|].
    destruct (Z.eqb_spec rc 1) as [H1|H1]; cbn [andb].
    + subst rc. destruct (Z.ltb_spec 0 ev) as [Hheld|Hheld]; [settle|].
      destruct grp as [g0|]; settle.
    + destruct (Z.ltb_spec (rc - 1) 0) as [Hlt|_]; [lia|].
      destruct (Z.eqb_spec (rc - 1) 0) as [Hz'|Hz']; [lia|].
      settle.
Qed.

Lemma sample_wakelock_consistent g held :
  0 <= held -> wakelock_consistent (wakelock (sample_client g held)).
Proof. intros H. split; [exact H | reflexivity]. Qed.

Lemma wakelock_power_mailbox_order_witness :
  wakelock_consistent (wakelock (sample_client (Some 7%nat) 0)) /\
  wakelock_consistent (wakelock (sample_client (Some 7%nat) 1)) /\
  power_mailbox_calls
    (snd (edgetpu_ioctl_acquire_wakelock quiet_env
            (sample_client (Some 7%nat) 0)))
  = [edgetpu_pm_get 0; edgetpu_group_attach_and_open_mailbox 7 0] /\
  power_mailbox_calls
    (snd (edgetpu_ioctl_release_wakelock (sample_client (Some 7%nat) 1)))
  = [edgetpu_group_close_and_detach_mailbox 7; edgetpu_pm_put].
Proof.
  assert (H0 : wakelock_consistent (wakelock (sample_client (Some 7%nat) 0)))
    by (apply sample_wakelock_consistent; lia).
  assert (H1 : wakelock_consistent (wakelock (sample_client (Some 7%nat) 1)))
    by (apply sample_wakelock_consistent; lia).
  split; [exact H0|]. split; [exact H1|].
  split.
  - destruct (wakelock_power_mailbox_order quiet_env _ H0) as (Hacq & _).
    destruct (Hacq _ _ _ eq_refl) as (Hup & _).
    destruct (Hup 7%nat eq_refl (conj eq_refl eq_refl)) as (_ & Hcalls).
    exact Hcalls.
  - destruct (wakelock_power_mailbox_order quiet_env _ H1) as (_ & Hrel).
    destruct (Hrel _ _ _ eq_refl) as (Hdown & _).
    destruct (Hdown 7%nat eq_refl (conj eq_refl eq_refl)) as (_ & Hcalls).
    exact Hcalls.
Defined.

End Fs.

(** ** Client removal ([edgetpu-core.c]) *)

Module Core.

Import Internal.

Definition EDGETPU_PERDIE_EVENT_LOGS_AVAILABLE : Z := 4096.    (* 0x1000 *)
Definition EDGETPU_PERDIE_EVENT_TRACES_AVAILABLE : Z := 4097.  (* 0x1001 *)

Definition perdie_event_id_to_num (event_id : Z) : Z :=
  event_id - EDGETPU_PERDIE_EVENT_LOGS_AVAILABLE.

(** [client->perdie_events & 1 << perdie_event_id_to_num(event_id)]. *)
Definition perdie_event_set (client : edgetpu_client) (event_id : Z) : bool :=
  negb (Z.land (perdie_events client)
               (Z.shiftl 1 (perdie_event_id_to_num event_id)) =? 0).

(** [edgetpu_client_put]: drops a reference; the client is freed when it
    was the last one. *)
Definition client_put (client : edgetpu_client) : call :=
  edgetpu_client_put (count client =? 1).

(** The [while (wakelock_count--)] loop: [uint] counts down to zero. *)
Definition pm_put_loop (wakelock_count : Z) : list call :=
  repeat edgetpu_pm_put (Z.to_nat wakelock_count).

(** [edgetpu_client_remove]: the calls it makes, in program order. *)
Definition edgetpu_client_remove (client : edgetpu_client) : list call :=
  let wakelock_count := req_count (wakelock client) in
  [lock_group_lock] ++
  (match group client with
   | Some g => if wakelock_count =? 0 then [set_dev_inaccessible g] else []
   | None => []
   end) ++
  [unlock_group_lock; list_del_client] ++
  (match group client with
   | Some g => [edgetpu_device_group_leave g]
   | None => []
   end) ++
  [edgetpu_ext_client_remove] ++
  (if perdie_event_set client EDGETPU_PERDIE_EVENT_LOGS_AVAILABLE
   then [edgetpu_telemetry_unset_event true] else []) ++
  (if perdie_event_set client EDGETPU_PERDIE_EVENT_TRACES_AVAILABLE
   then [edgetpu_telemetry_unset_event false] else []) ++
  [client_put client] ++
  pm_put_loop wakelock_count.

(** The calls made before the reference is dropped, and after. *)
Fixpoint before_put (tr : list call) : list call :=
  match tr with
  | [] => []
  | edgetpu_client_put _ :: _ => []
  | c :: tl => c :: before_put tl
  end.

Fixpoint after_put (tr : list call) : list call :=
  match tr with
  | [] => []
  | edgetpu_client_put _ :: tl => tl
  | _ :: tl => after_put tl
  end.

Definition is_pm_put (c : call) : bool :=
  match c with edgetpu_pm_put => true | _ => false end.

Definition is_leave (g : nat) (c : call) : bool :=
  match c with edgetpu_device_group_leave g' => Nat.eqb g g' | _ => false end.

(** Number of [edgetpu_pm_put] calls, and of group leaves. *)
Definition pm_puts (tr : list call) : Z :=
  Z.of_nat (length (filter is_pm_put tr)).

Definition leaves (tr : list call) (g : nat) : Z :=
  Z.of_nat (length (filter (is_leave g) tr)).

Definition sample_holder : edgetpu_client :=
  {| count := 1; group := Some 3%nat;
     wakelock := {| req_count := 2; mmap_events := 0 |};
     perdie_events := 1 |}.

(** The calls that come before the client's reference is dropped. *)
Definition teardown_prefix (client : edgetpu_client) : list call :=
  [lock_group_lock] ++
  (match group client with
   | Some g =>
       if req_count (wakelock client) =? 0 then [set_dev_inaccessible g] else []
   | None => []
   end) ++
  [unlock_group_lock; list_del_client] ++
  (match group client with
   | Some g => [edgetpu_device_group_leave g]
   | None => []
   end) ++
  [edgetpu_ext_client_remove] ++
  (if perdie_event_set client EDGETPU_PERDIE_EVENT_LOGS_AVAILABLE
   then [edgetpu_telemetry_unset_event true] else []) ++
  (if perdie_event_set client EDGETPU_PERDIE_EVENT_TRACES_AVAILABLE
   then [edgetpu_telemetry_unset_event false] else []).

(** *** Properties of the removal *)

(** C7 as stated does not hold: the reference is dropped (and, being the
    last one, the client freed) while both of its wakelock acquisitions
    are still owed to power management; the releases follow. *)
Lemma client_freed_before_power_released :
  edgetpu_client_remove sample_holder
  = [lock_group_lock; unlock_group_lock; list_del_client;
     edgetpu_device_group_leave 3; edgetpu_ext_client_remove;
     edgetpu_telemetry_unset_event true;
     edgetpu_client_put true; edgetpu_pm_put; edgetpu_pm_put] /\
  pm_puts (before_put (edgetpu_client_remove sample_holder)) = 0 /\
  req_count (wakelock sample_holder) = 2.
Proof. repeat split. Qed.

Lemma pm_puts_app a b : pm_puts (a ++ b) = pm_puts a + pm_puts b.
Proof. unfold pm_puts. rewrite filter_app, length_app. lia. Qed.

Lemma leaves_app a b g : leaves (a ++ b) g = leaves a g + leaves b g.
Proof. unfold leaves. rewrite filter_app, length_app. lia. Qed.

Lemma pm_puts_loop n : 0 <= n -> pm_puts (pm_put_loop n) = n.
Proof.
  intros Hn. unfold pm_puts, pm_put_loop.
  assert (H : forall k, filter is_pm_put (repeat edgetpu_pm_put k)
                        = repeat edgetpu_pm_put k).
  { induction k as [|k IH]; cbn; [reflexivity | now rewrite IH]. }
  rewrite H, repeat_length. lia.
Qed.

Lemma leaves_loop n g : leaves (pm_put_loop n) g = 0.
Proof.
  unfold leaves, pm_put_loop.
  induction (Z.to_nat n) as [|k IH]; cbn; [reflexivity | exact IH].
Qed.

Lemma remove_split client :
  edgetpu_client_remove client
  = teardown_prefix client ++ client_put client
      :: pm_put_loop (req_count (wakelock client)).
Proof.
  unfold edgetpu_client_remove, teardown_prefix.
  repeat rewrite <- app_assoc. reflexivity.
Qed.

Lemma prefix_has_no_put client :
  before_put (teardown_prefix client ++ client_put client
                :: pm_put_loop (req_count (wakelock client)))
  = teardown_prefix client /\
  after_put (teardown_prefix client ++ client_put client
               :: pm_put_loop (req_count (wakelock client)))
  = pm_put_loop (req_count (wakelock client)) /\
  pm_puts (teardown_prefix client) = 0.
Proof.
  unfold teardown_prefix.
  destruct (group client) as [g|];
    destruct (req_count (wakelock client) =? 0);
    destruct (perdie_event_set client EDGETPU_PERDIE_EVENT_LOGS_AVAILABLE);
    destruct (perdie_event_set client EDGETPU_PERDIE_EVENT_TRACES_AVAILABLE);
    repeat split.
Qed.

(** C7, as the code has it: [edgetpu_client_remove] leaves the client's
    group when it has one (and calls no leave otherwise) and calls
    [edgetpu_pm_put] exactly once for each wakelock acquisition held on
    entry.  These power releases are all issued after the client's
    reference has been dropped: none comes before [edgetpu_client_put],
    which frees the client when that reference was the last. *)
Theorem client_remove_releases_wakelocks :
  forall client,
    0 <= req_count (wakelock client) ->
    (forall g, group client = Some g ->
       leaves (edgetpu_client_remove client) g = 1 /\
       leaves (before_put (edgetpu_client_remove client)) g = 1) /\
    (group client = None ->
       forall g, leaves (edgetpu_client_remove client) g = 0) /\
    pm_puts (edgetpu_client_remove client) = req_count (wakelock client) /\
    pm_puts (before_put (edgetpu_client_remove client)) = 0 /\
    after_put (edgetpu_client_remove client)
    = pm_put_loop (req_count (wakelock client)) /\
    In (client_put client) (edgetpu_client_remove client).
Proof.
  intros client Hheld.
  destruct (prefix_has_no_put client) as (Hbefore & Hafter & Hnone).
  rewrite remove_split. rewrite Hbefore, Hafter.
  change (client_put client :: pm_put_loop (req_count (wakelock client)))
    with ([client_put client] ++ pm_put_loop (req_count (wakelock client))).
  assert (Hprefix : forall g,
    leaves (teardown_prefix client) g
    = match group client with
      | Some g' => if Nat.eqb g g' then 1 else 0
      | None => 0
      end).
  { intros g. unfold teardown_prefix.
    destruct (group client) as [g'|];
      destruct (req_count (wakelock client) =? 0);
      destruct (perdie_event_set client EDGETPU_PERDIE_EVENT_LOGS_AVAILABLE);
      destruct (perdie_event_set client EDGETPU_PERDIE_EVENT_TRACES_AVAILABLE);
      unfold leaves; cbn; try reflexivity; destruct (Nat.eqb g g'); reflexivity. }
  split; [|split; [|split; [|split; [|split]]]].
  - intros g Hg. rewrite !leaves_app, leaves_loop, Hprefix, Hg.
    rewrite Nat.eqb_refl. split; reflexivity.
  - intros Hg g. rewrite !leaves_app, leaves_loop, Hprefix, Hg. reflexivity.
  - rewrite !pm_puts_app, Hnone, pm_puts_loop by assumption. reflexivity.
  - exact Hnone.
  - reflexivity.
  - apply in_or_app. right. apply in_or_app. left. now left.
Qed.

Lemma client_remove_releases_wakelocks_witness :
  0 <= req_count (wakelock sample_holder) /\
  pm_puts (edgetpu_client_remove sample_holder) = 2 /\
  after_put (edgetpu_client_remove sample_holder)
  = [edgetpu_pm_put; edgetpu_pm_put].
Proof.
  assert (H : 0 <= req_count (wakelock sample_holder)) by (cbn; lia).
  split; [exact H|].
  destruct (client_remove_releases_wakelocks sample_holder H)
    as (_ & _ & Hputs & _ & Hafter & _).
  split; [exact Hputs | exact Hafter].
Defined.

End Core.

(** ** The in-kernel fence awaiter ([gcip-ikf.c]) *)

Module Ikf.

Definition MAX_SCHEDULE_TIMEOUT : Z := 2 ^ 63 - 1.   (* LONG_MAX *)

(** Program points of [gcip_ikf_thread_func]. *)
Inductive thread_pc :=
| AtWait        (* created and woken; inside dma_fence_wait_timeout *)
| AtCheck       (* the wait returned; next is the kthread_should_stop test *)
| AtSignaled    (* the test was false; next is thread->signaled = true *)
| AtCallback    (* next is the call of awaiter->signaled_cb *)
| AtOut         (* at out:, next is the section under threads_lock *)
| Exited.       (* returned without releasing itself *)

(** [struct gcip_ikf_thread], with the thread's own program point, its
    local [wait_status] and the stop flag of its task
    ([kthread_should_stop]). *)
Record gcip_ikf_thread := {
  task : nat;
  fence : nat;
  timeout_jiffies : Z;
  data : nat;
  signaled : bool;
  pc : thread_pc;
  wait_status : Z;
  should_stop : bool
}.

(** Who called [signaled_cb]: the waiter's thread or [gcip_ikf_awaiter_exit]. *)
Inductive cb_source := ByThread | ByExit.

(** One invocation [signaled_cb(fence, wait_status, data)], tagged with the
    waiter it was made for. *)
Record cb_call := {
  cb_task : nat;
  cb_fence : nat;
  cb_status : Z;
  cb_data : nat;
  cb_by : cb_source
}.

(** Program points of [gcip_ikf_awaiter_exit]. *)
Inductive exit_pc :=
| NotCalled
| Sweeping      (* stop_threads is set; at the head of the list loop *)
| Stopping      (* inside kthread_stop(cur->task) for the first node *)
| Returned.

(** [struct gcip_ikf_awaiter]: the linked [threads] in list order,
    [stop_threads], whether [signaled_cb] is set; and, to state properties,
    where a caller of [gcip_ikf_awaiter_exit] stands, the calls of
    [signaled_cb] made so far (latest first) and the next fresh task. *)
Record gcip_ikf_awaiter := {
  threads : list gcip_ikf_thread;
  stop_threads : bool;
  signaled_cb : bool;
  exit_at : exit_pc;
  called : list cb_call;
  next_task : nat
}.

(** [gcip_ikf_awaiter_init]. *)
Definition gcip_ikf_awaiter_init (cb : bool) : gcip_ikf_awaiter :=
  {| threads := []; stop_threads := false; signaled_cb := cb;
     exit_at := NotCalled; called := []; next_task := 0 |}.

Definition has_task (id : nat) (t : gcip_ikf_thread) : bool :=
  Nat.eqb (task t) id.

Definition lookup (id : nat) (l : list gcip_ikf_thread)
  : option gcip_ikf_thread :=
  find (has_task id) l.

(** The node of task [id] rewritten in place. *)
Definition update (id : nat) (f : gcip_ikf_thread -> gcip_ikf_thread)
  (l : list gcip_ikf_thread) : list gcip_ikf_thread :=
  map (fun t => if has_task id t then f t else t) l.

(** [list_del(&thread->node)]. *)
Definition list_del (id : nat) (l : list gcip_ikf_thread)
  : list gcip_ikf_thread :=
  filter (fun t => negb (has_task id t)) l.

Definition set_threads (aw : gcip_ikf_awaiter) (l : list gcip_ikf_thread)
  : gcip_ikf_awaiter :=
  {| threads := l; stop_threads := stop_threads aw;
     signaled_cb := signaled_cb aw; exit_at := exit_at aw;
     called := called aw; next_task := next_task aw |}.

Definition add_call (aw : gcip_ikf_awaiter) (c : cb_call) : gcip_ikf_awaiter :=
  {| threads := threads aw; stop_threads := stop_threads aw;
     signaled_cb := signaled_cb aw; exit_at := exit_at aw;
     called := c :: called aw; next_task := next_task aw |}.

Definition set_exit (aw : gcip_ikf_awaiter) (stop : bool) (at_pc : exit_pc)
  : gcip_ikf_awaiter :=
  {| threads := threads aw; stop_threads := stop;
     signaled_cb := signaled_cb aw; exit_at := at_pc;
     called := called aw; next_task := next_task aw |}.

Definition set_pc (p : thread_pc) (t : gcip_ikf_thread) : gcip_ikf_thread :=
  {| task := task t; fence := fence t; timeout_jiffies := timeout_jiffies t;
     data := data t; signaled := signaled t; pc := p;
     wait_status := wait_status t; should_stop := should_stop t |}.

Definition set_wait_status (w : Z) (t : gcip_ikf_thread) : gcip_ikf_thread :=
  {| task := task t; fence := fence t; timeout_jiffies := timeout_jiffies t;
     data := data t; signaled := signaled t; pc := pc t;
     wait_status := w; should_stop := should_stop t |}.

Definition set_signaled (t : gcip_ikf_thread) : gcip_ikf_thread :=
  {| task := task t; fence := fence t; timeout_jiffies := timeout_jiffies t;
     data := data t; signaled := true; pc := pc t;
     wait_status := wait_status t; should_stop := should_stop t |}.

Definition set_should_stop (t : gcip_ikf_thread) : gcip_ikf_thread :=
  {| task := task t; fence := fence t; timeout_jiffies := timeout_jiffies t;
     data := data t; signaled := signaled t; pc := pc t;
     wait_status := wait_status t; should_stop := true |}.

(** The status the thread hands to the callback: 0 from the wait means it
    timed out, [MAX_SCHEDULE_TIMEOUT] means signaled without a timeout. *)
Definition callback_status (wait_result : Z) : Z :=
  let w := if wait_result =? 0 then - ETIMEDOUT else wait_result in
  if w =? MAX_SCHEDULE_TIMEOUT then 0 else w.

(** [gcip_ikf_wait_timeout]: [fence] is [None] for NULL, [kzalloc_ok] and
    [kthread_create_err] (0, or the PTR_ERR of the task) are the answers of
    the allocator and of [kthread_create]. *)
Definition gcip_ikf_wait_timeout (aw : gcip_ikf_awaiter)
  (fence_arg : option nat) (timeout : Z) (data_arg : nat)
  (kzalloc_ok : bool) (kthread_create_err : Z) : Z * gcip_ikf_awaiter :=
  match fence_arg with
  | None => (- EINVAL, aw)
  | Some f =>
      if negb kzalloc_ok then (- ENOMEM, aw)
      else if negb (kthread_create_err =? 0) then (kthread_create_err, aw)
      else if stop_threads aw then (- EPERM, aw)
      else
        (0,
         {| threads := threads aw ++
                       [{| task := next_task aw; fence := f;
                           timeout_jiffies := timeout; data := data_arg;
                           signaled := false; pc := AtWait;
                           wait_status := timeout; should_stop := false |}];
            stop_threads := stop_threads aw;
            signaled_cb := signaled_cb aw;
            exit_at := exit_at aw;
            called := called aw;
            next_task := S (next_task aw) |})
  end.

(** One step of the thread of task [id] in [gcip_ikf_thread_func];
    [wait_result] is what [dma_fence_wait_timeout] returns when the step is
    the return from the wait.  [None]: no such thread is running. *)
Definition gcip_ikf_thread_func (id : nat) (wait_result : Z)
  (aw : gcip_ikf_awaiter) : option gcip_ikf_awaiter :=
  match lookup id (threads aw) with
  | None => None
  | Some t =>
      match pc t with
      | AtWait =>
          Some (set_threads aw
                  (update id (fun t => set_pc AtCheck
                                         (set_wait_status wait_result t))
                          (threads aw)))
      | AtCheck =>
          if should_stop t then
            Some (set_threads aw (update id (set_pc AtOut) (threads aw)))
          else
            Some (set_threads aw (update id (set_pc AtSignaled) (threads aw)))
      | AtSignaled =>
          Some (set_threads aw
                  (update id
                     (fun t => set_pc AtCallback
                                 (set_wait_status
                                    (callback_status (wait_status t))
                                    (set_signaled t)))
                     (threads aw)))
      | AtCallback =>
          let aw' := set_threads aw (update id (set_pc AtOut) (threads aw)) in
          if signaled_cb aw then
            Some (add_call aw'
                    {| cb_task := id; cb_fence := fence t;
                       cb_status := wait_status t; cb_data := data t;
                       cb_by := ByThread |})
          else Some aw'
      | AtOut =>
          if negb (stop_threads aw) then
            Some (set_threads aw (list_del id (threads aw)))
          else
            Some (set_threads aw (update id (set_pc Exited) (threads aw)))
      | Exited => None
      end
  end.

(** One step of a caller inside [gcip_ikf_awaiter_exit].  [kthread_stop]
    sets the stop flag of the task and returns once the thread has exited;
    [None] while it has not (or when exit is not running). *)
Definition gcip_ikf_awaiter_exit (aw : gcip_ikf_awaiter)
  : option gcip_ikf_awaiter :=
  match exit_at aw with
  | NotCalled => Some (set_exit aw true Sweeping)
  | Sweeping =>
      match threads aw with
      | [] => Some (set_exit aw (stop_threads aw) Returned)
      | cur :: rest =>
          Some (set_exit (set_threads aw (set_should_stop cur :: rest))
                         (stop_threads aw) Stopping)
      end
  | Stopping =>
      match threads aw with
      | [] => None
      | cur :: rest =>
          match pc cur with
          | Exited =>
              let aw' := set_exit (set_threads aw rest)
                                  (stop_threads aw) Sweeping in
              if negb (signaled cur) && signaled_cb aw then
                Some (add_call aw'
                        {| cb_task := task cur; cb_fence := fence cur;
                           cb_status := - ERESTARTSYS; cb_data := data cur;
                           cb_by := ByExit |})
              else Some aw'
          | _ => None
          end
      end
  | Returned => None
  end.

(** What can happen to an awaiter: a call of [gcip_ikf_wait_timeout], a
    step of one waiter thread, a step of the caller of
    [gcip_ikf_awaiter_exit]. *)
Inductive event :=
| Wait (fence_arg : option nat) (timeout : Z) (data_arg : nat)
       (kzalloc_ok : bool) (kthread_create_err : Z)
| Thread (id : nat) (wait_result : Z)
| Exit.

Definition step (e : event) (aw : gcip_ikf_awaiter)
  : option gcip_ikf_awaiter :=
  match e with
  | Wait f timeout d ok err => Some (snd (gcip_ikf_wait_timeout aw f timeout d ok err))
  | Thread id r => gcip_ikf_thread_func id r aw
  | Exit => gcip_ikf_awaiter_exit aw
  end.

(** An interleaving of such events, in order. *)
Fixpoint run (es : list event) (aw : gcip_ikf_awaiter)
  : option gcip_ikf_awaiter :=
  match es with
  | [] => Some aw
  | e :: es' =>
      match step e aw with
      | Some aw' => run es' aw'
      | None => None
      end
  end.

(** Number of callback invocations made for the waiter of task [id]. *)
Definition calls_for (id : nat) (log : list cb_call) : nat :=
  length (filter (fun c => Nat.eqb (cb_task c) id) log).

Arguments calls_for : simpl never.

(** What a [wait_status] tells the callback, after the comment on
    [gcip_ikf_signaled_cb_t]: each value reports the end of the wait. *)
Inductive wait_outcome :=
| FenceSignaled (remaining : Z)
| WaitCanceled
| WaitTimedOut
| WaitError (errno : Z).

Definition outcome (status : Z) : wait_outcome :=
  if 0 <=? status then FenceSignaled status
  else if status =? - ERESTARTSYS then WaitCanceled
  else if status =? - ETIMEDOUT then WaitTimedOut
  else WaitError status.

(** Number of callback invocations made for the waiters of [l] together. *)
Definition calls_for_waiters (l : list gcip_ikf_thread) (log : list cb_call)
  : nat :=
  length (filter (fun c => existsb (has_task (cb_task c)) l) log).

Arguments calls_for_waiters : simpl never.

(** A waiter whose callback has been made by its own thread. *)
Definition delivered (t : gcip_ikf_thread) : bool :=
  signaled t && match pc t with AtOut | Exited => true | _ => false end.

Definition expected_calls (cb : bool) (t : gcip_ikf_thread) : nat :=
  if cb && delivered t then 1%nat else 0%nat.

(** What holds of every linked waiter, given the awaiter's counter, flags
    and call history. *)
Definition thread_ok (next : nat) (stop cb : bool) (log : list cb_call)
  (t : gcip_ikf_thread) : Prop :=
  (task t < next)%nat /\
  match pc t with
  | AtWait | AtCheck | AtSignaled => signaled t = false
  | AtCallback => signaled t = true
  | AtOut | Exited => signaled t = false -> should_stop t = true
  end /\
  (should_stop t = true -> stop = true) /\
  calls_for (task t) log = expected_calls cb t /\
  (forall c, In c log -> cb_task c = task t -> cb_by c = ByThread).

(** The invariant of the awaiter under every interleaving. *)
Definition invariant (aw : gcip_ikf_awaiter) : Prop :=
  Forall (thread_ok (next_task aw) (stop_threads aw) (signaled_cb aw)
                    (called aw)) (threads aw) /\
  NoDup (map task (threads aw)) /\
  (forall id, (id < next_task aw)%nat -> ~ In id (map task (threads aw)) ->
     calls_for id (called aw) = if signaled_cb aw then 1%nat else 0%nat) /\
  (forall c, In c (called aw) -> (cb_task c < next_task aw)%nat) /\
  (forall c, In c (called aw) -> cb_by c = ByExit ->
     cb_status c = - ERESTARTSYS) /\
  (stop_threads aw = true <-> exit_at aw <> NotCalled) /\
  (exit_at aw = Returned -> threads aw = []).

(** Steps a thread still has to take before it has exited, and the steps
    [gcip_ikf_awaiter_exit] and the waiters still have to take together
    before exit returns. *)
Definition steps_left (p : thread_pc) : nat :=
  match p with
  | AtWait => 5 | AtCheck => 4 | AtSignaled => 3
  | AtCallback => 2 | AtOut => 1 | Exited => 0
  end.

Definition thread_work (t : gcip_ikf_thread) : nat :=
  (2 + steps_left (pc t))%nat.

Fixpoint sum_over (f : gcip_ikf_thread -> nat) (l : list gcip_ikf_thread)
  : nat :=
  match l with
  | [] => 0%nat
  | t :: l' => (f t + sum_over f l')%nat
  end.

Definition work (l : list gcip_ikf_thread) : nat := sum_over thread_work l.

Arguments work : simpl never.

Definition exit_work (aw : gcip_ikf_awaiter) : nat :=
  match exit_at aw with
  | NotCalled => (2 + work (threads aw))%nat
  | Sweeping => (1 + work (threads aw))%nat
  | Stopping => work (threads aw)
  | Returned => 0%nat
  end.

(** The next step when exit is given the way: exit itself when it can
    move, else the thread it is stopping, whose wait is interrupted. *)
Definition next_event (aw : gcip_ikf_awaiter) : event :=
  match exit_at aw, threads aw with
  | Stopping, cur :: _ =>
      match pc cur with
      | Exited => Exit
      | _ => Thread (task cur) (- ERESTARTSYS)
      end
  | _, _ => Exit
  end.

(** The states an awaiter can be in. *)
Definition reachable (aw : gcip_ikf_awaiter) : Prop :=
  exists cb es, run es (gcip_ikf_awaiter_init cb) = Some aw.

(** *** Sample interleavings *)

(** One wait without timeout whose fence is signaled while exit has set
    [stop_threads] but not yet called [kthread_stop]. *)
Definition race_prefix : list event :=
  [Wait (Some 1%nat) MAX_SCHEDULE_TIMEOUT 7%nat true 0;
   Thread 0 MAX_SCHEDULE_TIMEOUT;   (* the wait returns: fence signaled *)
   Exit;                            (* exit sets stop_threads *)
   Thread 0 0].                     (* kthread_should_stop() is false *)

Definition race_suffix : list event :=
  [Thread 0 0;                      (* thread->signaled = true *)
   Thread 0 0;                      (* the thread calls signaled_cb *)
   Thread 0 0;                      (* out: stop_threads is set, no release *)
   Exit;                            (* kthread_stop(cur->task) *)
   Exit;                            (* cur->signaled: no call; release *)
   Exit].                           (* the list is empty: return *)

(** Two waits; the first wait has returned when exit is called. *)
Definition two_waits : list event :=
  [Wait (Some 1%nat) 100 7%nat true 0;
   Wait (Some 2%nat) 100 8%nat true 0;
   Thread 0 5].

Definition two_waits_exit : list event :=
  [Exit; Thread 0 0; Exit; Thread 0 0; Thread 0 0; Thread 0 0; Exit;
   Exit; Thread 1 (- ERESTARTSYS); Thread 1 0; Thread 1 0; Exit; Exit].

Definition state_after (es : list event) : gcip_ikf_awaiter :=
  match run es (gcip_ikf_awaiter_init true) with
  | Some aw => aw
  | None => gcip_ikf_awaiter_init true
  end.

(** Two waits with a timeout.  Exit is called while both are still
    waiting, and the second wait times out while exit is stopping the
    first waiter. *)
Definition two_timed_waits : list event :=
  [Wait (Some 1%nat) 100 7%nat true 0;
   Wait (Some 2%nat) 100 8%nat true 0].

Definition timeout_during_exit : list event :=
  [Exit;                         (* exit is called: stop_threads is set *)
   Exit;                         (* kthread_stop on the first waiter *)
   Thread 1 0;                   (* the second wait returns 0: timed out *)
   Thread 1 0;                   (* kthread_should_stop() is false *)
   Thread 1 0;                   (* thread->signaled = true, -ETIMEDOUT *)
   Thread 1 0;                   (* the thread calls signaled_cb *)
   Thread 1 0;                   (* out: stop_threads is set, no release *)
   Thread 0 (- ERESTARTSYS);     (* the first wait is interrupted *)
   Thread 0 0;                   (* kthread_should_stop() is true *)
   Thread 0 0;                   (* out: no release *)
   Exit;                         (* first waiter: canceled call, release *)
   Exit;                         (* kthread_stop on the second waiter *)
   Exit;                         (* signaled is set: no call, release *)
   Exit].                        (* the list is empty: return *)

(** *** The one call a waiter gets *)

(** The calls of [signaled_cb] made for the waiter of task [id]. *)
Definition calls_of (id : nat) (log : list cb_call) : list cb_call :=
  filter (fun c => Nat.eqb (cb_task c) id) log.

Arguments calls_of : simpl never.

(** The call the sweep of exit makes for a waiter whose [signaled] is
    unset. *)
Definition canceled_call (t : gcip_ikf_thread) : cb_call :=
  {| cb_task := task t; cb_fence := fence t; cb_status := - ERESTARTSYS;
     cb_data := data t; cb_by := ByExit |}.

(** The call the thread of a waiter makes once it is past the
    [kthread_should_stop] test: the result of its wait, translated when
    [signaled] is written. *)
Definition own_call (t : gcip_ikf_thread) : cb_call :=
  {| cb_task := task t; cb_fence := fence t;
     cb_status := if signaled t then wait_status t
                  else callback_status (wait_status t);
     cb_data := data t; cb_by := ByThread |}.

(** After exit has been called, the call [c] is settled for its waiter:
    while the waiter is linked it is on the way to [c] and no other call
    has been made for it; once it is released [c] is the one call made.  A
    call by exit is settled for a waiter that is stopped short of the
    write of [signaled]; a call by the thread for a waiter that is past
    the stop test. *)
Definition fate (c : cb_call) (aw : gcip_ikf_awaiter) : Prop :=
  stop_threads aw = true /\ signaled_cb aw = true /\
  match lookup (cb_task c) (threads aw) with
  | Some t =>
      fence t = cb_fence c /\ data t = cb_data c /\
      match cb_by c with
      | ByExit =>
          cb_status c = - ERESTARTSYS /\ should_stop t = true /\
          signaled t = false /\ pc t <> AtSignaled /\ pc t <> AtCallback /\
          calls_of (cb_task c) (called aw) = []
      | ByThread =>
          (pc t = AtSignaled /\
           cb_status c = callback_status (wait_status t) /\
           calls_of (cb_task c) (called aw) = []) \/
          (pc t = AtCallback /\ signaled t = true /\
           cb_status c = wait_status t /\
           calls_of (cb_task c) (called aw) = []) \/
          ((pc t = AtOut \/ pc t = Exited) /\ signaled t = true /\
           calls_of (cb_task c) (called aw) = [c])
      end
  | None => calls_of (cb_task c) (called aw) = [c]
  end.

(** *** Lists of waiters *)

Lemma lookup_some id l t :
  lookup id l = Some t -> In t l /\ task t = id.
Proof.
  unfold lookup. intros H. apply find_some in H.
  destruct H as (Hin & Hid). split; [exact Hin|].
  unfold has_task in Hid. now apply Nat.eqb_eq.
Qed.

Lemma map_task_update id f l :
  (forall t, task (f t) = task t) ->
  map task (update id f l) = map task l.
Proof.
  intros Hf. unfold update. rewrite map_map. apply map_ext.
  intros t. destruct (has_task id t); auto.
Qed.

Lemma Forall_update (P Q : gcip_ikf_thread -> Prop) id f l :
  Forall P l ->
  (forall t, In t l -> task t = id -> P t -> Q (f t)) ->
  (forall t, In t l -> task t <> id -> P t -> Q t) ->
  Forall Q (update id f l).
Proof.
  intros HP Hhit Hmiss. unfold update. rewrite Forall_forall in *.
  intros x Hx. apply in_map_iff in Hx. destruct Hx as (t & <- & Hin).
  unfold has_task. destruct (Nat.eqb_spec (task t) id); auto.
Qed.

Lemma in_list_del id l t :
  In t (list_del id l) <-> In t l /\ task t <> id.
Proof.
  unfold list_del. rewrite filter_In. unfold has_task.
  destruct (Nat.eqb_spec (task t) id); cbn; intuition congruence.
Qed.

Lemma in_map_task_list_del id l x :
  In x (map task (list_del id l)) <-> In x (map task l) /\ x <> id.
Proof.
  rewrite !in_map_iff. split.
  - intros (t & <- & Hin). apply in_list_del in Hin. destruct Hin. eauto.
  - intros ((t & <- & Hin) & Hne). exists t. split; auto.
    apply in_list_del. auto.
Qed.

Lemma NoDup_map_task_list_del id l :
  NoDup (map task l) -> NoDup (map task (list_del id l)).
Proof.
  induction l as [|t l IH]; cbn; intros H; [constructor|].
  inversion H as [|? ? Hnotin Hnd]; subst.
  destruct (negb (has_task id t)); cbn; auto.
  constructor; auto.
  intros Hin. apply in_map_task_list_del in Hin. now destruct Hin.
Qed.

Lemma lookup_update id f l t :
  (forall x, task (f x) = task x) ->
  lookup id l = Some t -> lookup id (update id f l) = Some (f t).
Proof.
  intros Hf. unfold lookup, update.
  induction l as [|x l IH]; cbn; [discriminate|].
  assert (Hg : has_task id (if has_task id x then f x else x)
               = has_task id x).
  { destruct (has_task id x) eqn:E; [|exact E].
    unfold has_task in *. now rewrite Hf. }
  rewrite Hg. destruct (has_task id x) eqn:E.
  - intros H. inversion H; subst. reflexivity.
  - exact IH.
Qed.

Lemma lookup_update_other id id' f l :
  id <> id' -> (forall x, task (f x) = task x) ->
  lookup id (update id' f l) = lookup id l.
Proof.
  intros Hne Hf. unfold lookup, update.
  induction l as [|x l IH]; cbn; [reflexivity|].
  assert (Hg : has_task id (if has_task id' x then f x else x)
               = has_task id x).
  { destruct (has_task id' x); [|reflexivity].
    unfold has_task. now rewrite Hf. }
  rewrite Hg. destruct (has_task id x) eqn:E; [|exact IH].
  unfold has_task in *. apply Nat.eqb_eq in E.
  destruct (Nat.eqb_spec (task x) id'); [congruence | reflexivity].
Qed.

Lemma lookup_list_del_other id id' l :
  id <> id' -> lookup id (list_del id' l) = lookup id l.
Proof.
  intros Hne. unfold lookup, list_del.
  induction l as [|x l IH]; cbn; [reflexivity|].
  destruct (has_task id' x) eqn:E; cbn [negb].
  - rewrite IH. unfold has_task in *. apply Nat.eqb_eq in E.
    destruct (Nat.eqb_spec (task x) id); [congruence | reflexivity].
  - cbn. destruct (has_task id x); [reflexivity | exact IH].
Qed.

Lemma lookup_none id l :
  ~ In id (map task l) -> lookup id l = None.
Proof.
  intros Hn. unfold lookup.
  destruct (find (has_task id) l) as [t|] eqn:E; [|reflexivity].
  apply find_some in E. destruct E as (Hin & Hid).
  unfold has_task in Hid. apply Nat.eqb_eq in Hid.
  exfalso. apply Hn. rewrite <- Hid. now apply in_map.
Qed.

(** *** Counting calls *)

Lemma calls_for_cons id c log :
  calls_for id (c :: log)
  = ((if Nat.eqb (cb_task c) id then 1 else 0) + calls_for id log)%nat.
Proof.
  unfold calls_for. cbn. destruct (Nat.eqb (cb_task c) id); reflexivity.
Qed.

Lemma calls_for_other id c log :
  cb_task c <> id -> calls_for id (c :: log) = calls_for id log.
Proof.
  intros H. rewrite calls_for_cons.
  destruct (Nat.eqb_spec (cb_task c) id); [contradiction | reflexivity].
Qed.

Lemma calls_for_same id c log :
  cb_task c = id -> calls_for id (c :: log) = S (calls_for id log).
Proof.
  intros H. rewrite calls_for_cons.
  destruct (Nat.eqb_spec (cb_task c) id); [reflexivity | contradiction].
Qed.

Lemma calls_for_none id log :
  (forall c, In c log -> cb_task c <> id) -> calls_for id log = 0%nat.
Proof.
  induction log as [|c log IH]; intros H; [reflexivity|].
  rewrite calls_for_other by (apply H; now left).
  apply IH. intros c' Hc'. apply H. now right.
Qed.

(** *** The invariant is kept by every step *)

Lemma thread_ok_weaken next stop cb log next' stop' log' t :
  thread_ok next stop cb log t ->
  (next <= next')%nat ->
  (stop = true -> stop' = true) ->
  calls_for (task t) log' = calls_for (task t) log ->
  (forall c, In c log' -> cb_task c = task t -> In c log) ->
  thread_ok next' stop' cb log' t.
Proof.
  intros (Hid & Hpc & Hstop & Hcalls & Hby) Hnext Hs Hlog Hin.
  repeat split; auto; try lia; try congruence.
Qed.

Lemma invariant_init cb : invariant (gcip_ikf_awaiter_init cb).
Proof.
  unfold invariant, gcip_ikf_awaiter_init. cbn.
  repeat split; try constructor; try (intros; lia); try contradiction;
    try discriminate; try congruence.
Qed.

Lemma invariant_wait aw f timeout d ok err :
  invariant aw ->
  invariant (snd (gcip_ikf_wait_timeout aw f timeout d ok err)).
Proof.
  intros Hinv. unfold gcip_ikf_wait_timeout.
  destruct f as [f|]; [|exact Hinv].
  destruct ok; cbn [negb]; [|exact Hinv].
  destruct (err =? 0); cbn [negb]; [|exact Hinv].
  destruct (stop_threads aw) eqn:Hstop; [exact Hinv|].
  destruct Hinv as (Hth & Hnd & Hdone & Hfresh & Hstatus & Hflag & Hret).
  unfold invariant. cbn [snd threads stop_threads signaled_cb exit_at called
                         next_task].
  split; [|split; [|split; [|split; [|split; [|split]]]]].
  - apply Forall_app. split.
    + eapply Forall_impl; [|exact Hth]. intros t Ht.
      eapply thread_ok_weaken; eauto.
    + constructor; [|constructor].
      unfold thread_ok, expected_calls, delivered. cbn.
      rewrite Bool.andb_false_r.
      assert (Hnone : forall c, In c (called aw) -> cb_task c <> next_task aw).
      { intros c Hc. apply Hfresh in Hc. lia. }
      repeat split; auto; try discriminate.
      * now apply calls_for_none.
      * intros c Hc Heq. exfalso. now apply (Hnone c).
  - rewrite map_app. cbn.
    rewrite Forall_forall in Hth.
    assert (Hnew : ~ In (next_task aw) (map task (threads aw))).
    { intros Hin. apply in_map_iff in Hin. destruct Hin as (t & Ht & Hin).
      apply Hth in Hin. destruct Hin as (Hlt & _). lia. }
    clear - Hnd Hnew. induction (map task (threads aw)) as [|x l IH]; cbn.
    + constructor; [intros [] | constructor].
    + inversion Hnd; subst. constructor.
      * intros Hin. apply in_app_or in Hin. cbn in Hin, Hnew. intuition.
      * apply IH; auto. cbn in Hnew. intuition.
  - intros id Hid Hnotin. rewrite map_app in Hnotin. cbn in Hnotin.
    apply Hdone.
    + assert (id <> next_task aw).
      { intros ->. apply Hnotin. apply in_or_app. right. now left. }
      lia.
    + intros Hin. apply Hnotin. apply in_or_app. now left.
  - intros c Hc. apply Hfresh in Hc. lia.
  - exact Hstatus.
  - rewrite <- Hstop. exact Hflag.
  - intros Hr. exfalso.
    assert (stop_threads aw = true) by (apply Hflag; congruence).
    congruence.
Qed.

Lemma same_task_same_thread l t t' :
  NoDup (map task l) -> In t l -> In t' l -> task t = task t' -> t = t'.
Proof.
  induction l as [|x l IH]; cbn; intros Hnd Ht Ht' Heq; [contradiction|].
  inversion Hnd as [|? ? Hnotin Hnd']; subst.
  destruct Ht as [<-|Ht], Ht' as [<-|Ht']; auto.
  - exfalso. apply Hnotin. rewrite Heq. now apply in_map.
  - exfalso. apply Hnotin. rewrite <- Heq. now apply in_map.
Qed.

(** A step that rewrites one waiter and nothing else. *)
Lemma invariant_update aw id t f :
  invariant aw ->
  In t (threads aw) -> task t = id ->
  (forall x, task (f x) = task x) ->
  thread_ok (next_task aw) (stop_threads aw) (signaled_cb aw) (called aw)
            (f t) ->
  invariant (set_threads aw (update id f (threads aw))).
Proof.
  intros (Hth & Hnd & Hdone & Hfresh & Hstatus & Hflag & Hret)
         Hin Hid Hf Hok.
  unfold invariant.
  cbn [set_threads threads stop_threads signaled_cb exit_at called next_task].
  rewrite map_task_update by exact Hf.
  split; [|split; [|split; [|split; [|split; [|split]]]]]; auto.
  - eapply Forall_update; [exact Hth | |]; cbn beta.
    + intros t0 Hin0 Hid0 _.
      assert (t0 = t) as ->; [|exact Hok].
      eapply same_task_same_thread; eauto. congruence.
    + intros t0 _ _ Hok0. exact Hok0.
  - intros Hr. apply Hret in Hr. rewrite Hr in Hin. contradiction.
Qed.

(** The thread's own call of the callback. *)
Lemma invariant_thread_callback aw id t :
  invariant aw ->
  In t (threads aw) -> task t = id ->
  pc t = AtCallback -> signaled_cb aw = true ->
  invariant
    (add_call (set_threads aw (update id (set_pc AtOut) (threads aw)))
              {| cb_task := id; cb_fence := fence t;
                 cb_status := wait_status t; cb_data := data t;
                 cb_by := ByThread |}).
Proof.
  intros (Hth & Hnd & Hdone & Hfresh & Hstatus & Hflag & Hret)
         Hin Hid Hpc Hcb.
  assert (Hok : thread_ok (next_task aw) (stop_threads aw) (signaled_cb aw)
                          (called aw) t).
  { rewrite Forall_forall in Hth. now apply Hth. }
  destruct Hok as (Hlt & Hsig & Hss & Hcalls & Hby).
  rewrite Hpc in Hsig.
  unfold expected_calls, delivered in Hcalls. rewrite Hpc, Hsig, Hcb in Hcalls.
  cbn in Hcalls.
  unfold invariant.
  cbn [add_call set_threads threads stop_threads signaled_cb exit_at called
       next_task].
  rewrite map_task_update by reflexivity.
  split; [|split; [|split; [|split; [|split; [|split]]]]]; auto.
  - eapply Forall_update; [exact Hth | |]; cbn beta.
    + intros t0 Hin0 Hid0 _.
      assert (t0 = t) as -> by (eapply same_task_same_thread; eauto; congruence).
      unfold thread_ok, expected_calls, delivered. cbn.
      rewrite Hsig, Hcb. cbn.
      repeat split; auto; try discriminate.
      * rewrite calls_for_same by (cbn; congruence). now rewrite Hcalls.
      * intros c [<-|Hc] Ht; [reflexivity | now apply Hby].
    + intros t0 Hin0 Hid0 Hok0.
      eapply thread_ok_weaken; eauto.
      * apply calls_for_other. cbn. congruence.
      * intros c [<-|Hc] Ht; [cbn in Ht; congruence | exact Hc].
  - intros id' Hlt' Hnotin. specialize (Hdone id' Hlt' Hnotin).
    rewrite calls_for_other; [exact Hdone|].
    cbn. intros <-. apply Hnotin. rewrite <- Hid. now apply in_map.
  - intros c [<-|Hc]; [cbn; lia | now apply Hfresh].
  - intros c [<-|Hc]; [discriminate | now apply Hstatus].
  - intros Hr. apply Hret in Hr. rewrite Hr in Hin. contradiction.
Qed.

(** A waiter that releases itself: it has made its call. *)
Lemma invariant_list_del aw id t :
  invariant aw ->
  In t (threads aw) -> task t = id ->
  pc t = AtOut -> stop_threads aw = false ->
  invariant (set_threads aw (list_del id (threads aw))).
Proof.
  intros (Hth & Hnd & Hdone & Hfresh & Hstatus & Hflag & Hret)
         Hin Hid Hpc Hstop.
  assert (Hok : thread_ok (next_task aw) (stop_threads aw) (signaled_cb aw)
                          (called aw) t).
  { rewrite Forall_forall in Hth. now apply Hth. }
  destruct Hok as (Hlt & Hsig & Hss & Hcalls & Hby).
  rewrite Hpc in Hsig.
  assert (Hs : signaled t = true).
  { destruct (signaled t); [reflexivity|].
    specialize (Hsig eq_refl). apply Hss in Hsig. congruence. }
  unfold expected_calls, delivered in Hcalls. rewrite Hpc, Hs in Hcalls.
  rewrite Bool.andb_true_r in Hcalls.
  unfold invariant.
  cbn [set_threads threads stop_threads signaled_cb exit_at called next_task].
  split; [|split; [|split; [|split; [|split; [|split]]]]]; auto.
  - rewrite Forall_forall in *. intros x Hx.
    apply in_list_del in Hx. destruct Hx as (Hx & _). now apply Hth.
  - now apply NoDup_map_task_list_del.
  - intros id' Hlt' Hnotin.
    destruct (Nat.eq_dec id' id) as [->|Hne].
    + rewrite <- Hid. exact Hcalls.
    + apply Hdone; auto. intros Hin'. apply Hnotin.
      apply in_map_task_list_del. auto.
  - intros Hr. exfalso.
    assert (stop_threads aw = true) by (apply Hflag; congruence).
    congruence.
Qed.

Lemma invariant_thread aw id r aw' :
  invariant aw -> gcip_ikf_thread_func id r aw = Some aw' -> invariant aw'.
Proof.
  intros Hinv Hstep. unfold gcip_ikf_thread_func in Hstep.
  destruct (lookup id (threads aw)) as [t|] eqn:Hl; [|discriminate].
  apply lookup_some in Hl. destruct Hl as (Hin & Hid).
  assert (Hok : thread_ok (next_task aw) (stop_threads aw) (signaled_cb aw)
                          (called aw) t).
  { destruct Hinv as (Hth & _). rewrite Forall_forall in Hth. now apply Hth. }
  destruct Hok as (Hlt & Hsig & Hss & Hcalls & Hby).
  unfold expected_calls, delivered in Hcalls.
  destruct (pc t) eqn:Hpc.
  - inversion Hstep; subst aw'.
    apply invariant_update with (t := t); auto.
    unfold thread_ok, expected_calls, delivered. cbn.
    rewrite Hsig in *. cbn in Hcalls. rewrite Bool.andb_false_r in Hcalls.
    rewrite Bool.andb_false_r. repeat split; auto; try congruence.
  - destruct (should_stop t) eqn:Hshould; inversion Hstep; subst aw';
      apply invariant_update with (t := t); auto;
      unfold thread_ok, expected_calls, delivered; cbn;
      rewrite Hsig in *; cbn in Hcalls; rewrite Bool.andb_false_r in *;
      repeat split; auto; try congruence.
  - inversion Hstep; subst aw'.
    apply invariant_update with (t := t); auto.
    unfold thread_ok, expected_calls, delivered. cbn.
    rewrite Hsig in *. cbn in Hcalls. rewrite Bool.andb_false_r in *.
    repeat split; auto; try congruence.
  - destruct (signaled_cb aw) eqn:Hcb; inversion Hstep; subst aw'.
    + apply invariant_thread_callback; auto.
    + apply invariant_update with (t := t); auto.
      unfold thread_ok, expected_calls, delivered. cbn.
      rewrite Hcb in *. cbn in *. repeat split; auto; try congruence.
  - destruct (stop_threads aw) eqn:Hstop; cbn in Hstep;
      inversion Hstep; subst aw'.
    + apply invariant_update with (t := t); auto.
      unfold thread_ok, expected_calls, delivered. cbn.
      rewrite Hstop. repeat split; auto; try congruence.
    + apply invariant_list_del with (t := t); auto.
  - discriminate.
Qed.

Lemma invariant_exit aw aw' :
  invariant aw -> gcip_ikf_awaiter_exit aw = Some aw' -> invariant aw'.
Proof.
  intros (Hth & Hnd & Hdone & Hfresh & Hstatus & Hflag & Hret) Hstep.
  unfold gcip_ikf_awaiter_exit in Hstep.
  destruct (exit_at aw) eqn:Hat.
  - (* stop_threads is set *)
    inversion Hstep; subst aw'. unfold invariant. cbn.
    split; [|split; [|split; [|split; [|split; [|split]]]]]; auto.
    + eapply Forall_impl; [|exact Hth]. intros t Ht.
      eapply thread_ok_weaken; eauto.
    + split; [discriminate | reflexivity].
    + discriminate.
  - assert (Hstop : stop_threads aw = true) by (apply Hflag; congruence).
    destruct (threads aw) as [|cur rest] eqn:Hl.
    + (* nothing left: return *)
      inversion Hstep; subst aw'. unfold invariant. cbn. rewrite Hl.
      split; [|split; [|split; [|split; [|split; [|split]]]]]; auto.
      split; [discriminate | intros _; exact Hstop].
    + (* kthread_stop(cur->task): the stop flag of cur is set *)
      inversion Hstep; subst aw'. unfold invariant. cbn.
      inversion Hth as [|? ? Hcur Hrest]; subst.
      split; [|split; [|split; [|split; [|split; [|split]]]]]; auto.
      * constructor; [|exact Hrest].
        destruct Hcur as (Hlt & Hsig & Hss & Hcalls & Hby).
        unfold thread_ok, expected_calls, delivered in *. cbn.
        repeat split; auto. destruct (pc cur); auto.
      * split; [discriminate | intros _; exact Hstop].
      * discriminate.
  - assert (Hstop : stop_threads aw = true) by (apply Hflag; congruence).
    destruct (threads aw) as [|cur rest] eqn:Hl; [discriminate|].
    destruct (pc cur) eqn:Hpc; try discriminate.
    (* kthread_stop returned: cur has exited *)
    inversion Hth as [|? ? Hcur Hrest]; subst.
    inversion Hnd as [|? ? Hnotin Hnd']; subst.
    destruct Hcur as (Hlt & Hsig & Hss & Hcalls & Hby).
    unfold expected_calls, delivered in Hcalls. rewrite Hpc in Hcalls, Hsig.
    rewrite Bool.andb_true_r in Hcalls.
    assert (Hrest_in : forall t, In t rest -> task t <> task cur).
    { intros t Ht Heq. apply Hnotin. rewrite <- Heq. now apply in_map. }
    destruct (signaled cur) eqn:Hs; cbn [negb andb] in Hstep.
    + (* cur made its call itself *)
      inversion Hstep; subst aw'. unfold invariant. cbn.
      split; [|split; [|split; [|split; [|split; [|split]]]]]; auto.
      * intros id Hid Hn. destruct (Nat.eq_dec id (task cur)) as [->|Hne].
        -- rewrite Hcalls. now rewrite Bool.andb_true_r.
        -- apply Hdone; auto. cbn. intros [Heq|Hin]; auto.
      * split; [discriminate | intros _; exact Hstop].
      * discriminate.
    + (* cur never wrote signaled: the sweep calls back with -ERESTARTSYS *)
      rewrite Bool.andb_false_r in Hcalls.
      destruct (signaled_cb aw) eqn:Hcb; inversion Hstep; subst aw';
        unfold invariant; cbn; rewrite ?Hcb.
      * split; [|split; [|split; [|split; [|split; [|split]]]]]; auto.
        -- rewrite Forall_forall in *. intros t Ht.
           eapply thread_ok_weaken; [apply Hrest, Ht | lia | auto | |].
           ++ apply calls_for_other. cbn. intros Heq. now apply (Hrest_in t).
           ++ intros c [<-|Hc] Heq; [cbn in Heq|exact Hc].
              exfalso. now apply (Hrest_in t).
        -- intros id Hid Hn.
           destruct (Nat.eq_dec id (task cur)) as [->|Hne].
           ++ rewrite calls_for_same by reflexivity. now rewrite Hcalls.
           ++ rewrite calls_for_other by (cbn; congruence).
              apply Hdone; auto. cbn. intros [Heq|Hin]; auto.
        -- intros c [<-|Hc]; [cbn; lia | now apply Hfresh].
        -- intros c [<-|Hc] Hb; [reflexivity | now apply Hstatus].
        -- split; [discriminate | intros _; exact Hstop].
        -- discriminate.
      * split; [|split; [|split; [|split; [|split; [|split]]]]]; auto.
        -- intros id Hid Hn.
           destruct (Nat.eq_dec id (task cur)) as [->|Hne].
           ++ exact Hcalls.
           ++ apply Hdone; auto. cbn. intros [Heq|Hin]; auto.
        -- split; [discriminate | intros _; exact Hstop].
        -- discriminate.
  - discriminate.
Qed.

Lemma invariant_step e aw aw' :
  invariant aw -> step e aw = Some aw' -> invariant aw'.
Proof.
  destruct e as [f timeout d ok err|id r|]; cbn; intros Hinv Hstep.
  - inversion Hstep; subst. now apply invariant_wait.
  - eapply invariant_thread; eauto.
  - eapply invariant_exit; eauto.
Qed.

Lemma invariant_run es aw aw' :
  invariant aw -> run es aw = Some aw' -> invariant aw'.
Proof.
  revert aw. induction es as [|e es IH]; cbn; intros aw Hinv Hrun.
  - inversion Hrun; subst. exact Hinv.
  - destruct (step e aw) as [aw1|] eqn:Hstep; [|discriminate].
    eapply IH; [|exact Hrun]. eapply invariant_step; eauto.
Qed.

Lemma reachable_invariant aw : reachable aw -> invariant aw.
Proof.
  intros (cb & es & Hrun). eapply invariant_run; [|exact Hrun].
  apply invariant_init.
Qed.

(** *** What the steps leave alone *)

Lemma step_keeps_callback e aw aw' :
  step e aw = Some aw' ->
  signaled_cb aw' = signaled_cb aw /\ (next_task aw <= next_task aw')%nat.
Proof.
  destruct e as [f timeout d ok err|id r|]; cbn.
  - intros H. inversion H; subst. unfold gcip_ikf_wait_timeout.
    destruct f; [|split; auto].
    destruct ok; cbn; [|split; auto].
    destruct (err =? 0); cbn; [|split; auto].
    destruct (stop_threads aw); cbn; split; auto.
  - unfold gcip_ikf_thread_func.
    destruct (lookup id (threads aw)) as [t|]; [|discriminate].
    destruct (pc t); try discriminate;
      try (intros H; inversion H; subst; cbn; split; auto; fail).
    + destruct (should_stop t); intros H; inversion H; subst; cbn; split; auto.
    + destruct (signaled_cb aw) eqn:E; intros H; inversion H; subst; cbn;
        split; auto.
    + destruct (stop_threads aw); intros H; inversion H; subst; cbn;
        split; auto.
  - unfold gcip_ikf_awaiter_exit.
    destruct (exit_at aw); try discriminate.
    + intros H; inversion H; subst; cbn; split; auto.
    + destruct (threads aw); intros H; inversion H; subst; cbn; split; auto.
    + destruct (threads aw) as [|cur rest]; [discriminate|].
      destruct (pc cur); try discriminate.
      destruct (negb (signaled cur) && signaled_cb aw);
        intros H; inversion H; subst; cbn; split; auto.
Qed.

Lemma run_keeps_callback es aw aw' :
  run es aw = Some aw' ->
  signaled_cb aw' = signaled_cb aw /\ (next_task aw <= next_task aw')%nat.
Proof.
  revert aw. induction es as [|e es IH]; cbn; intros aw H.
  - inversion H; subst. split; auto.
  - destruct (step e aw) as [aw1|] eqn:Hstep; [|discriminate].
    apply step_keeps_callback in Hstep. apply IH in H.
    destruct Hstep, H. split; [congruence | lia].
Qed.

Lemma run_app es1 es2 aw :
  run (es1 ++ es2) aw
  = match run es1 aw with Some aw1 => run es2 aw1 | None => None end.
Proof.
  revert aw. induction es1 as [|e es1 IH]; cbn; intros aw; [reflexivity|].
  destruct (step e aw); [apply IH | reflexivity].
Qed.

Lemma wait_refused_after_stop aw f timeout d ok err :
  stop_threads aw = true ->
  fst (gcip_ikf_wait_timeout aw f timeout d ok err) <> 0 /\
  snd (gcip_ikf_wait_timeout aw f timeout d ok err) = aw.
Proof.
  intros Hstop. unfold gcip_ikf_wait_timeout.
  destruct f; [|split; [discriminate | reflexivity]].
  destruct ok; cbn; [|split; [discriminate | reflexivity]].
  destruct (Z.eqb_spec err 0); cbn; [|split; [assumption | reflexivity]].
  rewrite Hstop. split; [discriminate | reflexivity].
Qed.

Lemma lookup_in l t :
  NoDup (map task l) -> In t l -> lookup (task t) l = Some t.
Proof.
  intros Hnd Hin. unfold lookup.
  destruct (find (has_task (task t)) l) as [t'|] eqn:Hf.
  - apply find_some in Hf. destruct Hf as (Hin' & Hid).
    unfold has_task in Hid. apply Nat.eqb_eq in Hid.
    f_equal. eapply same_task_same_thread; eauto.
  - exfalso. eapply find_none in Hf; [|exact Hin].
    unfold has_task in Hf. now rewrite Nat.eqb_refl in Hf.
Qed.

(** *** Exit can always run to its return *)

Lemma reachable_step e aw aw' :
  reachable aw -> step e aw = Some aw' -> reachable aw'.
Proof.
  intros (cb & es & Hrun) Hstep. exists cb, (es ++ [e]).
  rewrite run_app, Hrun. cbn. now rewrite Hstep.
Qed.

Lemma stopping_has_head aw :
  reachable aw -> exit_at aw = Stopping -> threads aw <> [].
Proof.
  intros (cb & es & Hrun). revert aw Hrun.
  induction es as [|e es IH] using rev_ind; intros aw Hrun.
  - inversion Hrun; subst. discriminate.
  - rewrite run_app in Hrun.
    destruct (run es (gcip_ikf_awaiter_init cb)) as [aw1|] eqn:H1;
      [|discriminate].
    specialize (IH aw1 eq_refl).
    assert (Hinv : invariant aw1).
    { apply reachable_invariant. now exists cb, es. }
    destruct Hinv as (_ & _ & _ & _ & _ & Hflag & _).
    cbn in Hrun. destruct (step e aw1) as [aw2|] eqn:Hstep; [|discriminate].
    inversion Hrun; subst aw2. clear Hrun.
    destruct e as [f timeout d ok err|id r|]; cbn in Hstep.
    + inversion Hstep; subst aw. unfold gcip_ikf_wait_timeout.
      destruct f; auto. destruct ok; cbn; auto.
      destruct (err =? 0); cbn; auto.
      destruct (stop_threads aw1); cbn; auto.
      intros _ Happ. now apply app_eq_nil in Happ as (_ & Hnil).
    + unfold gcip_ikf_thread_func in Hstep.
      destruct (lookup id (threads aw1)) as [t|] eqn:Hl; [|discriminate].
      apply lookup_some in Hl. destruct Hl as (Hin & _).
      assert (Hupd : forall f, exit_at aw1 = Stopping ->
                               update id f (threads aw1) <> []).
      { intros f Hs Hnil. apply IH in Hs. apply Hs.
        unfold update in Hnil. now apply map_eq_nil in Hnil. }
      destruct (pc t); try discriminate;
        try (inversion Hstep; subst aw; cbn; now apply Hupd).
      * destruct (should_stop t); inversion Hstep; subst aw; cbn;
          now apply Hupd.
      * destruct (signaled_cb aw1); inversion Hstep; subst aw; cbn;
          now apply Hupd.
      * destruct (stop_threads aw1) eqn:Hstop; cbn in Hstep;
          inversion Hstep; subst aw; cbn; [now apply Hupd|].
        intros Hs. exfalso.
        assert (false = true) by (apply Hflag; congruence).
        discriminate.
    + unfold gcip_ikf_awaiter_exit in Hstep.
      destruct (exit_at aw1) eqn:Hat; try discriminate.
      * inversion Hstep; subst aw. discriminate.
      * destruct (threads aw1); inversion Hstep; subst aw; cbn;
          discriminate.
      * destruct (threads aw1) as [|cur rest]; [discriminate|].
        destruct (pc cur); try discriminate.
        destruct (negb (signaled cur) && signaled_cb aw1);
          inversion Hstep; subst aw; cbn; discriminate.
Qed.

Lemma update_miss id f l :
  ~ In id (map task l) -> update id f l = l.
Proof.
  induction l as [|x l IH]; cbn; intros Hn; [reflexivity|].
  unfold has_task at 1.
  destruct (Nat.eqb_spec (task x) id) as [Hx|Hx]; [exfalso; auto|].
  f_equal. apply IH. auto.
Qed.

Lemma work_cons cur rest :
  work (cur :: rest) = (thread_work cur + work rest)%nat.
Proof. reflexivity. Qed.

Lemma work_update_head cur rest f :
  NoDup (map task (cur :: rest)) ->
  work (update (task cur) f (cur :: rest))
  = (thread_work (f cur) + work rest)%nat.
Proof.
  intros Hnd. inversion Hnd as [|? ? Hnotin _]; subst.
  change (update (task cur) f (cur :: rest))
    with ((if has_task (task cur) cur then f cur else cur)
            :: update (task cur) f rest).
  unfold has_task at 1. rewrite Nat.eqb_refl.
  rewrite update_miss by assumption. apply work_cons.
Qed.

(** The step [next_event] picks is enabled and brings the return closer. *)
Lemma next_event_progress aw :
  reachable aw -> exit_at aw <> Returned ->
  exists aw', step (next_event aw) aw = Some aw' /\
              (exit_work aw' < exit_work aw)%nat.
Proof.
  intros Hreach Hnot.
  pose proof (reachable_invariant _ Hreach)
    as (Hth & Hnd & _ & _ & _ & Hflag & _).
  pose proof (stopping_has_head _ Hreach) as Hhead.
  unfold next_event, exit_work.
  destruct (exit_at aw) eqn:Hat; try contradiction.
  - eexists. cbn. unfold gcip_ikf_awaiter_exit. rewrite Hat.
    split; [reflexivity|]. cbn. lia.
  - destruct (threads aw) as [|cur rest] eqn:Hl;
      (eexists; cbn; unfold gcip_ikf_awaiter_exit; rewrite Hat, Hl;
       split; [reflexivity|]; cbn; rewrite ?work_cons;
       unfold thread_work; cbn; lia).
  - destruct (threads aw) as [|cur rest] eqn:Hl;
      [exfalso; now apply Hhead|].
    assert (Hstop : stop_threads aw = true) by (apply Hflag; congruence).
    assert (Hlook : lookup (task cur) (threads aw) = Some cur).
    { rewrite Hl. unfold lookup. cbn. unfold has_task.
      now rewrite Nat.eqb_refl. }
    rewrite <- Hl in Hnd.
    destruct (pc cur) eqn:Hpc;
      try (cbn; unfold gcip_ikf_thread_func; rewrite Hlook, Hpc, ?Hstop;
           try destruct (should_stop cur); try destruct (signaled_cb aw);
           cbn [negb];
           eexists; (split; [reflexivity|]);
           cbn [exit_at set_threads add_call threads]; rewrite Hat, Hl;
           rewrite Hl in Hnd;
           rewrite work_update_head by assumption; rewrite work_cons;
           unfold thread_work;
           cbn [pc set_pc set_wait_status set_signaled]; rewrite Hpc;
           cbn; lia).
    cbn. unfold gcip_ikf_awaiter_exit. rewrite Hat, Hl, Hpc.
    destruct (negb (signaled cur) && signaled_cb aw);
      eexists; (split; [reflexivity|]); cbn; rewrite work_cons;
      unfold thread_work; rewrite Hpc; cbn; lia.
Qed.

(** From every reachable state in which exit has not returned there is a
    continuation, of thread and exit steps only, after which it has. *)
Lemma exit_can_return aw :
  reachable aw ->
  exists es aw', run es aw = Some aw' /\ exit_at aw' = Returned.
Proof.
  remember (exit_work aw) as n eqn:Hn. revert aw Hn.
  induction n as [n IH] using lt_wf_ind. intros aw Hn Hreach.
  destruct (exit_at aw) eqn:Hat;
    try (destruct (next_event_progress aw Hreach) as (aw1 & Hstep & Hlt);
         [congruence|];
         destruct (IH (exit_work aw1)) with (aw := aw1)
           as (es & aw' & Hrun & Hret);
         [lia | reflexivity | eapply reachable_step; eauto |];
         exists (next_event aw :: es), aw'; cbn; rewrite Hstep; auto; fail).
  exists [], aw. auto.
Qed.

(** *** Properties of the awaiter *)

Lemma calls_at_most_one aw id :
  invariant aw -> (calls_for id (called aw) <= 1)%nat.
Proof.
  intros (Hth & Hnd & Hdone & Hfresh & Hstatus & Hflag & Hret).
  destruct (in_dec Nat.eq_dec id (map task (threads aw))) as [Hin|Hnotin].
  - apply in_map_iff in Hin. destruct Hin as (t & <- & Hin).
    rewrite Forall_forall in Hth. apply Hth in Hin.
    destruct Hin as (_ & _ & _ & Hcalls & _). rewrite Hcalls.
    unfold expected_calls. destruct (signaled_cb aw && delivered t); lia.
  - destruct (Nat.lt_ge_cases id (next_task aw)) as [Hlt|Hge].
    + rewrite Hdone by assumption. destruct (signaled_cb aw); lia.
    + rewrite calls_for_none; [lia|].
      intros c Hc. apply Hfresh in Hc. lia.
Qed.

Lemma hits_one_waiter l id :
  NoDup (map task l) ->
  sum_over (fun t => if Nat.eqb id (task t) then 1 else 0)%nat l
  = if existsb (has_task id) l then 1%nat else 0%nat.
Proof.
  induction l as [|x l IH]; cbn [sum_over existsb map]; intros Hnd;
    [reflexivity|].
  inversion Hnd as [|? ? Hnotin Hnd']; subst.
  rewrite IH by assumption.
  change (has_task id x) with (Nat.eqb (task x) id).
  rewrite (Nat.eqb_sym (task x) id).
  destruct (Nat.eqb_spec id (task x)) as [->|Hne]; cbn; [|reflexivity].
  destruct (existsb (has_task (task x)) l) eqn:E; [|reflexivity].
  exfalso. apply existsb_exists in E. destruct E as (y & Hy & Hty).
  unfold has_task in Hty. apply Nat.eqb_eq in Hty.
  apply Hnotin. rewrite <- Hty. now apply in_map.
Qed.

Lemma calls_for_waiters_sum l log :
  NoDup (map task l) ->
  calls_for_waiters l log = sum_over (fun t => calls_for (task t) log) l.
Proof.
  intros Hnd. induction log as [|c log IH].
  - unfold calls_for_waiters, calls_for. cbn [filter length].
    clear Hnd. induction l as [|x l IHl]; cbn [sum_over];
      [reflexivity | now rewrite <- IHl].
  - assert (Hsplit :
      sum_over (fun t => calls_for (task t) (c :: log)) l
      = (sum_over (fun t => if Nat.eqb (cb_task c) (task t)
                            then 1 else 0) l
         + sum_over (fun t => calls_for (task t) log) l)%nat).
    { clear. induction l as [|x l IHl]; cbn [sum_over]; [reflexivity|].
      rewrite IHl, calls_for_cons. lia. }
    rewrite Hsplit, hits_one_waiter, <- IH by assumption.
    unfold calls_for_waiters. cbn.
    destruct (existsb (has_task (cb_task c)) l); reflexivity.
Qed.

Lemma sum_over_ones l f :
  (forall t, In t l -> f t = 1%nat) -> sum_over f l = length l.
Proof.
  induction l as [|x l IH]; cbn [sum_over length]; intros H; [reflexivity|].
  rewrite H by now left. rewrite IH; [reflexivity|].
  intros t Ht. apply H. now right.
Qed.

(** *** The call settled for a waiter *)

Lemma calls_of_cons id c log :
  calls_of id (c :: log)
  = if Nat.eqb (cb_task c) id then c :: calls_of id log else calls_of id log.
Proof. reflexivity. Qed.

Lemma calls_of_none id log :
  calls_for id log = 0%nat -> calls_of id log = [].
Proof. unfold calls_for, calls_of. apply length_zero_iff_nil. Qed.

Lemma cb_call_eq c f s d b :
  f = cb_fence c -> s = cb_status c -> d = cb_data c -> b = cb_by c ->
  {| cb_task := cb_task c; cb_fence := f; cb_status := s; cb_data := d;
     cb_by := b |} = c.
Proof. intros -> -> -> ->. destruct c; reflexivity. Qed.

(** [fate] reads four things of the state. *)
Lemma fate_frame c aw aw' :
  stop_threads aw' = stop_threads aw ->
  signaled_cb aw' = signaled_cb aw ->
  lookup (cb_task c) (threads aw') = lookup (cb_task c) (threads aw) ->
  calls_of (cb_task c) (called aw') = calls_of (cb_task c) (called aw) ->
  fate c aw -> fate c aw'.
Proof. unfold fate. intros -> -> -> ->. auto. Qed.

(** A step of another waiter's thread leaves them alone. *)
Lemma thread_func_frame id id' r aw aw' :
  gcip_ikf_thread_func id' r aw = Some aw' -> id <> id' ->
  stop_threads aw' = stop_threads aw /\
  signaled_cb aw' = signaled_cb aw /\
  lookup id (threads aw') = lookup id (threads aw) /\
  calls_of id (called aw') = calls_of id (called aw).
Proof.
  unfold gcip_ikf_thread_func. intros H Hne.
  destruct (lookup id' (threads aw)) as [t|]; [|discriminate].
  assert (Hcons : forall c, cb_task c = id' ->
            calls_of id (c :: called aw) = calls_of id (called aw)).
  { intros c Hc. rewrite calls_of_cons, Hc.
    destruct (Nat.eqb_spec id' id); [congruence | reflexivity]. }
  destruct (pc t);
    repeat match type of H with
           | context [if ?b then _ else _] => destruct b eqn:?
           end;
    inversion H; subst aw';
    cbn [set_threads add_call threads stop_threads signaled_cb called];
    repeat split;
    try (apply lookup_update_other; [exact Hne | reflexivity]);
    try (apply lookup_list_del_other; exact Hne);
    try (apply Hcons; reflexivity); try congruence.
Qed.

(** A step of the waiter's own thread. *)
Lemma fate_thread c r aw aw' :
  fate c aw -> gcip_ikf_thread_func (cb_task c) r aw = Some aw' ->
  fate c aw'.
Proof.
  unfold fate, gcip_ikf_thread_func. intros (Hstop & Hcb & Hf) H.
  destruct (lookup (cb_task c) (threads aw)) as [t|] eqn:Hl; [|discriminate].
  destruct Hf as (Hfence & Hdata & Hf).
  rewrite Hcb, Hstop in H. cbn [negb] in H.
  assert (Hup : forall f,
            (forall x, task (f x) = task x) ->
            lookup (cb_task c) (update (cb_task c) f (threads aw))
            = Some (f t)).
  { intros f Hf'. now apply lookup_update. }
  destruct (pc t) eqn:Hpc.
  - (* the wait returns *)
    inversion H; subst aw'.
    cbn [set_threads threads stop_threads signaled_cb called].
    rewrite Hup by reflexivity. cbn.
    split; [exact Hstop|]. split; [exact Hcb|].
    split; [exact Hfence|]. split; [exact Hdata|].
    destruct (cb_by c).
    + destruct Hf as [(E & _)|[(E & _)|([E|E] & _)]]; discriminate E.
    + destruct Hf as (Hs & Hss & Hsig & _ & _ & Hcalls).
      repeat split; auto; discriminate.
  - (* the stop test *)
    destruct (cb_by c) eqn:Hby.
    + destruct Hf as [(E & _)|[(E & _)|([E|E] & _)]]; discriminate E.
    + destruct Hf as (Hs & Hss & Hsig & _ & _ & Hcalls).
      rewrite Hss in H. inversion H; subst aw'.
      cbn [set_threads threads stop_threads signaled_cb called].
      rewrite Hup by reflexivity. cbn.
      repeat split; auto; discriminate.
  - (* the write of signaled *)
    inversion H; subst aw'.
    cbn [set_threads threads stop_threads signaled_cb called].
    rewrite Hup by reflexivity. cbn.
    split; [exact Hstop|]. split; [exact Hcb|].
    split; [exact Hfence|]. split; [exact Hdata|].
    destruct (cb_by c).
    + destruct Hf as [(_ & Hs & Hcalls)|[(E & _)|([E|E] & _)]];
        try discriminate E.
      right. left. repeat split; auto.
    + destruct Hf as (_ & _ & _ & E & _). now contradiction E.
  - (* the call *)
    inversion H; subst aw'.
    cbn [add_call set_threads threads stop_threads signaled_cb called].
    rewrite Hup by reflexivity. cbn.
    split; [exact Hstop|]. split; [exact Hcb|].
    split; [exact Hfence|]. split; [exact Hdata|].
    destruct (cb_by c) eqn:Hby.
    + destruct Hf as [(E & _)|[(_ & Hsig & Hs & Hcalls)|([E|E] & _)]];
        try discriminate E.
      right. right. split; [now left|]. split; [exact Hsig|].
      rewrite calls_of_cons. cbn [cb_task]. rewrite Nat.eqb_refl, Hcalls.
      f_equal. apply cb_call_eq; auto.
    + destruct Hf as (_ & _ & _ & _ & E & _). now contradiction E.
  - (* out: the waiter is not released, exit will do it *)
    inversion H; subst aw'.
    cbn [set_threads threads stop_threads signaled_cb called].
    rewrite Hup by reflexivity. cbn.
    split; [exact Hstop|]. split; [exact Hcb|].
    split; [exact Hfence|]. split; [exact Hdata|].
    destruct (cb_by c).
    + destruct Hf as [(E & _)|[(E & _)|(_ & Hsig & Hcalls)]];
        try discriminate E.
      right. right. split; [now right|]. split; auto.
    + destruct Hf as (Hs & Hss & Hsig & _ & _ & Hcalls).
      repeat split; auto; discriminate.
  - discriminate.
Qed.

(** A step of exit. *)
Lemma fate_exit c aw aw' :
  NoDup (map task (threads aw)) ->
  fate c aw -> gcip_ikf_awaiter_exit aw = Some aw' -> fate c aw'.
Proof.
  unfold gcip_ikf_awaiter_exit. intros Hnd Hf H.
  destruct (exit_at aw).
  - inversion H; subst aw'. destruct Hf as (_ & Hcb & Hf).
    unfold fate. cbn. auto.
  - destruct (threads aw) as [|cur rest] eqn:Hth.
    + inversion H; subst aw'.
      apply fate_frame with (aw := aw); cbn; auto.
    + inversion H; subst aw'. unfold fate in *.
      cbn [set_exit set_threads threads stop_threads signaled_cb called].
      rewrite Hth in Hf. unfold lookup in *. cbn [find] in *.
      change (has_task (cb_task c) (set_should_stop cur))
        with (has_task (cb_task c) cur).
      destruct (has_task (cb_task c) cur); [|exact Hf].
      destruct Hf as (Hstop & Hcb & Hfence & Hdata & Hf).
      cbn. repeat (split; [assumption|]).
      destruct (cb_by c); [exact Hf|].
      destruct Hf as (Hs & _ & Hrest). split; [exact Hs|].
      split; [reflexivity | exact Hrest].
  - destruct (threads aw) as [|cur rest] eqn:Hth; [discriminate|].
    destruct (pc cur) eqn:Hpc; try discriminate.
    cbn in Hnd. inversion Hnd as [|? ? Hnotin Hnd']; subst.
    unfold fate in Hf. rewrite Hth in Hf. unfold lookup in Hf.
    cbn [find] in Hf. destruct Hf as (Hstop & Hcb & Hf).
    destruct (has_task (cb_task c) cur) eqn:E.
    + (* exit looks at the waiter of [c] *)
      unfold has_task in E. apply Nat.eqb_eq in E.
      assert (Hgone : lookup (cb_task c) rest = None).
      { apply lookup_none. now rewrite <- E. }
      destruct Hf as (Hfence & Hdata & Hf).
      rewrite Hcb, Bool.andb_true_r in H.
      destruct (cb_by c) eqn:Hby.
      * destruct Hf as [(E' & _)|[(E' & _)|(_ & Hsig & Hcalls)]];
          try congruence.
        rewrite Hsig in H. cbn [negb] in H. inversion H; subst aw'.
        unfold fate.
        cbn [set_exit set_threads threads stop_threads signaled_cb called].
        rewrite Hgone. auto.
      * destruct Hf as (Hs & _ & Hsig & _ & _ & Hcalls).
        rewrite Hsig in H. cbn [negb] in H. inversion H; subst aw'.
        unfold fate.
        cbn [add_call set_exit set_threads threads stop_threads signaled_cb
             called].
        rewrite Hgone. split; [exact Hstop|]. split; [exact Hcb|].
        rewrite calls_of_cons. cbn [cb_task]. rewrite E, Nat.eqb_refl, Hcalls.
        f_equal. apply cb_call_eq; auto.
    + (* exit looks at another waiter *)
      assert (Hne : Nat.eqb (task cur) (cb_task c) = false) by exact E.
      destruct (negb (signaled cur) && signaled_cb aw);
        inversion H; subst aw'; unfold fate;
        cbn [add_call set_exit set_threads threads stop_threads signaled_cb
             called];
        rewrite ?calls_of_cons; cbn [cb_task]; rewrite ?Hne; auto.
  - discriminate.
Qed.

Lemma fate_step c e aw aw' :
  invariant aw -> fate c aw -> step e aw = Some aw' -> fate c aw'.
Proof.
  intros Hinv Hf. destruct e as [f timeout d ok err|id r|]; cbn; intros H.
  - inversion H; subst aw'.
    destruct (wait_refused_after_stop aw f timeout d ok err) as (_ & ->);
      [exact (proj1 Hf) | exact Hf].
  - destruct (Nat.eq_dec (cb_task c) id) as [<-|Hne].
    + eapply fate_thread; eauto.
    + destruct (thread_func_frame (cb_task c) id r aw aw' H Hne)
        as (H1 & H2 & H3 & H4).
      eapply fate_frame; eauto.
  - eapply fate_exit; eauto. apply Hinv.
Qed.

Lemma fate_run c es aw aw' :
  invariant aw -> fate c aw -> run es aw = Some aw' -> fate c aw'.
Proof.
  revert aw. induction es as [|e es IH]; cbn; intros aw Hinv Hf Hrun.
  - inversion Hrun; subst. exact Hf.
  - destruct (step e aw) as [aw1|] eqn:Hstep; [|discriminate].
    eapply IH; [| |exact Hrun].
    + eapply invariant_step; eauto.
    + eapply fate_step; eauto.
Qed.

(** A waiter that exit has stopped short of the write of [signaled] is
    settled for the canceled call. *)
Lemma fate_canceled aw t :
  invariant aw -> signaled_cb aw = true -> In t (threads aw) ->
  should_stop t = true -> signaled t = false -> pc t <> AtSignaled ->
  fate (canceled_call t) aw.
Proof.
  intros (Hth & Hnd & _) Hcb Hin Hss Hsig Hpc.
  rewrite Forall_forall in Hth.
  destruct (Hth t Hin) as (_ & Hpcs & Hstop & Hcalls & _).
  unfold fate. cbn [canceled_call cb_task cb_fence cb_data cb_by cb_status].
  rewrite (lookup_in _ _ Hnd Hin).
  split; [now apply Hstop|]. split; [exact Hcb|].
  repeat split; auto.
  - intros E. rewrite E in Hpcs. congruence.
  - apply calls_of_none. rewrite Hcalls.
    unfold expected_calls, delivered. rewrite Hsig.
    now rewrite Bool.andb_false_r.
Qed.

(** A waiter past the stop test is settled for the call of its thread. *)
Lemma fate_own aw t :
  invariant aw -> signaled_cb aw = true -> stop_threads aw = true ->
  In t (threads aw) -> pc t = AtSignaled \/ pc t = AtCallback ->
  fate (own_call t) aw.
Proof.
  intros (Hth & Hnd & _) Hcb Hstop Hin Hpc.
  rewrite Forall_forall in Hth.
  destruct (Hth t Hin) as (_ & Hpcs & _ & Hcalls & _).
  assert (Hnone : calls_of (task t) (called aw) = []).
  { apply calls_of_none. rewrite Hcalls.
    unfold expected_calls, delivered.
    destruct Hpc as [-> | ->]; now rewrite !Bool.andb_false_r. }
  unfold fate. cbn [own_call cb_task cb_fence cb_data cb_by cb_status].
  rewrite (lookup_in _ _ Hnd Hin).
  split; [exact Hstop|]. split; [exact Hcb|].
  split; [reflexivity|]. split; [reflexivity|].
  destruct Hpc as [E|E]; rewrite E in Hpcs; rewrite Hpcs.
  - left. auto.
  - right. left. auto.
Qed.

(** C1 as stated does not hold: both waiters are still waiting, their
    fences unsignaled, when exit is called; the wait of the second times
    out while exit is stopping the first, its thread passes the stop test
    and calls back with -ETIMEDOUT, and exit, finding [signaled] set, makes
    no call for it.  A waiter that never observed its fence signaled ends
    with a status other than canceled. *)
Lemma timed_out_waiter_not_canceled :
  option_map (fun aw => map pc (threads aw))
             (run two_timed_waits (gcip_ikf_awaiter_init true))
  = Some [AtWait; AtWait] /\
  option_map (fun aw => map signaled (threads aw))
             (run two_timed_waits (gcip_ikf_awaiter_init true))
  = Some [false; false] /\
  option_map exit_at
             (run (two_timed_waits ++ timeout_during_exit)
                  (gcip_ikf_awaiter_init true))
  = Some Returned /\
  option_map called
             (run (two_timed_waits ++ timeout_during_exit)
                  (gcip_ikf_awaiter_init true))
  = Some [{| cb_task := 0; cb_fence := 1; cb_status := - ERESTARTSYS;
             cb_data := 7; cb_by := ByExit |};
          {| cb_task := 1; cb_fence := 2; cb_status := - ETIMEDOUT;
             cb_data := 8; cb_by := ByThread |}] /\
  - ETIMEDOUT <> - ERESTARTSYS.
Proof. vm_compute. repeat split. discriminate. Qed.

(** C1, as the code has it: in every interleaving, once
    [gcip_ikf_awaiter_exit] called with the waits of [aw0] outstanding has
    returned, no waiter is left linked, [stop_threads] is set and
    [gcip_ikf_wait_timeout] fails without adding a waiter (with -EPERM when
    nothing else is wrong); [signaled_cb] has been called exactly once for
    each wait that was outstanding.  Every call made by exit carries
    -ERESTARTSYS, the canceled outcome.  Which call a waiter gets is
    settled when its thread meets the stop test: a waiter on which exit has
    called [kthread_stop] while it was short of the write of [signaled]
    (still in its wait, at the test, or gone to [out] by it) gets the
    canceled call of exit and no other; a waiter that is past the test
    gets the call of its own thread, with the result of its wait
    translated (0 to -ETIMEDOUT, MAX_SCHEDULE_TIMEOUT to 0), and none from
    exit, also when exit had been called before its wait returned. *)
Theorem awaiter_exit_cancels_outstanding :
  forall aw0 es aw,
    reachable aw0 ->
    signaled_cb aw0 = true ->
    exit_at aw0 = NotCalled ->
    run (Exit :: es) aw0 = Some aw ->
    exit_at aw = Returned ->
    threads aw = [] /\
    stop_threads aw = true /\
    (forall f timeout d ok err,
       fst (gcip_ikf_wait_timeout aw f timeout d ok err) <> 0 /\
       snd (gcip_ikf_wait_timeout aw f timeout d ok err) = aw) /\
    (forall f timeout d,
       fst (gcip_ikf_wait_timeout aw (Some f) timeout d true 0) = - EPERM) /\
    (forall t, In t (threads aw0) ->
       calls_for (task t) (called aw) = 1%nat) /\
    calls_for_waiters (threads aw0) (called aw) = length (threads aw0) /\
    (forall c, In c (called aw) ->
       cb_by c = ByThread \/
       (cb_by c = ByExit /\ cb_status c = - ERESTARTSYS /\
        outcome (cb_status c) = WaitCanceled)) /\
    (forall es1 es2 aw1 t,
       Exit :: es = es1 ++ es2 -> run es1 aw0 = Some aw1 ->
       In t (threads aw1) ->
       (should_stop t = true -> signaled t = false -> pc t <> AtSignaled ->
        calls_of (task t) (called aw) = [canceled_call t]) /\
       (stop_threads aw1 = true -> pc t = AtSignaled \/ pc t = AtCallback ->
        calls_of (task t) (called aw) = [own_call t])).
Proof.
  intros aw0 es aw Hreach Hcb Hnot Hrun Hret.
  pose proof (reachable_invariant _ Hreach) as Hinv0.
  pose proof (invariant_run _ _ _ Hinv0 Hrun) as Hinv.
  pose proof (run_keeps_callback _ _ _ Hrun) as (Hcb' & Hnext).
  assert (Hempty : threads aw = []) by (apply Hinv; exact Hret).
  assert (Hsettled : forall es1 es2 aw1 c,
            Exit :: es = es1 ++ es2 -> run es1 aw0 = Some aw1 ->
            invariant aw1 -> fate c aw1 ->
            calls_of (cb_task c) (called aw) = [c]).
  { intros es1 es2 aw1 c Hsplit Hrun1 Hinv1 Hfate.
    rewrite Hsplit, run_app, Hrun1 in Hrun.
    pose proof (fate_run _ _ _ _ Hinv1 Hfate Hrun) as (_ & _ & Hend).
    rewrite Hempty in Hend. exact Hend. }
  destruct Hinv0 as (Hth0 & Hnd0 & _).
  destruct Hinv as (Hth & Hnd & Hdone & Hfresh & Hstatus & Hflag & _).
  assert (Hstop : stop_threads aw = true) by (apply Hflag; congruence).
  split; [exact Hempty|]. split; [exact Hstop|].
  split; [intros; now apply wait_refused_after_stop|].
  split.
  { intros f timeout d. unfold gcip_ikf_wait_timeout. cbn.
    now rewrite Hstop. }
  assert (Hone : forall t, In t (threads aw0) ->
                           calls_for (task t) (called aw) = 1%nat).
  { intros t Hin. rewrite Forall_forall in Hth0. apply Hth0 in Hin.
    destruct Hin as (Hlt & _).
    rewrite Hdone; [now rewrite Hcb', Hcb | lia |].
    rewrite Hempty. intros []. }
  split; [exact Hone|].
  split; [rewrite calls_for_waiters_sum by assumption;
          now apply sum_over_ones|].
  split.
  - intros c Hc. destruct (cb_by c) eqn:Hby; [now left | right].
    specialize (Hstatus c Hc Hby). rewrite Hstatus.
    repeat split; reflexivity.
  - intros es1 es2 aw1 t Hsplit Hrun1 Hin.
    pose proof (invariant_run _ _ _ (reachable_invariant _ Hreach) Hrun1)
      as Hinv1.
    pose proof (run_keeps_callback _ _ _ Hrun1) as (Hcb1 & _).
    rewrite Hcb in Hcb1.
    split.
    + intros Hss Hsig Hpc.
      apply (Hsettled es1 es2 aw1 (canceled_call t) Hsplit Hrun1 Hinv1).
      now apply fate_canceled.
    + intros Hstop1 Hpc.
      apply (Hsettled es1 es2 aw1 (own_call t) Hsplit Hrun1 Hinv1).
      now apply fate_own.
Qed.

Lemma two_waits_reachable : reachable (state_after two_waits).
Proof. exists true, two_waits. vm_compute. reflexivity. Qed.

Lemma awaiter_exit_cancels_outstanding_witness :
  reachable (state_after two_waits) /\
  signaled_cb (state_after two_waits) = true /\
  exit_at (state_after two_waits) = NotCalled /\
  run two_waits_exit (state_after two_waits)
  = Some (state_after (two_waits ++ two_waits_exit)) /\
  exit_at (state_after (two_waits ++ two_waits_exit)) = Returned /\
  map task (threads (state_after two_waits)) = [0%nat; 1%nat] /\
  threads (state_after (two_waits ++ two_waits_exit)) = [] /\
  (forall t, In t (threads (state_after two_waits)) ->
     calls_for (task t) (called (state_after (two_waits ++ two_waits_exit)))
     = 1%nat) /\
  calls_of 1 (called (state_after (two_waits ++ two_waits_exit)))
  = [{| cb_task := 1; cb_fence := 2; cb_status := - ERESTARTSYS;
        cb_data := 8; cb_by := ByExit |}] /\
  calls_of 0 (called (state_after (two_waits ++ two_waits_exit)))
  = [{| cb_task := 0; cb_fence := 1; cb_status := 5;
        cb_data := 7; cb_by := ByThread |}].
Proof.
  assert (Hrun : run two_waits_exit (state_after two_waits)
                 = Some (state_after (two_waits ++ two_waits_exit)))
    by (vm_compute; reflexivity).
  assert (Hret : exit_at (state_after (two_waits ++ two_waits_exit)) = Returned)
    by (vm_compute; reflexivity).
  assert (Hcb : signaled_cb (state_after two_waits) = true)
    by (vm_compute; reflexivity).
  assert (Hat : exit_at (state_after two_waits) = NotCalled)
    by (vm_compute; reflexivity).
  split; [exact two_waits_reachable|].
  split; [exact Hcb|]. split; [exact Hat|].
  split; [exact Hrun|]. split; [exact Hret|].
  split; [vm_compute; reflexivity|].
  destruct (awaiter_exit_cancels_outstanding
              (state_after two_waits) (tl two_waits_exit)
              (state_after (two_waits ++ two_waits_exit))
              two_waits_reachable Hcb Hat Hrun Hret)
    as (Hempty & _ & _ & _ & Hcalls & _ & _ & Hsettled).
  split; [exact Hempty|]. split; [exact Hcalls|].
  split.
  - (* exit has called kthread_stop on the second waiter, still waiting *)
    assert (Hrun1 : run (firstn 8 two_waits_exit) (state_after two_waits)
                    = Some (state_after (two_waits ++ firstn 8 two_waits_exit)))
      by (vm_compute; reflexivity).
    destruct (Hsettled (firstn 8 two_waits_exit) (skipn 8 two_waits_exit)
                (state_after (two_waits ++ firstn 8 two_waits_exit))
                {| task := 1; fence := 2; timeout_jiffies := 100; data := 8;
                   signaled := false; pc := AtWait; wait_status := 100;
                   should_stop := true |}
                eq_refl Hrun1)
      as (Hcancel & _); [vm_compute; now left|].
    apply Hcancel; [reflexivity | reflexivity | discriminate].
  - (* the first waiter has passed the stop test after exit was called *)
    assert (Hrun1 : run (firstn 2 two_waits_exit) (state_after two_waits)
                    = Some (state_after (two_waits ++ firstn 2 two_waits_exit)))
      by (vm_compute; reflexivity).
    destruct (Hsettled (firstn 2 two_waits_exit) (skipn 2 two_waits_exit)
                (state_after (two_waits ++ firstn 2 two_waits_exit))
                {| task := 0; fence := 1; timeout_jiffies := 100; data := 7;
                   signaled := false; pc := AtSignaled; wait_status := 5;
                   should_stop := false |}
                eq_refl Hrun1)
      as (_ & Hown); [vm_compute; now left|].
    apply Hown; [vm_compute; reflexivity | now left].
Defined.

(** C6 as stated does not hold: in this interleaving [stop_threads] is
    already set when the waiter is about to write [signaled], and yet the
    callback is made by the waiter's own thread; exit's sweep, which comes
    later, makes none. *)
Lemma stop_threads_set_but_thread_delivers :
  option_map stop_threads (run race_prefix (gcip_ikf_awaiter_init true))
  = Some true /\
  option_map (fun aw => map pc (threads aw))
             (run race_prefix (gcip_ikf_awaiter_init true))
  = Some [AtSignaled] /\
  option_map (fun aw => map should_stop (threads aw))
             (run race_prefix (gcip_ikf_awaiter_init true))
  = Some [false] /\
  option_map exit_at
             (run (race_prefix ++ race_suffix) (gcip_ikf_awaiter_init true))
  = Some Returned /\
  option_map called
             (run (race_prefix ++ race_suffix) (gcip_ikf_awaiter_init true))
  = Some [{| cb_task := 0; cb_fence := 1; cb_status := 0; cb_data := 7;
             cb_by := ByThread |}].
Proof. vm_compute. repeat split. Qed.

(** C6, as the code has it: under every interleaving at most one call of
    [signaled_cb] is made for a waiter, and exactly one by the time the
    waiter has been released.  Who makes it is settled by the waiter's own
    stop flag, [kthread_should_stop()], at the test that precedes the
    write of [signaled]: with the flag clear the thread goes on to write
    [signaled] and call back, and every call made for a waiter that has
    written [signaled] is the thread's own; with the flag set the thread
    goes to [out] without a call, and a waiter found there or exited
    with [signaled] unset had its stop flag set and has no call yet, the
    sweep of exit making it with -ERESTARTSYS.  [stop_threads] takes no
    part in this (it decides who releases the waiter). *)
Theorem one_callback_per_waiter :
  forall aw,
    reachable aw ->
    (forall id, (calls_for id (called aw) <= 1)%nat) /\
    (forall id,
       signaled_cb aw = true -> (id < next_task aw)%nat ->
       ~ In id (map task (threads aw)) ->
       calls_for id (called aw) = 1%nat) /\
    (forall t, In t (threads aw) ->
       (pc t = AtCheck ->
        forall r, exists aw',
          gcip_ikf_thread_func (task t) r aw = Some aw' /\
          lookup (task t) (threads aw')
          = Some (set_pc (if should_stop t then AtOut else AtSignaled) t) /\
          called aw' = called aw) /\
       (pc t = AtSignaled ->
        forall r, exists aw',
          gcip_ikf_thread_func (task t) r aw = Some aw' /\
          option_map signaled (lookup (task t) (threads aw')) = Some true /\
          option_map pc (lookup (task t) (threads aw')) = Some AtCallback) /\
       (signaled t = true ->
        forall c, In c (called aw) -> cb_task c = task t ->
                  cb_by c = ByThread) /\
       (signaled t = false -> calls_for (task t) (called aw) = 0%nat) /\
       (pc t = AtOut \/ pc t = Exited -> signaled t = false ->
        should_stop t = true)) /\
    (forall c, In c (called aw) -> cb_by c = ByExit ->
       cb_status c = - ERESTARTSYS).
Proof.
  intros aw Hreach. pose proof (reachable_invariant _ Hreach) as Hinv.
  split; [intros id; now apply calls_at_most_one|].
  destruct Hinv as (Hth & Hnd & Hdone & Hfresh & Hstatus & Hflag & Hret).
  split.
  { intros id Hcb Hlt Hnotin. rewrite Hdone by assumption. now rewrite Hcb. }
  split; [|exact Hstatus].
  intros t Hin. pose proof (lookup_in _ _ Hnd Hin) as Hlook.
  rewrite Forall_forall in Hth.
  destruct (Hth t Hin) as (Hlt & Hsig & Hss & Hcalls & Hby).
  split; [|split; [|split; [|split]]].
  - intros Hpc r. unfold gcip_ikf_thread_func. rewrite Hlook, Hpc.
    destruct (should_stop t); eexists; (split; [reflexivity|]);
      cbn [set_threads threads called]; split; auto;
      now apply lookup_update.
  - intros Hpc r. unfold gcip_ikf_thread_func. rewrite Hlook, Hpc.
    eexists. split; [reflexivity|]. cbn [set_threads threads].
    erewrite lookup_update; [| reflexivity | exact Hlook].
    split; reflexivity.
  - intros _. exact Hby.
  - intros Hs. rewrite Hcalls. unfold expected_calls, delivered.
    rewrite Hs. now rewrite Bool.andb_false_r.
  - intros [Hpc|Hpc] Hs; rewrite Hpc in Hsig; auto.
Qed.

Lemma race_prefix_reachable : reachable (state_after race_prefix).
Proof. exists true, race_prefix. vm_compute. reflexivity. Qed.

Lemma one_callback_per_waiter_witness :
  reachable (state_after race_prefix) /\
  (forall id,
     (calls_for id (called (state_after race_prefix)) <= 1)%nat) /\
  (forall c, In c (called (state_after race_prefix)) -> cb_by c = ByExit ->
     cb_status c = - ERESTARTSYS).
Proof.
  split; [exact race_prefix_reachable|].
  destruct (one_callback_per_waiter (state_after race_prefix)
              race_prefix_reachable) as (Hone & _ & _ & Hexit).
  split; [exact Hone | exact Hexit].
Defined.

End Ikf.

(** ** The mapping tracker: lookup, unlink and clear ([edgetpu-mapping.c]) *)

Module Tracker.

Import Mapping.

(** [rb_first] ([lib/rbtree.c]): the node reached by following [rb_left]
    from the root, NULL for an empty tree. *)
Fixpoint rb_first (t : rb_node) : option edgetpu_mapping :=
  match t with
  | rb_null => None
  | rb_link rb_null this _ => Some this
  | rb_link l _ _ => rb_first l
  end.

(** [edgetpu_mapping_first_locked]. *)
Definition edgetpu_mapping_first_locked (mappings : edgetpu_mapping_root)
  : option edgetpu_mapping :=
  rb_first (rb mappings).

(** Two mappings are the same object. *)
Definition mapping_eqb (a b : edgetpu_mapping) : bool :=
  Nat.eqb (map_handle a) (map_handle b) &&
  (dev_addr a =? dev_addr b) && (map_size a =? map_size b) &&
  Bool.eqb (release a) (release b).

(** A sequence of nodes without (the first occurrence of) [node]. *)
Fixpoint remove_first (node : edgetpu_mapping) (l : list edgetpu_mapping)
  : list edgetpu_mapping :=
  match l with
  | [] => []
  | x :: tl => if mapping_eqb node x then tl else x :: remove_first node tl
  end.

(** The tracker counts its nodes, in a [size_t]. *)
Definition count_ok (mappings : edgetpu_mapping_root) : Prop :=
  count mappings = Z.of_nat (length (live mappings)) /\
  count mappings <= U64_MAX.

(** What every tracker of the driver satisfies: its tree is a search tree
    on the device addresses and its count is right. *)
Definition tracker_ok (mappings : edgetpu_mapping_root) : Prop :=
  rb_ordered (rb mappings) /\ count_ok mappings.

Section WithErase.

(** [rb_erase] is the kernel's removal with rebalancing ([lib/rbtree.c]):
    it unlinks the node it is given and keeps the other nodes in their
    in-order sequence. *)
Variable rb_erase : edgetpu_mapping -> rb_node -> rb_node.
Hypothesis rb_erase_inorder :
  forall node t, rb_inorder (rb_erase node t) = remove_first node (rb_inorder t).

(** [edgetpu_mapping_unlink]: [count] is a [size_t]. *)
Definition edgetpu_mapping_unlink
  (mappings : edgetpu_mapping_root) (map : edgetpu_mapping)
  : edgetpu_mapping_root :=
  {| rb := rb_erase map (rb mappings);
     count := wrap64 (count mappings - 1) |}.

(** The [for] loop of [edgetpu_mapping_clear]: while the tracker has a first
    mapping, unlink it and call its [release].  The answer is the tracker
    left behind and the mappings released, in the order of the calls;
    [None] when [fuel] iterations were not enough. *)
Fixpoint clear_loop (fuel : nat) (mappings : edgetpu_mapping_root)
  : option (edgetpu_mapping_root * list edgetpu_mapping) :=
  match edgetpu_mapping_first_locked mappings with
  | None => Some (mappings, [])
  | Some map =>
      match fuel with
      | O => None
      | S fuel' =>
          match clear_loop fuel' (edgetpu_mapping_unlink mappings map) with
          | Some (rest, released) => Some (rest, map :: released)
          | None => None
          end
      end
  end.

Definition edgetpu_mapping_clear (fuel : nat) (mappings : edgetpu_mapping_root)
  : option (edgetpu_mapping_root * list edgetpu_mapping) :=
  clear_loop fuel mappings.

End WithErase.

(** The subtree [r] hung below the rightmost node of [l]. *)
Fixpoint graft (l r : rb_node) : rb_node :=
  match l with
  | rb_null => r
  | rb_link a x b => rb_link a x (graft b r)
  end.

(** An erase without rebalancing: the node is looked for in walk order and
    its right subtree takes its place below its left one. *)
Fixpoint erase_unbalanced (node : edgetpu_mapping) (t : rb_node) : rb_node :=
  match t with
  | rb_null => rb_null
  | rb_link l this r =>
      if existsb (mapping_eqb node) (rb_inorder l)
      then rb_link (erase_unbalanced node l) this r
      else if mapping_eqb node this then graft l r
      else rb_link l this (erase_unbalanced node r)
  end.

(** *** Properties of lookup, unlink and clear *)

Lemma mapping_eqb_eq a b : mapping_eqb a b = true <-> a = b.
Proof.
  unfold mapping_eqb, dev_addr, map_size.
  destruct a as [ha [aa sa] ra], b as [hb [ab sb] rb0]; cbn.
  rewrite !andb_true_iff, Nat.eqb_eq, !Z.eqb_eq, Bool.eqb_true_iff.
  split.
  - intros [[[-> ->] ->] ->]. reflexivity.
  - intros H. inversion H. auto.
Qed.

Lemma mapping_eqb_refl a : mapping_eqb a a = true.
Proof. now apply mapping_eqb_eq. Qed.

Lemma existsb_mapping_eqb node l :
  existsb (mapping_eqb node) l = true <-> In node l.
Proof.
  rewrite existsb_exists. split.
  - intros (x & Hin & Heq). apply mapping_eqb_eq in Heq. now subst.
  - intros Hin. exists node. split; [exact Hin | apply mapping_eqb_refl].
Qed.

Lemma remove_first_app node l1 l2 :
  remove_first node (l1 ++ l2)
  = if existsb (mapping_eqb node) l1 then remove_first node l1 ++ l2
    else l1 ++ remove_first node l2.
Proof.
  induction l1 as [|x l1 IH]; [reflexivity|].
  cbn [app remove_first existsb].
  destruct (mapping_eqb node x); [reflexivity|].
  cbn [orb]. rewrite IH.
  now destruct (existsb (mapping_eqb node) l1).
Qed.

Lemma remove_first_absent node l :
  ~ In node l -> remove_first node l = l.
Proof.
  induction l as [|x l IH]; [reflexivity|].
  intros Hnot. cbn [remove_first].
  destruct (mapping_eqb node x) eqn:E.
  - apply mapping_eqb_eq in E. subst. exfalso. apply Hnot. now left.
  - f_equal. apply IH. intros Hin. apply Hnot. now right.
Qed.

Lemma remove_first_middle node l1 l2 :
  ~ In node l1 -> remove_first node (l1 ++ node :: l2) = l1 ++ l2.
Proof.
  intros Hnot. rewrite remove_first_app.
  destruct (existsb (mapping_eqb node) l1) eqn:E.
  - apply existsb_mapping_eqb in E. contradiction.
  - cbn [remove_first]. now rewrite mapping_eqb_refl.
Qed.

Lemma remove_first_length node l :
  In node l -> S (length (remove_first node l)) = length l.
Proof.
  induction l as [|x l IH]; [intros []|].
  intros Hin. cbn [remove_first].
  destruct (mapping_eqb node x) eqn:E; [reflexivity|].
  cbn [length]. f_equal. apply IH.
  destruct Hin as [->|Hin]; [|exact Hin].
  now rewrite mapping_eqb_refl in E.
Qed.

Lemma graft_inorder l r :
  rb_inorder (graft l r) = rb_inorder l ++ rb_inorder r.
Proof.
  induction l as [|a _ x b IHb]; [reflexivity|].
  cbn [graft rb_inorder]. rewrite IHb, <- app_assoc. reflexivity.
Qed.

(** The erase without rebalancing is an instance of what is assumed of
    [rb_erase]. *)
Lemma erase_unbalanced_inorder node t :
  rb_inorder (erase_unbalanced node t) = remove_first node (rb_inorder t).
Proof.
  induction t as [|l IHl this r IHr]; [reflexivity|].
  cbn [erase_unbalanced rb_inorder].
  rewrite remove_first_app.
  destruct (existsb (mapping_eqb node) (rb_inorder l)).
  - cbn [rb_inorder]. now rewrite IHl.
  - cbn [remove_first]. destruct (mapping_eqb node this).
    + apply graft_inorder.
    + cbn [rb_inorder]. now rewrite IHr.
Qed.

(** The leftmost node is the first node of the in-order walk. *)
Lemma rb_first_inorder t : rb_first t = hd_error (rb_inorder t).
Proof.
  induction t as [|l IHl this r _]; [reflexivity|].
  destruct l as [|a x b]; [reflexivity|].
  change (rb_first (rb_link (rb_link a x b) this r))
    with (rb_first (rb_link a x b)).
  rewrite IHl. cbn [rb_inorder].
  destruct (rb_inorder a ++ x :: rb_inorder b) eqn:E; [|reflexivity].
  destruct (rb_inorder a); discriminate.
Qed.

Lemma find_locked_sound t iova m :
  edgetpu_mapping_find_locked t iova = Some m ->
  In m (rb_inorder t) /\ dev_addr m = iova.
Proof.
  induction t as [|l IHl this r IHr]; [discriminate|].
  cbn [edgetpu_mapping_find_locked rb_inorder].
  destruct (compare_cases this iova) as [[-> H]|[[-> H]|[-> H]]]; cbn.
  - intros Hf. destruct (IHr Hf) as [Hin Ha].
    split; [apply in_or_app; right; now right | exact Ha].
  - intros Hf. inversion Hf; subst.
    split; [apply in_or_app; right; now left | reflexivity].
  - intros Hf. destruct (IHl Hf) as [Hin Ha].
    split; [apply in_or_app; now left | exact Ha].
Qed.

Lemma find_locked_complete t iova m :
  rb_ordered t -> In m (rb_inorder t) -> dev_addr m = iova ->
  edgetpu_mapping_find_locked t iova = Some m.
Proof.
  induction t as [|l IHl this r IHr]; [intros _ []|].
  intros Hord Hin Ha.
  apply rb_ordered_link in Hord. destruct Hord as (Hl & Hr & Hlt & Hgt).
  cbn [edgetpu_mapping_find_locked rb_inorder] in *.
  apply in_app_or in Hin.
  destruct (compare_cases this iova) as [[-> H]|[[-> H]|[-> H]]]; cbn.
  - destruct Hin as [Hin|[->|Hin]].
    + specialize (Hlt _ Hin). lia.
    + lia.
    + now apply IHr.
  - destruct Hin as [Hin|[->|Hin]].
    + specialize (Hlt _ Hin). lia.
    + reflexivity.
    + specialize (Hgt _ Hin). lia.
  - destruct Hin as [Hin|[->|Hin]].
    + now apply IHl.
    + lia.
    + specialize (Hgt _ Hin). lia.
Qed.

Lemma find_locked_none t iova :
  rb_ordered t ->
  (edgetpu_mapping_find_locked t iova = None <->
   forall m, In m (rb_inorder t) -> dev_addr m <> iova).
Proof.
  intros Hord. split.
  - intros Hnone m Hin Ha.
    rewrite (find_locked_complete t iova m Hord Hin Ha) in Hnone.
    discriminate.
  - intros Hall.
    destruct (edgetpu_mapping_find_locked t iova) as [m|] eqn:E;
      [|reflexivity].
    apply find_locked_sound in E. destruct E as [Hin Ha].
    exfalso. exact (Hall m Hin Ha).
Qed.

(** Two ordered trees holding the same mappings at an address answer the
    lookup of that address alike. *)
Lemma find_locked_ext t t' iova :
  rb_ordered t -> rb_ordered t' ->
  (forall m, dev_addr m = iova ->
     (In m (rb_inorder t) <-> In m (rb_inorder t'))) ->
  edgetpu_mapping_find_locked t iova = edgetpu_mapping_find_locked t' iova.
Proof.
  intros Hord Hord' Hsame.
  destruct (edgetpu_mapping_find_locked t iova) as [m|] eqn:E.
  - apply find_locked_sound in E. destruct E as [Hin Ha].
    symmetry. apply find_locked_complete; [exact Hord' | | exact Ha].
    now apply Hsame.
  - symmetry. apply find_locked_none; [exact Hord'|].
    intros m Hin Ha.
    apply (proj1 (find_locked_none t iova Hord) E m); [|exact Ha].
    now apply Hsame.
Qed.

(** The descent of [edgetpu_mapping_add] and the lookup follow the same
    path: the descent stops at [goto out] exactly where the lookup finds a
    mapping. *)
Lemma descend_find t map :
  descend_and_link t map = None <->
  edgetpu_mapping_find_locked t (dev_addr map) <> None.
Proof.
  induction t as [|l IHl this r IHr].
  - cbn. split; [discriminate | intros H; now elim H].
  - cbn [descend_and_link edgetpu_mapping_find_locked].
    cbv zeta.
    destruct (compare_cases this (dev_addr map)) as [[-> H]|[[-> H]|[-> H]]];
      cbn.
    + rewrite <- IHr. destruct (descend_and_link r map);
        split; intros H0; (discriminate H0 || reflexivity).
    + split; [discriminate | reflexivity].
    + rewrite <- IHl. destruct (descend_and_link l map);
        split; intros H0; (discriminate H0 || reflexivity).
Qed.

(** Linking puts the new node somewhere in the in-order sequence and
    leaves the other nodes where they were. *)
Lemma descend_inorder t map t' :
  descend_and_link t map = Some t' ->
  exists l1 l2, rb_inorder t = l1 ++ l2 /\ rb_inorder t' = l1 ++ map :: l2.
Proof.
  revert t'. induction t as [|l IHl this r IHr]; intros t'.
  - cbn. intros H. inversion H; subst. now exists [], [].
  - cbn [descend_and_link]. cbv zeta.
    destruct (compare this (dev_addr map) >? 0).
    + destruct (descend_and_link l map) as [l'|]; [|discriminate].
      intros H. inversion H; subst.
      destruct (IHl l' eq_refl) as (l1 & l2 & E1 & E2).
      exists l1, (l2 ++ this :: rb_inorder r).
      cbn [rb_inorder]. rewrite E1, E2, <- !app_assoc. now split.
    + destruct (compare this (dev_addr map) <? 0); [|discriminate].
      destruct (descend_and_link r map) as [r'|]; [|discriminate].
      intros H. inversion H; subst.
      destruct (IHr r' eq_refl) as (l1 & l2 & E1 & E2).
      exists (rb_inorder l ++ this :: l1), l2.
      cbn [rb_inorder]. rewrite E1, E2, <- !app_assoc. now split.
Qed.

Lemma sum_sizes_app l1 l2 :
  sum_sizes (l1 ++ l2) = sum_sizes l1 + sum_sizes l2.
Proof.
  induction l1 as [|x l1 IH]; [reflexivity|].
  cbn [app]. change (sum_sizes (x :: l1 ++ l2))
    with (map_size x + sum_sizes (l1 ++ l2)).
  change (sum_sizes (x :: l1)) with (map_size x + sum_sizes l1).
  rewrite IH. lia.
Qed.

Lemma remove_first_incl node l x :
  In x (remove_first node l) -> In x l.
Proof.
  induction l as [|y l IH]; [intros []|].
  cbn [remove_first]. destruct (mapping_eqb node y).
  - intros Hin. now right.
  - intros [->|Hin]; [now left | right; now apply IH].
Qed.

Lemma remove_first_sorted node l :
  StronglySorted addr_lt l -> StronglySorted addr_lt (remove_first node l).
Proof.
  induction l as [|y l IH]; intros Hs; [constructor|].
  apply StronglySorted_inv in Hs. destruct Hs as [Hl Hy].
  cbn [remove_first]. destruct (mapping_eqb node y); [exact Hl|].
  constructor; [now apply IH|].
  rewrite Forall_forall in *. intros x Hin.
  apply Hy. now apply remove_first_incl in Hin.
Qed.

(** X1: in a tracker ordered by device address, the lookup by address
    ([edgetpu_mapping_find_locked]) returns a mapping exactly when that
    mapping is present and starts at the address asked for; it returns NULL
    exactly when no mapping present starts there, also for an address that
    lies inside a mapped range. *)
Theorem find_locked_exact_address :
  forall mappings iova,
    rb_ordered (rb mappings) ->
    (forall m, edgetpu_mapping_find_locked (rb mappings) iova = Some m <->
               In m (live mappings) /\ dev_addr m = iova) /\
    (edgetpu_mapping_find_locked (rb mappings) iova = None <->
     forall m, In m (live mappings) -> dev_addr m <> iova).
Proof.
  intros mappings iova Hord. split.
  - intros m. split.
    + apply find_locked_sound.
    + intros [Hin Ha]. now apply find_locked_complete.
  - now apply find_locked_none.
Qed.

Lemma find_locked_exact_address_witness :
  rb_ordered (rb (tracker_of [buf_a; buf_d] rotate_left_root)) /\
  edgetpu_mapping_find_locked
    (rb (tracker_of [buf_a; buf_d] rotate_left_root)) 65536 = Some buf_d /\
  in_range buf_a 6144 /\
  edgetpu_mapping_find_locked
    (rb (tracker_of [buf_a; buf_d] rotate_left_root)) 6144 = None.
Proof.
  split; [exact tracker_of_sample_ordered|].
  destruct (find_locked_exact_address
              (tracker_of [buf_a; buf_d] rotate_left_root) 65536
              tracker_of_sample_ordered) as [Hsome _].
  destruct (find_locked_exact_address
              (tracker_of [buf_a; buf_d] rotate_left_root) 6144
              tracker_of_sample_ordered) as [_ Hnone].
  split; [|split].
  - apply Hsome. split; [right; now left | reflexivity].
  - unfold in_range. cbn. lia.
  - apply Hnone. intros m [<-|[<-|[]]] H; vm_compute in H; discriminate H.
Defined.

(** X2: [edgetpu_mapping_first_locked] returns NULL exactly for an empty
    tracker; otherwise, in a tracker ordered by device address, it returns
    the mapping present with the lowest device address. *)
Theorem first_locked_lowest_address :
  forall mappings,
    rb_ordered (rb mappings) ->
    (edgetpu_mapping_first_locked mappings = None <-> live mappings = []) /\
    (forall m, edgetpu_mapping_first_locked mappings = Some m ->
       In m (live mappings) /\
       forall x, In x (live mappings) -> dev_addr m <= dev_addr x).
Proof.
  intros mappings Hord.
  unfold edgetpu_mapping_first_locked, live. rewrite rb_first_inorder.
  unfold rb_ordered in Hord.
  destruct (rb_inorder (rb mappings)) as [|x l]; cbn.
  - split; [tauto | discriminate].
  - split; [split; discriminate|].
    intros m Hm. inversion Hm; subst.
    split; [now left|].
    intros y [<-|Hin]; [lia|].
    apply StronglySorted_inv in Hord. destruct Hord as [_ Hall].
    rewrite Forall_forall in Hall. specialize (Hall y Hin).
    unfold addr_lt in Hall. lia.
Qed.

Lemma first_locked_lowest_address_witness :
  rb_ordered (rb (tracker_of [buf_d; buf_a] rotate_left_root)) /\
  edgetpu_mapping_first_locked (tracker_of [buf_d; buf_a] rotate_left_root)
  = Some buf_a /\
  dev_addr buf_a <= dev_addr buf_d.
Proof.
  assert (Hord : rb_ordered (rb (tracker_of [buf_d; buf_a] rotate_left_root))).
  { unfold rb_ordered. cbn. repeat constructor. }
  split; [exact Hord|]. split; [reflexivity|].
  destruct (first_locked_lowest_address
              (tracker_of [buf_d; buf_a] rotate_left_root) Hord) as [_ Hlow].
  apply (Hlow buf_a eq_refl). right. now left.
Defined.

Section TrackerLookup.

Variable rb_insert_color : edgetpu_mapping -> rb_node -> rb_node.
Hypothesis rb_insert_color_inorder :
  forall node t, rb_inorder (rb_insert_color node t) = rb_inorder t.

Variable rb_erase : edgetpu_mapping -> rb_node -> rb_node.
Hypothesis rb_erase_inorder :
  forall node t, rb_inorder (rb_erase node t) = remove_first node (rb_inorder t).

Lemma add_success mappings map :
  fst (edgetpu_mapping_add rb_insert_color mappings map) = 0 ->
  exists t,
    descend_and_link (rb mappings) map = Some t /\
    snd (edgetpu_mapping_add rb_insert_color mappings map)
    = {| rb := rb_insert_color map t;
         count := wrap64 (count mappings + 1) |}.
Proof.
  unfold edgetpu_mapping_add.
  destruct (release map); cbn; [|intros H; vm_compute in H; discriminate H].
  destruct (descend_and_link (rb mappings) map) as [t|]; cbn.
  - intros _. now exists t.
  - intros H. vm_compute in H. discriminate H.
Qed.

Lemma add_failure mappings map :
  fst (edgetpu_mapping_add rb_insert_color mappings map) <> 0 ->
  snd (edgetpu_mapping_add rb_insert_color mappings map) = mappings.
Proof.
  unfold edgetpu_mapping_add.
  destruct (release map); cbn; [|reflexivity].
  destruct (descend_and_link (rb mappings) map); cbn; [|reflexivity].
  intros H. now elim H.
Qed.

(** X3: a mapping with a release callback is accepted by
    [edgetpu_mapping_add] exactly when the lookup of its device address
    finds nothing; once it is accepted, the lookup of its address returns
    it, and the lookup of every other address answers as before. *)
Theorem add_then_find :
  forall mappings map,
    rb_ordered (rb mappings) -> release map = true ->
    (fst (edgetpu_mapping_add rb_insert_color mappings map) = 0 <->
     edgetpu_mapping_find_locked (rb mappings) (dev_addr map) = None) /\
    (fst (edgetpu_mapping_add rb_insert_color mappings map) = 0 ->
     edgetpu_mapping_find_locked
       (rb (snd (edgetpu_mapping_add rb_insert_color mappings map)))
       (dev_addr map) = Some map /\
     forall iova, iova <> dev_addr map ->
       edgetpu_mapping_find_locked
         (rb (snd (edgetpu_mapping_add rb_insert_color mappings map))) iova
       = edgetpu_mapping_find_locked (rb mappings) iova).
Proof.
  intros mappings map Hord Hrel. split.
  - unfold edgetpu_mapping_add. rewrite Hrel. cbn.
    pose proof (descend_find (rb mappings) map) as Hd.
    destruct (descend_and_link (rb mappings) map) as [t|]; cbn.
    + split; [|reflexivity]. intros _.
      destruct (edgetpu_mapping_find_locked (rb mappings) (dev_addr map));
        [|reflexivity].
      assert (Some t = None) by (apply Hd; discriminate). discriminate.
    + split.
      * intros H. vm_compute in H. discriminate H.
      * intros H. exfalso. now apply (proj1 Hd).
  - intros Hok.
    destruct (add_success mappings map Hok) as (t & Hdesc & ->). cbn [rb].
    destruct (descend_some_ordered (rb mappings) map t Hord Hdesc)
      as (Hord' & Hfresh & Hmem).
    assert (Hord'' : rb_ordered (rb_insert_color map t)).
    { unfold rb_ordered. rewrite rb_insert_color_inorder. exact Hord'. }
    split.
    + apply find_locked_complete; [exact Hord'' | | reflexivity].
      rewrite rb_insert_color_inorder. apply Hmem. now left.
    + intros iova Hne.
      apply find_locked_ext; [exact Hord'' | exact Hord |].
      intros m Ha. rewrite rb_insert_color_inorder, Hmem.
      split; [|now right].
      intros [->|Hin]; [congruence | exact Hin].
Qed.

(** X4: unlinking a mapping that was just added gives back the mappings
    (and the count) the tracker had before the add, and the lookup of its
    address finds nothing again. *)
Theorem unlink_undoes_add :
  forall mappings map,
    rb_ordered (rb mappings) ->
    fst (edgetpu_mapping_add rb_insert_color mappings map) = 0 ->
    live (edgetpu_mapping_unlink rb_erase
            (snd (edgetpu_mapping_add rb_insert_color mappings map)) map)
    = live mappings /\
    edgetpu_mapping_find_locked
      (rb (edgetpu_mapping_unlink rb_erase
             (snd (edgetpu_mapping_add rb_insert_color mappings map)) map))
      (dev_addr map) = None /\
    (0 <= count mappings <= U64_MAX ->
     count (edgetpu_mapping_unlink rb_erase
              (snd (edgetpu_mapping_add rb_insert_color mappings map)) map)
     = count mappings).
Proof.
  intros mappings map Hord Hok.
  destruct (add_success mappings map Hok) as (t & Hdesc & ->).
  destruct (descend_some_ordered (rb mappings) map t Hord Hdesc)
    as (_ & Hfresh & _).
  destruct (descend_inorder (rb mappings) map t Hdesc) as (l1 & l2 & E1 & E2).
  assert (Hlive : rb_inorder (rb_erase map (rb_insert_color map t))
                  = rb_inorder (rb mappings)).
  { rewrite rb_erase_inorder, rb_insert_color_inorder, E2, E1.
    apply remove_first_middle. intros Hin.
    apply (Hfresh map); [|reflexivity].
    rewrite E1. apply in_or_app. now left. }
  unfold edgetpu_mapping_unlink, live. cbn [rb count].
  split; [exact Hlive|]. split.
  - apply find_locked_none.
    + unfold rb_ordered. rewrite Hlive. exact Hord.
    + rewrite Hlive. exact Hfresh.
  - intros Hc. unfold wrap64. rewrite Zminus_mod_idemp_l.
    replace (count mappings + 1 - 1) with (count mappings) by lia.
    apply Z.mod_small. unfold U64_MAX in Hc. lia.
Qed.

(** X5: when [edgetpu_mapping_add] accepts a mapping, the total size
    reported by [edgetpu_mappings_total_size] grows by the size of that
    mapping (in [size_t] arithmetic); when it refuses one, the total is
    unchanged. *)
Theorem add_grows_total_size :
  forall mappings map,
    (fst (edgetpu_mapping_add rb_insert_color mappings map) = 0 ->
     edgetpu_mappings_total_size
       (snd (edgetpu_mapping_add rb_insert_color mappings map))
     = wrap64 (edgetpu_mappings_total_size mappings + map_size map)) /\
    (fst (edgetpu_mapping_add rb_insert_color mappings map) <> 0 ->
     edgetpu_mappings_total_size
       (snd (edgetpu_mapping_add rb_insert_color mappings map))
     = edgetpu_mappings_total_size mappings).
Proof.
  intros mappings map. split.
  - intros Hok.
    destruct (add_success mappings map Hok) as (t & Hdesc & ->).
    destruct (descend_inorder (rb mappings) map t Hdesc)
      as (l1 & l2 & E1 & E2).
    rewrite !total_size_wraps. unfold live. cbn [rb].
    rewrite rb_insert_color_inorder, E1, E2.
    unfold wrap64. rewrite Zplus_mod_idemp_l. f_equal.
    rewrite !sum_sizes_app.
    change (sum_sizes (map :: l2)) with (map_size map + sum_sizes l2). lia.
  - intros Hfail. now rewrite add_failure.
Qed.

(** X6: the trackers of the driver are ordered and counted: the empty
    tracker of [edgetpu_mapping_init] is a search tree on the device
    addresses with the right count, [edgetpu_mapping_add] keeps it so
    whether it accepts or refuses the mapping (as long as the number of
    mappings fits a [size_t]), and so does [edgetpu_mapping_unlink] of a
    mapping that is present. *)
Theorem tracker_stays_ordered_and_counted :
  tracker_ok edgetpu_mapping_init /\
  (forall mappings map,
     tracker_ok mappings ->
     Z.of_nat (length (live mappings)) < U64_MAX ->
     tracker_ok (snd (edgetpu_mapping_add rb_insert_color mappings map))) /\
  (forall mappings map,
     tracker_ok mappings ->
     In map (live mappings) ->
     tracker_ok (edgetpu_mapping_unlink rb_erase mappings map)).
Proof.
  split; [|split].
  - split; [constructor|]. split; [reflexivity|].
    unfold U64_MAX, U64_MODULUS. cbn. lia.
  - intros mappings map [Hord [Hcount Hfits]] Hroom.
    destruct (Z.eq_dec
                (fst (edgetpu_mapping_add rb_insert_color mappings map)) 0)
      as [Hok|Hfail].
    + destruct (add_success mappings map Hok) as (t & Hdesc & ->).
      destruct (descend_some_ordered (rb mappings) map t Hord Hdesc)
        as (Hord' & _ & _).
      destruct (descend_inorder (rb mappings) map t Hdesc)
        as (l1 & l2 & E1 & E2).
      split.
      * unfold rb_ordered. cbn [rb]. rewrite rb_insert_color_inorder.
        exact Hord'.
      * unfold count_ok, live in *. cbn [rb count].
        rewrite rb_insert_color_inorder, E2.
        rewrite E1 in Hcount, Hroom.
        rewrite length_app in *. cbn [length].
        rewrite wrap64_small by lia. lia.
    + rewrite add_failure by exact Hfail. split; [exact Hord | now split].
  - intros mappings map [Hord [Hcount Hfits]] Hin. split.
    + unfold rb_ordered, edgetpu_mapping_unlink. cbn [rb].
      rewrite rb_erase_inorder. now apply remove_first_sorted.
    + unfold count_ok, live in *.
      unfold edgetpu_mapping_unlink. cbn [rb count].
      rewrite rb_erase_inorder.
      pose proof (remove_first_length map _ Hin) as Hlen.
      rewrite wrap64_small; unfold U64_MAX in *; lia.
Qed.

(** X7: [edgetpu_mapping_clear] terminates (after as many iterations as
    there are mappings), calls the release callback of every mapping
    present exactly once, in ascending walk order, and leaves the tracker
    empty, with a count of zero when the count was right before. *)
Theorem clear_releases_every_mapping :
  forall fuel mappings,
    (length (live mappings) <= fuel)%nat ->
    exists rest,
      edgetpu_mapping_clear rb_erase fuel mappings
      = Some (rest, live mappings) /\
      live rest = [] /\
      (count_ok mappings -> count rest = 0).
Proof.
  unfold edgetpu_mapping_clear.
  induction fuel as [|fuel IH]; intros mappings Hfuel.
  - exists mappings. unfold live in *.
    cbn [clear_loop]. unfold edgetpu_mapping_first_locked.
    rewrite rb_first_inorder.
    destruct (rb_inorder (rb mappings)) as [|x l] eqn:E;
      [|cbn in Hfuel; lia].
    cbn. repeat split. unfold count_ok, live. rewrite E. cbn. tauto.
  - cbn [clear_loop]. unfold edgetpu_mapping_first_locked.
    rewrite rb_first_inorder. unfold live in *.
    destruct (rb_inorder (rb mappings)) as [|x l] eqn:E.
    + exists mappings. cbn. rewrite E. repeat split.
      unfold count_ok, live. rewrite E. cbn. tauto.
    + cbn [hd_error].
      assert (Hl : rb_inorder (rb (edgetpu_mapping_unlink rb_erase mappings x))
                   = l).
      { unfold edgetpu_mapping_unlink. cbn [rb].
        rewrite rb_erase_inorder, E. cbn [remove_first].
        now rewrite mapping_eqb_refl. }
      destruct (IH (edgetpu_mapping_unlink rb_erase mappings x))
        as (rest & Hrun & Hempty & Hzero).
      { rewrite Hl. cbn in Hfuel. lia. }
      exists rest. rewrite Hrun, Hl. repeat split; [exact Hempty|].
      intros [Hc Hfits]. apply Hzero.
      unfold count_ok, live in *. rewrite Hl.
      rewrite E in Hc. cbn [length] in Hc.
      unfold edgetpu_mapping_unlink. cbn [count].
      rewrite wrap64_small; unfold U64_MAX in *; lia.
Qed.

End TrackerLookup.

Lemma add_then_find_witness :
  rb_ordered (rb (tracker_of [buf_a; buf_d] rotate_left_root)) /\
  release buf_b = true /\
  fst (edgetpu_mapping_add rotate_left_root
         (tracker_of [buf_a; buf_d] rotate_left_root) buf_b) = 0 /\
  edgetpu_mapping_find_locked
    (rb (snd (edgetpu_mapping_add rotate_left_root
                (tracker_of [buf_a; buf_d] rotate_left_root) buf_b)))
    (dev_addr buf_b) = Some buf_b.
Proof.
  split; [exact tracker_of_sample_ordered|].
  split; [reflexivity|]. split; [reflexivity|].
  destruct (add_then_find rotate_left_root rotate_left_root_inorder
              (tracker_of [buf_a; buf_d] rotate_left_root) buf_b
              tracker_of_sample_ordered eq_refl) as [_ Hafter].
  destruct (Hafter eq_refl) as [Hfound _]. exact Hfound.
Defined.

Lemma unlink_undoes_add_witness :
  rb_ordered (rb (tracker_of [buf_a; buf_d] rotate_left_root)) /\
  fst (edgetpu_mapping_add rotate_left_root
         (tracker_of [buf_a; buf_d] rotate_left_root) buf_b) = 0 /\
  live (edgetpu_mapping_unlink erase_unbalanced
          (snd (edgetpu_mapping_add rotate_left_root
                  (tracker_of [buf_a; buf_d] rotate_left_root) buf_b)) buf_b)
  = [buf_a; buf_d].
Proof.
  split; [exact tracker_of_sample_ordered|]. split; [reflexivity|].
  destruct (unlink_undoes_add rotate_left_root rotate_left_root_inorder
              erase_unbalanced erase_unbalanced_inorder
              (tracker_of [buf_a; buf_d] rotate_left_root) buf_b
              tracker_of_sample_ordered eq_refl) as [Hlive _].
  exact Hlive.
Defined.

Lemma add_grows_total_size_witness :
  fst (edgetpu_mapping_add rotate_left_root
         (tracker_of [buf_a; buf_d] rotate_left_root) buf_b) = 0 /\
  edgetpu_mappings_total_size
    (snd (edgetpu_mapping_add rotate_left_root
            (tracker_of [buf_a; buf_d] rotate_left_root) buf_b))
  = wrap64 (12288 + 256).
Proof.
  split; [reflexivity|].
  destruct (add_grows_total_size rotate_left_root rotate_left_root_inorder
              (tracker_of [buf_a; buf_d] rotate_left_root) buf_b)
    as [Hgrow _].
  exact (Hgrow eq_refl).
Defined.

Lemma tracker_stays_ordered_and_counted_witness :
  tracker_ok (tracker_of [buf_a; buf_d] rotate_left_root) /\
  In buf_d (live (tracker_of [buf_a; buf_d] rotate_left_root)) /\
  count (snd (edgetpu_mapping_add rotate_left_root
                (tracker_of [buf_a; buf_d] rotate_left_root) buf_b)) = 3 /\
  count (edgetpu_mapping_unlink erase_unbalanced
           (tracker_of [buf_a; buf_d] rotate_left_root) buf_d) = 1.
Proof.
  assert (Hok : tracker_ok (tracker_of [buf_a; buf_d] rotate_left_root)).
  { split; [exact tracker_of_sample_ordered|].
    split; [reflexivity | vm_compute; discriminate]. }
  assert (Hroom : Z.of_nat (length (live (tracker_of [buf_a; buf_d]
                                             rotate_left_root))) < U64_MAX)
    by reflexivity.
  assert (Hin : In buf_d (live (tracker_of [buf_a; buf_d] rotate_left_root)))
    by (right; now left).
  destruct (tracker_stays_ordered_and_counted
              rotate_left_root rotate_left_root_inorder
              erase_unbalanced erase_unbalanced_inorder)
    as (_ & Hadd & Hunlink).
  split; [exact Hok|]. split; [exact Hin|]. split.
  - exact (proj1 (proj2 (Hadd _ buf_b Hok Hroom))).
  - exact (proj1 (proj2 (Hunlink _ buf_d Hok Hin))).
Defined.

Lemma clear_releases_every_mapping_witness :
  (length (live (tracker_of [buf_d; buf_a; buf_b] rotate_left_root)) <= 3)%nat /\
  exists rest,
    edgetpu_mapping_clear erase_unbalanced 3
      (tracker_of [buf_d; buf_a; buf_b] rotate_left_root)
    = Some (rest, [buf_a; buf_b; buf_d]) /\
    live rest = [].
Proof.
  assert (Hfuel : (length (live (tracker_of [buf_d; buf_a; buf_b]
                                   rotate_left_root)) <= 3)%nat)
    by (cbn; lia).
  split; [exact Hfuel|].
  destruct (clear_releases_every_mapping erase_unbalanced
              erase_unbalanced_inorder 3
              (tracker_of [buf_d; buf_a; buf_b] rotate_left_root) Hfuel)
    as (rest & Hrun & Hempty & _).
  exists rest. split; [exact Hrun | exact Hempty].
Defined.

End Tracker.

(** ** The fence awaiter: termination of exit, the undisturbed waiter and
       the state after exit ([gcip-ikf.c]) *)

Module Awaiter.

Import Ikf.

(** A step that [gcip_ikf_awaiter_exit] drives: its own, or one of a waiter
    thread whose wait it has interrupted. *)
Definition driven_by_exit (e : event) : Prop :=
  e = Exit \/ exists id, e = Thread id (- ERESTARTSYS).

(** The five steps of a waiter thread whose wait returns [wait_result]. *)
Definition thread_to_completion (id : nat) (wait_result : Z) : list event :=
  repeat (Thread id wait_result) 5.

Lemma thread_work_bound t : (thread_work t <= 7)%nat.
Proof. unfold thread_work. destruct (pc t); cbn; lia. Qed.

Lemma work_bound l : (work l <= 7 * length l)%nat.
Proof.
  induction l as [|t l IH]; [unfold work; cbn; lia|].
  rewrite work_cons. pose proof (thread_work_bound t). cbn [length]. lia.
Qed.

Lemma exit_work_bound aw :
  (exit_work aw <= 2 + 7 * length (threads aw))%nat.
Proof.
  unfold exit_work. pose proof (work_bound (threads aw)).
  destruct (exit_at aw); lia.
Qed.

Lemma next_event_driven aw : driven_by_exit (next_event aw).
Proof.
  unfold next_event, driven_by_exit.
  destruct (exit_at aw); auto.
  destruct (threads aw) as [|cur rest]; auto.
  destruct (pc cur); eauto.
Qed.

Lemma exit_returns_within aw :
  reachable aw ->
  exists es aw',
    (length es <= exit_work aw)%nat /\
    Forall driven_by_exit es /\
    run es aw = Some aw' /\ exit_at aw' = Returned.
Proof.
  remember (exit_work aw) as n eqn:Hn. revert aw Hn.
  induction n as [n IH] using lt_wf_ind. intros aw Hn Hreach.
  destruct (exit_at aw) eqn:Hat;
    try (destruct (next_event_progress aw Hreach) as (aw1 & Hstep & Hlt);
         [congruence|];
         destruct (IH (exit_work aw1)) with (aw := aw1)
           as (es & aw' & Hlen & Hall & Hrun & Hret);
         [lia | reflexivity | eapply reachable_step; eauto |];
         exists (next_event aw :: es), aw';
         repeat split;
         [cbn [length]; lia
         | constructor; [apply next_event_driven | exact Hall]
         | cbn; rewrite Hstep; exact Hrun
         | exact Hret]; fail).
  exists [], aw. repeat split; [cbn; lia | constructor | exact Hat].
Qed.

(** X8: from every state the awaiter can be in, [gcip_ikf_awaiter_exit]
    runs to its return: there is a continuation made of steps of exit and
    of the threads it interrupts only (no new wait, no fence signal is
    needed), of at most 2 + 7 * N steps for N linked waiters, after which
    exit has returned and no waiter is left. *)
Theorem awaiter_exit_terminates :
  forall aw,
    reachable aw ->
    exists es aw',
      (length es <= 2 + 7 * length (threads aw))%nat /\
      Forall driven_by_exit es /\
      run es aw = Some aw' /\
      exit_at aw' = Returned /\ threads aw' = [].
Proof.
  intros aw Hreach.
  destruct (exit_returns_within aw Hreach)
    as (es & aw' & Hlen & Hall & Hrun & Hret).
  exists es, aw'. pose proof (exit_work_bound aw).
  repeat split; [lia | exact Hall | exact Hrun | exact Hret |].
  assert (Hinv : invariant aw').
  { apply (invariant_run es aw); [now apply reachable_invariant | exact Hrun]. }
  destruct Hinv as (_ & _ & _ & _ & _ & _ & Hempty). now apply Hempty.
Qed.

Lemma awaiter_exit_terminates_witness :
  reachable (state_after two_waits) /\
  exists es aw',
    (length es <= 16)%nat /\
    run es (state_after two_waits) = Some aw' /\
    exit_at aw' = Returned /\ threads aw' = [].
Proof.
  split; [exact two_waits_reachable|].
  destruct (awaiter_exit_terminates (state_after two_waits)
              two_waits_reachable)
    as (es & aw' & Hlen & _ & Hrun & Hret & Hempty).
  assert (Hn : length (threads (state_after two_waits)) = 2%nat)
    by (vm_compute; reflexivity).
  rewrite Hn in Hlen.
  exists es, aw'. split; [exact Hlen|]. split; [exact Hrun|].
  split; [exact Hret | exact Hempty].
Defined.

Lemma step_after_return e aw aw' :
  invariant aw -> exit_at aw = Returned ->
  step e aw = Some aw' -> aw' = aw.
Proof.
  intros (_ & _ & _ & _ & _ & Hflag & Hempty) Hret Hstep.
  destruct e as [f timeout d ok err|id r|]; cbn in Hstep.
  - inversion Hstep; subst aw'.
    apply wait_refused_after_stop. apply Hflag. congruence.
  - unfold gcip_ikf_thread_func in Hstep.
    rewrite (Hempty Hret) in Hstep. discriminate.
  - unfold gcip_ikf_awaiter_exit in Hstep. rewrite Hret in Hstep.
    discriminate.
Qed.

(** X9: once [gcip_ikf_awaiter_exit] has returned, the awaiter does not
    change any more, whatever is tried: every later wait is refused, no
    waiter thread is left to run, and so [signaled_cb] is never invoked
    again. *)
Theorem nothing_happens_after_exit :
  forall aw es aw',
    reachable aw -> exit_at aw = Returned ->
    run es aw = Some aw' ->
    aw' = aw /\ called aw' = called aw.
Proof.
  intros aw es aw' Hreach Hret Hrun.
  assert (Hsame : aw' = aw); [|now subst].
  apply reachable_invariant in Hreach.
  revert Hrun. induction es as [|e es IH]; cbn.
  - intros H. now inversion H.
  - destruct (step e aw) as [aw1|] eqn:Hstep; [|discriminate].
    apply (step_after_return e aw aw1 Hreach Hret) in Hstep. subst aw1.
    exact IH.
Qed.

Lemma two_waits_exit_reachable :
  reachable (state_after (two_waits ++ two_waits_exit)).
Proof.
  exists true, (two_waits ++ two_waits_exit). vm_compute. reflexivity.
Qed.

Lemma nothing_happens_after_exit_witness :
  reachable (state_after (two_waits ++ two_waits_exit)) /\
  exit_at (state_after (two_waits ++ two_waits_exit)) = Returned /\
  run [Wait (Some 3%nat) 100 9%nat true 0]
      (state_after (two_waits ++ two_waits_exit))
  = Some (state_after (two_waits ++ two_waits_exit)).
Proof.
  split; [exact two_waits_exit_reachable|].
  split; [vm_compute; reflexivity|].
  destruct (run [Wait (Some 3%nat) 100 9%nat true 0]
                (state_after (two_waits ++ two_waits_exit)))
    as [aw'|] eqn:Hrun.
  - f_equal.
    exact (proj1 (nothing_happens_after_exit
                    (state_after (two_waits ++ two_waits_exit)) _ aw'
                    two_waits_exit_reachable eq_refl Hrun)).
  - vm_compute in Hrun. discriminate Hrun.
Defined.

Lemma list_del_update id f l :
  (forall x, task (f x) = task x) ->
  list_del id (update id f l) = list_del id l.
Proof.
  intros Hf. unfold list_del, update.
  induction l as [|x l IH]; [reflexivity|].
  cbn [map filter].
  destruct (has_task id x) eqn:E.
  - assert (H : has_task id (f x) = true)
      by (unfold has_task in *; now rewrite Hf).
    rewrite H. cbn [negb]. exact IH.
  - rewrite E. cbn [negb]. now rewrite IH.
Qed.

(** X10: a waiter that is left alone (exit has not been called) runs to
    completion by itself: when its wait returns, it invokes [signaled_cb]
    once, with the fence and data given to [gcip_ikf_wait_timeout] and with
    the wait result translated (0 to -ETIMEDOUT, MAX_SCHEDULE_TIMEOUT to
    0), and unlinks itself from the list; no other waiter is touched. *)
Theorem undisturbed_waiter_completes :
  forall aw t r,
    reachable aw -> stop_threads aw = false -> signaled_cb aw = true ->
    In t (threads aw) -> pc t = AtWait ->
    exists aw',
      run (thread_to_completion (task t) r) aw = Some aw' /\
      threads aw' = list_del (task t) (threads aw) /\
      called aw'
      = {| cb_task := task t; cb_fence := fence t;
           cb_status := callback_status r; cb_data := data t;
           cb_by := ByThread |} :: called aw /\
      stop_threads aw' = false /\ exit_at aw' = exit_at aw.
Proof.
  intros aw t r Hreach Hstop Hcb Hin Hpc.
  pose proof (reachable_invariant _ Hreach) as (Hth & Hnd & _).
  assert (Hlook : lookup (task t) (threads aw) = Some t)
    by (apply lookup_in; assumption).
  assert (Hss : should_stop t = false).
  { rewrite Forall_forall in Hth.
    destruct (Hth t Hin) as (_ & _ & Hs & _).
    destruct (should_stop t); [|reflexivity].
    rewrite Hs in Hstop; [discriminate | reflexivity]. }
  set (f1 := fun x => set_pc AtCheck (set_wait_status r x)).
  set (f3 := fun x => set_pc AtCallback
                        (set_wait_status (callback_status (wait_status x))
                                         (set_signaled x))).
  set (l1 := update (task t) f1 (threads aw)).
  set (l2 := update (task t) (set_pc AtSignaled) l1).
  set (l3 := update (task t) f3 l2).
  set (l4 := update (task t) (set_pc AtOut) l3).
  assert (H1 : lookup (task t) l1 = Some (f1 t))
    by (apply lookup_update; [reflexivity | exact Hlook]).
  assert (H2 : lookup (task t) l2 = Some (set_pc AtSignaled (f1 t)))
    by (apply lookup_update; [reflexivity | exact H1]).
  assert (H3 : lookup (task t) l3 = Some (f3 (set_pc AtSignaled (f1 t))))
    by (apply lookup_update; [reflexivity | exact H2]).
  assert (H4 : lookup (task t) l4
               = Some (set_pc AtOut (f3 (set_pc AtSignaled (f1 t)))))
    by (apply lookup_update; [reflexivity | exact H3]).
  eexists. split; [|split; [|split; [|split]]].
  - unfold thread_to_completion. cbn [repeat run step].
    unfold gcip_ikf_thread_func at 1. rewrite Hlook, Hpc.
    fold f1. fold l1.
    unfold gcip_ikf_thread_func at 1. cbn [threads set_threads].
    rewrite H1. cbn [pc f1 set_pc should_stop set_wait_status].
    rewrite Hss. fold l2.
    unfold gcip_ikf_thread_func at 1. cbn [threads set_threads].
    rewrite H2. cbn [pc set_pc]. fold f3. fold l3.
    unfold gcip_ikf_thread_func at 1. cbn [threads set_threads].
    rewrite H3. cbn [pc f3 set_pc signaled_cb set_threads]. rewrite Hcb.
    fold l4.
    unfold gcip_ikf_thread_func at 1.
    cbn [threads set_threads add_call].
    rewrite H4.
    cbn [pc set_pc stop_threads set_threads add_call]. rewrite Hstop.
    cbn [negb]. reflexivity.
  - cbn [threads set_threads add_call]. unfold l4, l3, l2, l1.
    rewrite !list_del_update; reflexivity.
  - reflexivity.
  - cbn. exact Hstop.
  - reflexivity.
Qed.

Lemma undisturbed_waiter_completes_witness :
  reachable (state_after two_waits) /\
  stop_threads (state_after two_waits) = false /\
  signaled_cb (state_after two_waits) = true /\
  exists aw',
    run (thread_to_completion 1 0) (state_after two_waits) = Some aw' /\
    map task (threads aw') = [0%nat] /\
    called aw'
    = [{| cb_task := 1; cb_fence := 2; cb_status := - ETIMEDOUT;
          cb_data := 8; cb_by := ByThread |}].
Proof.
  split; [exact two_waits_reachable|].
  split; [vm_compute; reflexivity|]. split; [vm_compute; reflexivity|].
  destruct (undisturbed_waiter_completes (state_after two_waits)
              {| task := 1; fence := 2; timeout_jiffies := 100; data := 8;
                 signaled := false; pc := AtWait; wait_status := 100;
                 should_stop := false |} 0
              two_waits_reachable)
    as (aw' & Hrun & Hth & Hcalled & _);
    [vm_compute; reflexivity | vm_compute; reflexivity
    | right; left; vm_compute; reflexivity | reflexivity |].
  exists aw'. split; [exact Hrun|]. split.
  - rewrite Hth. vm_compute. reflexivity.
  - rewrite Hcalled. vm_compute. reflexivity.
Defined.

End Awaiter.

(** ** mmap of device regions ([edgetpu-core.c]) *)

Module Vma.

(** [edgetpu_vma_flags_t] is a [u32]. *)
Definition U32_MODULUS : Z := 2 ^ 32.
Definition wrap32 (x : Z) : Z := x mod U32_MODULUS.

(** [BIT_MASK(nr)] is [1UL << (nr % BITS_PER_LONG)]. *)
Definition BITS_PER_LONG : Z := 64.
Definition BIT_MASK (nr : Z) : Z := Z.shiftl 1 (nr mod BITS_PER_LONG).

Definition VMA_TYPE_WIDTH : Z := 16.
Definition VMA_TYPE (x : Z) : Z := Z.land x (BIT_MASK VMA_TYPE_WIDTH - 1).
Definition VMA_DATA_GET (x : Z) : Z := Z.shiftr x VMA_TYPE_WIDTH.
Definition VMA_DATA_SET (x y : Z) : Z :=
  Z.lor (VMA_TYPE x) (Z.shiftl y VMA_TYPE_WIDTH).

(** [enum edgetpu_vma_type]. *)
Definition VMA_INVALID : Z := 0.
Definition VMA_FULL_CSR : Z := 1.
Definition VMA_VII_CSR : Z := 2.
Definition VMA_VII_CMDQ : Z := 3.
Definition VMA_VII_RESPQ : Z := 4.
Definition VMA_EXT_CSR : Z := 5.
Definition VMA_EXT_CMDQ : Z := 6.
Definition VMA_EXT_RESPQ : Z := 7.
Definition VMA_LOG : Z := 8.
Definition VMA_TRACE : Z := 9.

(** The mmap offsets of [edgetpu.h]. *)
Definition EDGETPU_MMAP_EXT_CSR_OFFSET : Z := 0x1500000.
Definition EDGETPU_MMAP_EXT_CMD_QUEUE_OFFSET : Z := 0x1600000.
Definition EDGETPU_MMAP_EXT_RESP_QUEUE_OFFSET : Z := 0x1700000.
Definition EDGETPU_MMAP_CSR_OFFSET : Z := 0x1800000.
Definition EDGETPU_MMAP_CMD_QUEUE_OFFSET : Z := 0x1900000.
Definition EDGETPU_MMAP_RESP_QUEUE_OFFSET : Z := 0x1A00000.
Definition EDGETPU_MMAP_LOG_BUFFER_OFFSET : Z := 0x1B00000.
Definition EDGETPU_MMAP_TRACE_BUFFER_OFFSET : Z := 0x1C00000.
Definition EDGETPU_MMAP_LOG1_BUFFER_OFFSET : Z := 0x1D00000.
Definition EDGETPU_MMAP_TRACE1_BUFFER_OFFSET : Z := 0x1E00000.
Definition EDGETPU_MMAP_LOG2_BUFFER_OFFSET : Z := 0x1F00000.
Definition EDGETPU_MMAP_TRACE2_BUFFER_OFFSET : Z := 0x2000000.
Definition EDGETPU_MMAP_LOG3_BUFFER_OFFSET : Z := 0x2100000.
Definition EDGETPU_MMAP_TRACE3_BUFFER_OFFSET : Z := 0x2200000.

(** [enum edgetpu_wakelock_event] ([edgetpu-wakelock.h]), the members
    [edgetpu-core.c] names. *)
Inductive edgetpu_wakelock_event :=
| EDGETPU_WAKELOCK_EVENT_FULL_CSR
| EDGETPU_WAKELOCK_EVENT_MBOX_CSR
| EDGETPU_WAKELOCK_EVENT_CMD_QUEUE
| EDGETPU_WAKELOCK_EVENT_RESP_QUEUE
| EDGETPU_WAKELOCK_EVENT_END.

Inductive gcip_telemetry_type := GCIP_TELEMETRY_LOG | GCIP_TELEMETRY_TRACE.
Inductive gcip_mailbox_queue :=
  GCIP_MAILBOX_CMD_QUEUE | GCIP_MAILBOX_RESP_QUEUE.

(** [vma_type_to_wakelock_event]. *)
Definition vma_type_to_wakelock_event (type : Z) : edgetpu_wakelock_event :=
  if type =? VMA_FULL_CSR then EDGETPU_WAKELOCK_EVENT_FULL_CSR
  else if type =? VMA_VII_CSR then EDGETPU_WAKELOCK_EVENT_MBOX_CSR
  else if type =? VMA_VII_CMDQ then EDGETPU_WAKELOCK_EVENT_CMD_QUEUE
  else if type =? VMA_VII_RESPQ then EDGETPU_WAKELOCK_EVENT_RESP_QUEUE
  else if type =? VMA_EXT_CSR then EDGETPU_WAKELOCK_EVENT_MBOX_CSR
  else if type =? VMA_EXT_CMDQ then EDGETPU_WAKELOCK_EVENT_CMD_QUEUE
  else if type =? VMA_EXT_RESPQ then EDGETPU_WAKELOCK_EVENT_RESP_QUEUE
  else EDGETPU_WAKELOCK_EVENT_END.

(** The calls the mmap path makes, in program order; a call whose return
    value steers the caller carries it. *)
Inductive vma_call :=
| kmalloc (ok : bool)
| edgetpu_client_get
| edgetpu_vma_private_get
| edgetpu_vma_private_put
| edgetpu_wakelock_inc_event (evt : edgetpu_wakelock_event) (ok : bool)
| edgetpu_wakelock_dec_event (evt : edgetpu_wakelock_event)
| edgetpu_telemetry_inc_mmap_count (type : gcip_telemetry_type) (core : Z)
| edgetpu_telemetry_dec_mmap_count (type : gcip_telemetry_type) (core : Z)
| io_remap_pfn_range (map_size : Z) (ret : Z)
| edgetpu_mmap_telemetry_buffer (type : gcip_telemetry_type) (core : Z)
                                (ret : Z)
| mutex_lock_group_lock
| mutex_unlock_group_lock
| edgetpu_mmap_csr (g : nat) (is_external : bool) (ret : Z)
| edgetpu_mmap_queue (g : nat) (queue : gcip_mailbox_queue)
                     (is_external : bool) (ret : Z)
| set_vm_private_data (flag : Z).

(** [edgetpu_vma_open]: [inc_ok] is the (ignored) answer of
    [edgetpu_wakelock_inc_event]. *)
Definition edgetpu_vma_open (flag : Z) (inc_ok : bool) : list vma_call :=
  let type := VMA_TYPE flag in
  [edgetpu_vma_private_get] ++
  (match vma_type_to_wakelock_event type with
   | EDGETPU_WAKELOCK_EVENT_END => []
   | evt => [edgetpu_wakelock_inc_event evt inc_ok]
   end) ++
  (if type =? VMA_LOG then
     [edgetpu_telemetry_inc_mmap_count GCIP_TELEMETRY_LOG (VMA_DATA_GET flag)]
   else if type =? VMA_TRACE then
     [edgetpu_telemetry_inc_mmap_count GCIP_TELEMETRY_TRACE
                                       (VMA_DATA_GET flag)]
   else []).

(** [edgetpu_vma_close]. *)
Definition edgetpu_vma_close (flag : Z) : list vma_call :=
  let type := VMA_TYPE flag in
  (match vma_type_to_wakelock_event type with
   | EDGETPU_WAKELOCK_EVENT_END => []
   | evt => [edgetpu_wakelock_dec_event evt]
   end) ++
  (if type =? VMA_LOG then
     [edgetpu_telemetry_dec_mmap_count GCIP_TELEMETRY_LOG (VMA_DATA_GET flag)]
   else if type =? VMA_TRACE then
     [edgetpu_telemetry_dec_mmap_count GCIP_TELEMETRY_TRACE
                                       (VMA_DATA_GET flag)]
   else []) ++
  [edgetpu_vma_private_put].

(** The call that takes back what a call of the open handler took. *)
Definition counterpart (c : vma_call) : vma_call :=
  match c with
  | edgetpu_vma_private_get => edgetpu_vma_private_put
  | edgetpu_wakelock_inc_event evt _ => edgetpu_wakelock_dec_event evt
  | edgetpu_telemetry_inc_mmap_count t core =>
      edgetpu_telemetry_dec_mmap_count t core
  | other => other
  end.

(** What the surroundings answer during one [edgetpu_mmap]. *)
Record mmap_env := {
  vm_start : Z;
  vm_end : Z;
  vm_pgoff : Z;
  use_ikv : bool;              (* client->etdev->mailbox_manager->use_ikv *)
  group : option nat;          (* client->group *)
  kmalloc_ok : bool;
  inc_event_ok : bool;         (* edgetpu_wakelock_inc_event *)
  euid_is_root : bool;         (* uid_eq(current_euid(), GLOBAL_ROOT_UID) *)
  regs_size : Z;               (* client->etdev->regs.size *)
  remap_ret : Z;               (* io_remap_pfn_range *)
  telemetry_ret : Z;           (* edgetpu_mmap_telemetry_buffer *)
  group_mmap_ret : Z           (* edgetpu_mmap_csr, edgetpu_mmap_queue *)
}.

(** [edgetpu_mmap_full_csr]. *)
Definition edgetpu_mmap_full_csr (env : mmap_env) : Z * list vma_call :=
  if negb (euid_is_root env) then (- EPERM, [])
  else
    let vma_size := wrap64 (vm_end env - vm_start env) in
    let map_size := Z.min vma_size (regs_size env) in
    (remap_ret env, [io_remap_pfn_range map_size (remap_ret env)]).

(** The labels at the end of [edgetpu_mmap]. *)
Definition err_release_pvt (ret : Z) : Z * list vma_call :=
  (ret, [edgetpu_vma_private_put]).

Definition out_set_op (ret flag : Z) : Z * list vma_call :=
  if ret =? 0 then (0, [set_vm_private_data flag])
  else err_release_pvt ret.

Definition out_dec_evt (ret flag : Z) (evt : edgetpu_wakelock_event)
  : Z * list vma_call :=
  let (r, tr) := out_set_op ret flag in
  (r, (if ret =? 0 then [] else [edgetpu_wakelock_dec_event evt]) ++ tr).

Definition out_unlock (ret flag : Z) (evt : edgetpu_wakelock_event)
  : Z * list vma_call :=
  let (r, tr) := out_dec_evt ret flag evt in
  (r, mutex_unlock_group_lock :: tr).

Section Config.

(** [PAGE_SHIFT] comes from the kernel configuration and
    [EDGETPU_MAX_TELEMETRY_BUFFERS] from the chip's [config.h]. *)
Variable PAGE_SHIFT : Z.
Variable EDGETPU_MAX_TELEMETRY_BUFFERS : Z.

(** [mmap_vma_flag]: [off] is an [unsigned long]. *)
Definition mmap_vma_flag (pgoff : Z) : Z :=
  let off := wrap64 (Z.shiftl pgoff PAGE_SHIFT) in
  if off =? 0 then VMA_FULL_CSR
  else if off =? EDGETPU_MMAP_CSR_OFFSET then VMA_VII_CSR
  else if off =? EDGETPU_MMAP_CMD_QUEUE_OFFSET then VMA_VII_CMDQ
  else if off =? EDGETPU_MMAP_RESP_QUEUE_OFFSET then VMA_VII_RESPQ
  else if off =? EDGETPU_MMAP_EXT_CSR_OFFSET then VMA_EXT_CSR
  else if off =? EDGETPU_MMAP_EXT_CMD_QUEUE_OFFSET then VMA_EXT_CMDQ
  else if off =? EDGETPU_MMAP_EXT_RESP_QUEUE_OFFSET then VMA_EXT_RESPQ
  else if off =? EDGETPU_MMAP_LOG_BUFFER_OFFSET
       then wrap32 (VMA_DATA_SET VMA_LOG 0)
  else if off =? EDGETPU_MMAP_TRACE_BUFFER_OFFSET
       then wrap32 (VMA_DATA_SET VMA_TRACE 0)
  else if (1 <? EDGETPU_MAX_TELEMETRY_BUFFERS)
          && (off =? EDGETPU_MMAP_LOG1_BUFFER_OFFSET)
       then wrap32 (VMA_DATA_SET VMA_LOG 1)
  else if (1 <? EDGETPU_MAX_TELEMETRY_BUFFERS)
          && (off =? EDGETPU_MMAP_TRACE1_BUFFER_OFFSET)
       then wrap32 (VMA_DATA_SET VMA_TRACE 1)
  else if (2 <? EDGETPU_MAX_TELEMETRY_BUFFERS)
          && (off =? EDGETPU_MMAP_LOG2_BUFFER_OFFSET)
       then wrap32 (VMA_DATA_SET VMA_LOG 2)
  else if (2 <? EDGETPU_MAX_TELEMETRY_BUFFERS)
          && (off =? EDGETPU_MMAP_TRACE2_BUFFER_OFFSET)
       then wrap32 (VMA_DATA_SET VMA_TRACE 2)
  else if (3 <? EDGETPU_MAX_TELEMETRY_BUFFERS)
          && (off =? EDGETPU_MMAP_LOG3_BUFFER_OFFSET)
       then wrap32 (VMA_DATA_SET VMA_LOG 3)
  else if (3 <? EDGETPU_MAX_TELEMETRY_BUFFERS)
          && (off =? EDGETPU_MMAP_TRACE3_BUFFER_OFFSET)
       then wrap32 (VMA_DATA_SET VMA_TRACE 3)
  else VMA_INVALID.

(** The [switch] on the type under the group lock in [edgetpu_mmap]. *)
Definition group_mmap (env : mmap_env) (g : nat) (type : Z)
  : Z * list vma_call :=
  let ret := group_mmap_ret env in
  if type =? VMA_VII_CSR then (ret, [edgetpu_mmap_csr g false ret])
  else if type =? VMA_VII_CMDQ
       then (ret, [edgetpu_mmap_queue g GCIP_MAILBOX_CMD_QUEUE false ret])
  else if type =? VMA_VII_RESPQ
       then (ret, [edgetpu_mmap_queue g GCIP_MAILBOX_RESP_QUEUE false ret])
  else if type =? VMA_EXT_CSR then (ret, [edgetpu_mmap_csr g true ret])
  else if type =? VMA_EXT_CMDQ
       then (ret, [edgetpu_mmap_queue g GCIP_MAILBOX_CMD_QUEUE true ret])
  else if type =? VMA_EXT_RESPQ
       then (ret, [edgetpu_mmap_queue g GCIP_MAILBOX_RESP_QUEUE true ret])
  else (0, []).

(** [edgetpu_mmap]: the return value and the calls made.
    [~PAGE_MASK] is [PAGE_SIZE - 1].  The changes to the protection and
    the flags of the VMA itself are not calls and are left out. *)
Definition edgetpu_mmap (env : mmap_env) : Z * list vma_call :=
  if negb (Z.land (vm_start env) (Z.shiftl 1 PAGE_SHIFT - 1) =? 0)
  then (- EINVAL, [])
  else
    let flag := mmap_vma_flag (vm_pgoff env) in
    let type := VMA_TYPE flag in
    if type =? VMA_INVALID then (- EINVAL, [])
    else if use_ikv env && negb (type =? VMA_LOG) && negb (type =? VMA_TRACE)
    then (- EINVAL, [])
    else if negb (kmalloc_ok env) then (- ENOMEM, [kmalloc false])
    else
      let pre := [kmalloc true; edgetpu_client_get] in
      if type =? VMA_FULL_CSR then
        let evt := EDGETPU_WAKELOCK_EVENT_FULL_CSR in
        if inc_event_ok env then
          let (ret, tr) := edgetpu_mmap_full_csr env in
          let (r, tl) := if ret =? 0 then out_set_op ret flag
                         else out_dec_evt ret flag evt in
          (r, pre ++ [edgetpu_wakelock_inc_event evt true] ++ tr ++ tl)
        else
          let (r, tl) := out_set_op (- EAGAIN) flag in
          (r, pre ++ [edgetpu_wakelock_inc_event evt false] ++ tl)
      else if type =? VMA_LOG then
        let ret := telemetry_ret env in
        let (r, tl) := out_set_op ret flag in
        (r, pre ++ [edgetpu_mmap_telemetry_buffer GCIP_TELEMETRY_LOG
                      (VMA_DATA_GET flag) ret] ++ tl)
      else if type =? VMA_TRACE then
        let ret := telemetry_ret env in
        let (r, tl) := out_set_op ret flag in
        (r, pre ++ [edgetpu_mmap_telemetry_buffer GCIP_TELEMETRY_TRACE
                      (VMA_DATA_GET flag) ret] ++ tl)
      else
        match vma_type_to_wakelock_event type with
        | EDGETPU_WAKELOCK_EVENT_END =>
            let (r, tl) := err_release_pvt (- EINVAL) in (r, pre ++ tl)
        | evt =>
            if negb (inc_event_ok env) then
              let (r, tl) := err_release_pvt (- EAGAIN) in
              (r, pre ++ [edgetpu_wakelock_inc_event evt false] ++ tl)
            else
              let head := pre ++ [edgetpu_wakelock_inc_event evt true;
                                  mutex_lock_group_lock] in
              match group env with
              | None =>
                  let (r, tl) := out_unlock (- EINVAL) flag evt in
                  (r, head ++ tl)
              | Some g =>
                  let (ret, tr) := group_mmap env g type in
                  let (r, tl) := out_unlock ret flag evt in
                  (r, head ++ tr ++ tl)
              end
        end.

End Config.

(** Counting the calls of one kind. *)
Definition count_calls (p : vma_call -> bool) (tr : list vma_call) : nat :=
  length (filter p tr).

Definition wakelock_event_eqb (a b : edgetpu_wakelock_event) : bool :=
  match a, b with
  | EDGETPU_WAKELOCK_EVENT_FULL_CSR, EDGETPU_WAKELOCK_EVENT_FULL_CSR
  | EDGETPU_WAKELOCK_EVENT_MBOX_CSR, EDGETPU_WAKELOCK_EVENT_MBOX_CSR
  | EDGETPU_WAKELOCK_EVENT_CMD_QUEUE, EDGETPU_WAKELOCK_EVENT_CMD_QUEUE
  | EDGETPU_WAKELOCK_EVENT_RESP_QUEUE, EDGETPU_WAKELOCK_EVENT_RESP_QUEUE
  | EDGETPU_WAKELOCK_EVENT_END, EDGETPU_WAKELOCK_EVENT_END => true
  | _, _ => false
  end.

Definition is_alloc (c : vma_call) : bool :=
  match c with kmalloc true => true | _ => false end.
Definition is_private_put (c : vma_call) : bool :=
  match c with edgetpu_vma_private_put => true | _ => false end.
Definition is_install (c : vma_call) : bool :=
  match c with set_vm_private_data _ => true | _ => false end.
Definition is_counted_inc (evt : edgetpu_wakelock_event) (c : vma_call) : bool :=
  match c with
  | edgetpu_wakelock_inc_event e true => wakelock_event_eqb evt e
  | _ => false
  end.
Definition is_dec (evt : edgetpu_wakelock_event) (c : vma_call) : bool :=
  match c with
  | edgetpu_wakelock_dec_event e => wakelock_event_eqb evt e
  | _ => false
  end.
Definition is_lock (c : vma_call) : bool :=
  match c with mutex_lock_group_lock => true | _ => false end.
Definition is_unlock (c : vma_call) : bool :=
  match c with mutex_unlock_group_lock => true | _ => false end.
Definition is_group_mmap (c : vma_call) : bool :=
  match c with
  | edgetpu_mmap_csr _ _ _ | edgetpu_mmap_queue _ _ _ _ => true
  | _ => false
  end.

(** A client on a device with user-space VII that maps the VII command
    queue at a page-aligned address. *)
Definition cmdq_env (g : option nat) (ret : Z) : mmap_env :=
  {| vm_start := 0x7f0000000000; vm_end := 0x7f0000004000;
     vm_pgoff := 0x1900; use_ikv := false; group := g;
     kmalloc_ok := true; inc_event_ok := true; euid_is_root := false;
     regs_size := 0x100000; remap_ret := 0; telemetry_ret := 0;
     group_mmap_ret := ret |}.

(** *** Properties of the mmap path *)

Lemma vma_type_mod x : VMA_TYPE x = x mod 2 ^ 16.
Proof.
  unfold VMA_TYPE. change (BIT_MASK VMA_TYPE_WIDTH - 1) with (Z.ones 16).
  apply Z.land_ones. lia.
Qed.

Lemma vma_data_set_sum x y :
  0 <= y -> VMA_DATA_SET x y = x mod 2 ^ 16 + y * 2 ^ 16.
Proof.
  intros Hy. unfold VMA_DATA_SET. rewrite vma_type_mod.
  unfold VMA_TYPE_WIDTH. rewrite Z.shiftl_mul_pow2 by lia.
  rewrite <- Z.lxor_lor.
  - symmetry. apply Z.add_nocarry_lxor.
    apply Z.bits_inj'. intros n Hn.
    rewrite Z.land_spec, Z.bits_0.
    destruct (Z.lt_ge_cases n 16) as [Hlow|Hhigh].
    + rewrite (Z.mul_pow2_bits_low y 16 n) by lia. apply andb_false_r.
    + rewrite (Z.mod_pow2_bits_high x 16 n) by lia. reflexivity.
  - apply Z.bits_inj'. intros n Hn.
    rewrite Z.land_spec, Z.bits_0.
    destruct (Z.lt_ge_cases n 16) as [Hlow|Hhigh].
    + rewrite (Z.mul_pow2_bits_low y 16 n) by lia. apply andb_false_r.
    + rewrite (Z.mod_pow2_bits_high x 16 n) by lia. reflexivity.
Qed.

(** X11: the type and the data packed into a VMA flag by [VMA_DATA_SET]
    (and stored in the 32-bit [edgetpu_vma_flags_t]) are read back by
    [VMA_TYPE] and [VMA_DATA_GET]: the type is the low 16 bits of what was
    given, the data (below 2^16) comes back as it was. *)
Theorem vma_flag_round_trip :
  forall x y,
    0 <= y < 2 ^ 16 ->
    VMA_TYPE (wrap32 (VMA_DATA_SET x y)) = VMA_TYPE x /\
    VMA_DATA_GET (wrap32 (VMA_DATA_SET x y)) = y /\
    0 <= wrap32 (VMA_DATA_SET x y) < U32_MODULUS.
Proof.
  intros x y Hy.
  pose proof (Z.mod_pos_bound x (2 ^ 16) ltac:(lia)) as Hx.
  assert (Hsmall : wrap32 (VMA_DATA_SET x y) = x mod 2 ^ 16 + y * 2 ^ 16).
  { rewrite vma_data_set_sum by lia. unfold wrap32, U32_MODULUS.
    apply Z.mod_small. lia. }
  rewrite Hsmall. split; [|split].
  - rewrite !vma_type_mod. rewrite Z.mod_add by lia.
    apply Z.mod_mod. lia.
  - unfold VMA_DATA_GET, VMA_TYPE_WIDTH.
    rewrite Z.shiftr_div_pow2 by lia.
    rewrite Z.div_add by lia. rewrite Z.div_small by lia. lia.
  - unfold U32_MODULUS. lia.
Qed.

Lemma vma_flag_round_trip_witness :
  0 <= 3 < 2 ^ 16 /\
  VMA_TYPE (wrap32 (VMA_DATA_SET VMA_TRACE 3)) = VMA_TRACE /\
  VMA_DATA_GET (wrap32 (VMA_DATA_SET VMA_TRACE 3)) = 3.
Proof.
  assert (H : 0 <= 3 < 2 ^ 16) by lia.
  destruct (vma_flag_round_trip VMA_TRACE 3 H) as (Ht & Hd & _).
  split; [exact H|]. split; [exact Ht | exact Hd].
Defined.

(** Evaluates the closed type and data of a flag in the goal. *)
Ltac eval_flag :=
  repeat match goal with
         | |- context [VMA_DATA_GET ?f] =>
             let v := eval vm_compute in (VMA_DATA_GET f) in
             change (VMA_DATA_GET f) with v
         | |- context [VMA_TYPE ?f] =>
             let v := eval vm_compute in (VMA_TYPE f) in
             change (VMA_TYPE f) with v
         end.

(** Settles the statement below for one closed flag. *)
Ltac flag_facts :=
  repeat match goal with
         | H : (_ && _)%bool = true |- _ =>
             apply andb_true_iff in H; destruct H as [H _];
             apply Z.ltb_lt in H
         | H : _ = false |- _ => clear H
         | H : (_ =? _) = true |- _ => clear H
         end;
  (split; [vm_compute; split; [discriminate | reflexivity]|]);
  (split; [vm_compute; split; discriminate|]);
  eval_flag;
  (split;
   [intros _; lia
   | let H1 := fresh in
     let H2 := fresh in
     intros H1 H2; try reflexivity;
     try (exfalso; apply H1; reflexivity);
     try (exfalso; apply H2; reflexivity)]).

(** X12: whatever page offset is asked for, the flag [mmap_vma_flag]
    answers fits the 32-bit flag type, its type is a member of
    [enum edgetpu_vma_type], a log or trace type carries the index of a
    telemetry buffer that exists (below EDGETPU_MAX_TELEMETRY_BUFFERS, the
    first buffer always existing), and every other type carries no data. *)
Theorem mmap_vma_flag_in_range :
  forall PAGE_SHIFT EDGETPU_MAX_TELEMETRY_BUFFERS pgoff,
    let flag := mmap_vma_flag PAGE_SHIFT EDGETPU_MAX_TELEMETRY_BUFFERS pgoff in
    0 <= flag < U32_MODULUS /\
    VMA_INVALID <= VMA_TYPE flag <= VMA_TRACE /\
    (VMA_TYPE flag = VMA_LOG \/ VMA_TYPE flag = VMA_TRACE ->
     0 <= VMA_DATA_GET flag < Z.max 1 EDGETPU_MAX_TELEMETRY_BUFFERS) /\
    (VMA_TYPE flag <> VMA_LOG -> VMA_TYPE flag <> VMA_TRACE ->
     VMA_DATA_GET flag = 0).
Proof.
  intros shift n pgoff flag. subst flag. unfold mmap_vma_flag.
  set (off := wrap64 (Z.shiftl pgoff shift)). clearbody off.
  repeat match goal with
         | |- context [if ?c then _ else _] =>
             destruct c eqn:?; [cbv iota; flag_facts|]
         end.
  cbv iota. flag_facts.
Qed.

(** X13: for every flag, [edgetpu_vma_close] makes the counterpart of each
    call [edgetpu_vma_open] makes, in the reverse order: it drops the
    reference on the private data, decrements the wakelock event that was
    incremented and the mmap count of the telemetry buffer (same type, same
    core) that was counted, and nothing else. *)
Theorem vma_close_mirrors_open :
  forall flag inc_ok,
    edgetpu_vma_close flag
    = rev (map counterpart (edgetpu_vma_open flag inc_ok)).
Proof.
  intros flag inc_ok. unfold edgetpu_vma_close, edgetpu_vma_open.
  cbv zeta. set (type := VMA_TYPE flag). clearbody type.
  unfold vma_type_to_wakelock_event.
  repeat match goal with
         | |- context [if ?x =? ?c then _ else _] =>
             destruct (Z.eqb_spec x c) as [->|?]; [reflexivity|]
         end.
  reflexivity.
Qed.

(** Settles the statement below on one path through [edgetpu_mmap]. *)
Ltac mmap_path :=
  cbn [fst snd];
  repeat match goal with
         | H : (_ =? _) = false |- _ => apply Z.eqb_neq in H
         | H : (_ =? _) = true |- _ => clear H
         end;
  repeat split; intros;
  try match goal with
      | evt : edgetpu_wakelock_event |- _ => destruct evt
      end;
  try reflexivity; try congruence;
  try match goal with
      | H : _ = 0 |- _ => exfalso; vm_compute in H; discriminate H
      | H : _ <> 0 |- _ => exfalso; apply H; reflexivity
      end.

(** X14: on every path through [edgetpu_mmap] the books balance.  The
    group lock is dropped as often as it is taken, and the group's mmap
    operations are only called for a client that has a group.  When it
    returns 0 the private data it allocated is installed in the VMA, once,
    and nothing it took is given back.  When it fails nothing is installed,
    the private data (if allocated) is released once, and every wakelock
    event it had incremented is decremented again. *)
Theorem edgetpu_mmap_keeps_balance :
  forall PAGE_SHIFT EDGETPU_MAX_TELEMETRY_BUFFERS env,
    let ret := fst (edgetpu_mmap PAGE_SHIFT EDGETPU_MAX_TELEMETRY_BUFFERS env) in
    let tr := snd (edgetpu_mmap PAGE_SHIFT EDGETPU_MAX_TELEMETRY_BUFFERS env) in
    count_calls is_lock tr = count_calls is_unlock tr /\
    (group env = None -> count_calls is_group_mmap tr = 0%nat) /\
    (ret = 0 ->
     count_calls is_alloc tr = 1%nat /\
     count_calls is_install tr = 1%nat /\
     count_calls is_private_put tr = 0%nat /\
     forall evt, count_calls (is_dec evt) tr = 0%nat) /\
    (ret <> 0 ->
     count_calls is_install tr = 0%nat /\
     count_calls is_private_put tr = count_calls is_alloc tr /\
     forall evt,
       count_calls (is_dec evt) tr = count_calls (is_counted_inc evt) tr).
Proof.
  intros shift n env ret tr. subst ret tr.
  unfold edgetpu_mmap.
  set (flag := mmap_vma_flag shift n (vm_pgoff env)). clearbody flag.
  cbv zeta. set (type := VMA_TYPE flag). clearbody type.
  unfold out_unlock, out_dec_evt, out_set_op, err_release_pvt,
    edgetpu_mmap_full_csr, group_mmap.
  destruct (negb (Z.land (vm_start env) (Z.shiftl 1 shift - 1) =? 0));
    [mmap_path|].
  destruct (type =? VMA_INVALID); [mmap_path|].
  destruct (use_ikv env && negb (type =? VMA_LOG) && negb (type =? VMA_TRACE));
    [mmap_path|].
  destruct (negb (kmalloc_ok env)); [mmap_path|].
  destruct (type =? VMA_FULL_CSR).
  { destruct (inc_event_ok env); [|mmap_path].
    destruct (negb (euid_is_root env)); [mmap_path|].
    cbv iota beta.
    destruct (remap_ret env =? 0) eqn:E; mmap_path. }
  destruct (type =? VMA_LOG).
  { cbv zeta. destruct (telemetry_ret env =? 0) eqn:E; mmap_path. }
  destruct (type =? VMA_TRACE).
  { cbv zeta. destruct (telemetry_ret env =? 0) eqn:E; mmap_path. }
  destruct (vma_type_to_wakelock_event type); [| | | |mmap_path];
    (destruct (negb (inc_event_ok env)); [mmap_path|];
     destruct (group env) as [g|] eqn:Hg;
     [|mmap_path];
     cbv zeta;
     repeat match goal with
            | |- context [if type =? ?c then _ else _] =>
                destruct (type =? c);
                [cbv iota beta;
                 destruct (group_mmap_ret env =? 0) eqn:?; mmap_path|]
            end;
     mmap_path).
Qed.

Lemma edgetpu_mmap_keeps_balance_witness :
  snd (edgetpu_mmap 12 1 (cmdq_env None 0))
  = [kmalloc true; edgetpu_client_get;
     edgetpu_wakelock_inc_event EDGETPU_WAKELOCK_EVENT_CMD_QUEUE true;
     mutex_lock_group_lock; mutex_unlock_group_lock;
     edgetpu_wakelock_dec_event EDGETPU_WAKELOCK_EVENT_CMD_QUEUE;
     edgetpu_vma_private_put] /\
  fst (edgetpu_mmap 12 1 (cmdq_env None 0)) = - EINVAL /\
  fst (edgetpu_mmap 12 1 (cmdq_env (Some 4%nat) 0)) = 0 /\
  count_calls is_install (snd (edgetpu_mmap 12 1 (cmdq_env None 0))) = 0%nat /\
  count_calls is_install
    (snd (edgetpu_mmap 12 1 (cmdq_env (Some 4%nat) 0))) = 1%nat.
Proof.
  split; [vm_compute; reflexivity|]. split; [vm_compute; reflexivity|].
  split; [vm_compute; reflexivity|].
  destruct (edgetpu_mmap_keeps_balance 12 1 (cmdq_env None 0))
    as (_ & _ & _ & Hfail).
  destruct (edgetpu_mmap_keeps_balance 12 1 (cmdq_env (Some 4%nat) 0))
    as (_ & _ & Hok & _).
  split.
  - apply Hfail. vm_compute. discriminate.
  - apply Hok. vm_compute. reflexivity.
Defined.

End Vma.

(** ** Adding a device ([edgetpu-core.c]) *)

Module Device.

(** What the callees of [edgetpu_device_add] answer. *)
Record probe_env := {
  etiface_alloc_ok : bool;      (* devm_kzalloc of etdev->etiface *)
  soc_early_init_ret : Z;
  fs_add_ret : Z;
  force_ikv : Z;                (* the module parameter *)
  dt_use_kernel_vii : bool;     (* of_find_property(.., "use-kernel-vii", ..) != NULL *)
  mailbox_mgr_err : Z;          (* 0, or PTR_ERR of edgetpu_mailbox_create_mgr *)
  pm_create_ret : Z;
  mmu_attach_ret : Z;
  etkci_alloc_ok : bool;
  etikv_alloc_ok : bool;
  telemetry_init_ret : Z;
  kci_init_ret : Z;
  ikv_init_ret : Z;
  fw_tracing_err : Z            (* 0, or PTR_ERR of the tracing object *)
}.

(** The calls of [edgetpu_device_add], in program order. *)
Inductive dev_call :=
| devm_kzalloc (ok : bool)
| edgetpu_soc_early_init (ret : Z)
| edgetpu_fs_add (ret : Z)
| edgetpu_mailbox_create_mgr (use_ikv : bool)
                             (num_vii_mailbox num_use_vii_mailbox : Z)
                             (err : Z)
| edgetpu_pm_create (ret : Z)
| edgetpu_mmu_attach (ret : Z)
| edgetpu_usage_stats_init
| edgetpu_telemetry_init (ret : Z)
| edgetpu_kci_init (ret : Z)
| edgetpu_ikv_init (ret : Z)
| edgetpu_debug_init
| edgetpu_firmware_tracing_create (err : Z)
| dma_set_max_seg_size
| edgetpu_telemetry_exit
| edgetpu_usage_stats_exit
| edgetpu_mmu_detach
| edgetpu_pm_destroy
| edgetpu_mailbox_remove_all (write_csrs : bool)
| edgetpu_fs_remove
| edgetpu_soc_exit.

(** The error labels of [edgetpu_device_add], each falling through to the
    next. *)
Definition remove_dev : list dev_call := [edgetpu_fs_remove; edgetpu_soc_exit].
Definition remove_mboxes : list dev_call :=
  edgetpu_mailbox_remove_all false :: remove_dev.
Definition remove_pm : list dev_call := edgetpu_pm_destroy :: remove_mboxes.
Definition remove_usage_stats : list dev_call :=
  [edgetpu_usage_stats_exit; edgetpu_mmu_detach] ++ remove_pm.
Definition out_telemetry_exit : list dev_call :=
  edgetpu_telemetry_exit :: remove_usage_stats.

Section Chip.

(** The mailbox counts of the chip's [config.h]. *)
Variable EDGETPU_NUM_VII_MAILBOXES : Z.
Variable EDGETPU_NUM_USE_VII_MAILBOXES : Z.

(** The [switch (force_ikv)]. *)
Definition wants_ikv (env : probe_env) : bool :=
  if force_ikv env =? 1 then true
  else if force_ikv env =? 0 then false
  else dt_use_kernel_vii env.

(** [edgetpu_device_add]: the return value and the calls made. *)
Definition edgetpu_device_add (env : probe_env) : Z * list dev_call :=
  if negb (etiface_alloc_ok env) then (- ENOMEM, [devm_kzalloc false])
  else
  let t0 := [devm_kzalloc true] in
  if negb (soc_early_init_ret env =? 0) then
    (soc_early_init_ret env,
     t0 ++ [edgetpu_soc_early_init (soc_early_init_ret env)])
  else
  let t1 := t0 ++ [edgetpu_soc_early_init 0] in
  if negb (fs_add_ret env =? 0) then
    (fs_add_ret env, t1 ++ [edgetpu_fs_add (fs_add_ret env)] ++ remove_dev)
  else
  let use_ikv := wants_ikv env in
  let num_vii := if use_ikv then EDGETPU_NUM_VII_MAILBOXES - 1
                 else EDGETPU_NUM_VII_MAILBOXES in
  let num_use_vii := if use_ikv then 0 else EDGETPU_NUM_USE_VII_MAILBOXES in
  let create := edgetpu_mailbox_create_mgr use_ikv num_vii num_use_vii in
  let t2 := t1 ++ [edgetpu_fs_add 0] in
  if negb (mailbox_mgr_err env =? 0) then
    (mailbox_mgr_err env, t2 ++ [create (mailbox_mgr_err env)] ++ remove_dev)
  else
  let t3 := t2 ++ [create 0] in
  if negb (pm_create_ret env =? 0) then
    (pm_create_ret env,
     t3 ++ [edgetpu_pm_create (pm_create_ret env)] ++ remove_mboxes)
  else
  let t4 := t3 ++ [edgetpu_pm_create 0] in
  if negb (mmu_attach_ret env =? 0) then
    (mmu_attach_ret env,
     t4 ++ [edgetpu_mmu_attach (mmu_attach_ret env)] ++ remove_pm)
  else
  let t5 := t4 ++ [edgetpu_mmu_attach 0; edgetpu_usage_stats_init] in
  if negb (etkci_alloc_ok env) then
    (- ENOMEM, t5 ++ [devm_kzalloc false] ++ remove_usage_stats)
  else
  let t6 := t5 ++ [devm_kzalloc true] in
  if negb (etikv_alloc_ok env) then
    (- ENOMEM, t6 ++ [devm_kzalloc false] ++ remove_usage_stats)
  else
  let t7 := t6 ++ [devm_kzalloc true] in
  if negb (telemetry_init_ret env =? 0) then
    (telemetry_init_ret env,
     t7 ++ [edgetpu_telemetry_init (telemetry_init_ret env)]
        ++ remove_usage_stats)
  else
  let t8 := t7 ++ [edgetpu_telemetry_init 0] in
  if negb (kci_init_ret env =? 0) then
    (kci_init_ret env,
     t8 ++ [edgetpu_kci_init (kci_init_ret env)] ++ out_telemetry_exit)
  else
  let t9 := t8 ++ [edgetpu_kci_init 0] in
  if negb (ikv_init_ret env =? 0) then
    (ikv_init_ret env,
     t9 ++ [edgetpu_ikv_init (ikv_init_ret env)] ++ out_telemetry_exit)
  else
    (0, t9 ++ [edgetpu_ikv_init 0; edgetpu_debug_init;
               edgetpu_firmware_tracing_create (fw_tracing_err env);
               dma_set_max_seg_size]).

End Chip.

(** The calls that tear something down. *)
Definition is_teardown (c : dev_call) : bool :=
  match c with
  | edgetpu_telemetry_exit | edgetpu_usage_stats_exit | edgetpu_mmu_detach
  | edgetpu_pm_destroy | edgetpu_mailbox_remove_all _ | edgetpu_fs_remove
  | edgetpu_soc_exit => true
  | _ => false
  end.

(** What a set-up call leaves to be undone when [edgetpu_device_add] fails
    later: nothing when the call itself failed, except for
    [edgetpu_fs_add], whose interfaces added before a failure are removed
    by [edgetpu_fs_remove]; nothing for device-managed allocations and for
    the KCI and in-kernel VII mailboxes. *)
Definition undo (c : dev_call) : list dev_call :=
  match c with
  | edgetpu_soc_early_init ret =>
      if ret =? 0 then [edgetpu_soc_exit] else []
  | edgetpu_fs_add _ => [edgetpu_fs_remove]
  | edgetpu_mailbox_create_mgr _ _ _ err =>
      if err =? 0 then [edgetpu_mailbox_remove_all false] else []
  | edgetpu_pm_create ret => if ret =? 0 then [edgetpu_pm_destroy] else []
  | edgetpu_mmu_attach ret => if ret =? 0 then [edgetpu_mmu_detach] else []
  | edgetpu_usage_stats_init => [edgetpu_usage_stats_exit]
  | edgetpu_telemetry_init ret =>
      if ret =? 0 then [edgetpu_telemetry_exit] else []
  | _ => []
  end.

Definition setup_calls (tr : list dev_call) : list dev_call :=
  filter (fun c => negb (is_teardown c)) tr.

(** A probe in which everything succeeds, and one in which attaching the
    IOMMU fails. *)
Definition good_probe : probe_env :=
  {| etiface_alloc_ok := true; soc_early_init_ret := 0; fs_add_ret := 0;
     force_ikv := -1; dt_use_kernel_vii := true; mailbox_mgr_err := 0;
     pm_create_ret := 0; mmu_attach_ret := 0; etkci_alloc_ok := true;
     etikv_alloc_ok := true; telemetry_init_ret := 0; kci_init_ret := 0;
     ikv_init_ret := 0; fw_tracing_err := 0 |}.

Definition mmu_fails_probe : probe_env :=
  {| etiface_alloc_ok := true; soc_early_init_ret := 0; fs_add_ret := 0;
     force_ikv := -1; dt_use_kernel_vii := true; mailbox_mgr_err := 0;
     pm_create_ret := 0; mmu_attach_ret := - 19; etkci_alloc_ok := true;
     etikv_alloc_ok := true; telemetry_init_ret := 0; kci_init_ret := 0;
     ikv_init_ret := 0; fw_tracing_err := 0 |}.

(** *** Properties of [edgetpu_device_add] *)

(** Settles the statement below on one path. *)
Ltac probe_path :=
  cbn [fst snd];
  repeat match goal with
         | H : negb (_ =? _) = true |- _ =>
             apply negb_true_iff in H
         end;
  split; intros;
  try match goal with
      | H : _ = 0 |- _ =>
          first [ exfalso; vm_compute in H; discriminate H
                | rewrite H in *; discriminate ]
      | H : 0 <> 0 |- _ => now elim H
      end;
  unfold setup_calls, remove_dev, remove_mboxes, remove_pm,
    remove_usage_stats, out_telemetry_exit;
  cbn [app filter is_teardown negb flat_map undo rev];
  repeat match goal with
         | H : (_ =? _) = false |- _ => rewrite H
         end;
  cbn; reflexivity.

(** X15: [edgetpu_device_add] makes its set-up calls first and, when one
    of them fails, undoes what the earlier ones set up in exactly the
    reverse order before returning the error ([edgetpu_fs_remove] also
    after a failed [edgetpu_fs_add]); when it returns 0 it has torn
    nothing down. *)
Theorem device_add_unwinds_in_reverse :
  forall num_vii num_use_vii env,
    let ret := fst (edgetpu_device_add num_vii num_use_vii env) in
    let tr := snd (edgetpu_device_add num_vii num_use_vii env) in
    (ret = 0 -> tr = setup_calls tr) /\
    (ret <> 0 ->
     tr = setup_calls tr ++ rev (flat_map undo (setup_calls tr))).
Proof.
  intros num_vii num_use_vii env ret tr. subst ret tr.
  unfold edgetpu_device_add. cbv zeta.
  repeat match goal with
         | |- context [if negb ?c then _ else _] =>
             destruct (negb c) eqn:?; [probe_path|]
         end.
  probe_path.
Qed.

Lemma device_add_unwinds_in_reverse_witness :
  fst (edgetpu_device_add 8 8 mmu_fails_probe) = - 19 /\
  snd (edgetpu_device_add 8 8 mmu_fails_probe)
  = [devm_kzalloc true; edgetpu_soc_early_init 0; edgetpu_fs_add 0;
     edgetpu_mailbox_create_mgr true 7 0 0; edgetpu_pm_create 0;
     edgetpu_mmu_attach (- 19);
     edgetpu_pm_destroy; edgetpu_mailbox_remove_all false;
     edgetpu_fs_remove; edgetpu_soc_exit] /\
  fst (edgetpu_device_add 8 8 good_probe) = 0 /\
  snd (edgetpu_device_add 8 8 good_probe)
  = setup_calls (snd (edgetpu_device_add 8 8 good_probe)).
Proof.
  destruct (device_add_unwinds_in_reverse 8 8 mmu_fails_probe) as [_ Hfail].
  destruct (device_add_unwinds_in_reverse 8 8 good_probe) as [Hok _].
  split; [reflexivity|]. split.
  - rewrite Hfail; [reflexivity | discriminate].
  - split; [reflexivity | exact (Hok eq_refl)].
Defined.

End Device.

(** ** Per-die event registration ([edgetpu-fs.c]) and client removal *)

Module PerDie.

Import Internal.
Import Core.

Definition EDGETPU_NUM_PERDIE_EVENTS : Z := 2.

(** [perdie_event_id_to_num] applied to the [__u32 event_id] of the
    ioctls: the subtraction is done in [unsigned int]. *)
Definition perdie_num (event_id : Z) : Z :=
  (event_id - EDGETPU_PERDIE_EVENT_LOGS_AVAILABLE) mod 2 ^ 32.

Definition set_perdie_events (client : edgetpu_client) (bits : Z)
  : edgetpu_client :=
  {| count := count client; group := group client;
     wakelock := wakelock client; perdie_events := bits |}.

Inductive gcip_telemetry_type := GCIP_TELEMETRY_LOG | GCIP_TELEMETRY_TRACE.

(** The calls of the two handlers into the telemetry code. *)
Inductive telemetry_call :=
| edgetpu_telemetry_set_event (type : gcip_telemetry_type) (eventfd : Z)
                              (ret : Z)
| telemetry_unset_event (type : gcip_telemetry_type).

(** [edgetpu_ioctl_set_perdie_eventfd]: return value, client afterwards
    and calls; [copy_ok] tells whether [copy_from_user] succeeds,
    [set_event_ret] is the answer of [edgetpu_telemetry_set_event]. *)
Definition edgetpu_ioctl_set_perdie_eventfd
  (copy_ok : bool) (event_id eventfd : Z) (set_event_ret : Z)
  (client : edgetpu_client) : Z * edgetpu_client * list telemetry_call :=
  if negb copy_ok then (- EFAULT, client, [])
  else if perdie_num event_id >=? EDGETPU_NUM_PERDIE_EVENTS
  then (- EINVAL, client, [])
  else
    let client' :=
      set_perdie_events client
        (Z.lor (perdie_events client) (Z.shiftl 1 (perdie_num event_id))) in
    if event_id =? EDGETPU_PERDIE_EVENT_LOGS_AVAILABLE then
      (set_event_ret, client',
       [edgetpu_telemetry_set_event GCIP_TELEMETRY_LOG eventfd set_event_ret])
    else if event_id =? EDGETPU_PERDIE_EVENT_TRACES_AVAILABLE then
      (set_event_ret, client',
       [edgetpu_telemetry_set_event GCIP_TELEMETRY_TRACE eventfd
                                    set_event_ret])
    else (- EINVAL, client', []).

(** [edgetpu_ioctl_unset_perdie_eventfd]: [~(1 << n)] is an [int] whose
    conversion to [u64] keeps every bit but bit [n] set. *)
Definition edgetpu_ioctl_unset_perdie_eventfd
  (event_id : Z) (client : edgetpu_client)
  : Z * edgetpu_client * list telemetry_call :=
  if perdie_num event_id >=? EDGETPU_NUM_PERDIE_EVENTS
  then (- EINVAL, client, [])
  else
    let client' :=
      set_perdie_events client
        (Z.land (perdie_events client)
                (Z.lnot (Z.shiftl 1 (perdie_num event_id)))) in
    if event_id =? EDGETPU_PERDIE_EVENT_LOGS_AVAILABLE then
      (0, client', [telemetry_unset_event GCIP_TELEMETRY_LOG])
    else if event_id =? EDGETPU_PERDIE_EVENT_TRACES_AVAILABLE then
      (0, client', [telemetry_unset_event GCIP_TELEMETRY_TRACE])
    else (- EINVAL, client', []).

(** The two per-die events. *)
Definition is_perdie_event (event_id : Z) : Prop :=
  event_id = EDGETPU_PERDIE_EVENT_LOGS_AVAILABLE \/
  event_id = EDGETPU_PERDIE_EVENT_TRACES_AVAILABLE.

(** The telemetry type that [edgetpu_client_remove] unsets for an event,
    in the encoding of its call. *)
Definition unsets_log (event_id : Z) : bool :=
  event_id =? EDGETPU_PERDIE_EVENT_LOGS_AVAILABLE.

Definition client_after {A : Type} (r : Z * edgetpu_client * A)
  : edgetpu_client := snd (fst r).

(** A client that registered nothing, in a group, holding no wakelock. *)
Definition fresh_client : edgetpu_client :=
  {| count := 1; group := Some 2%nat;
     wakelock := {| req_count := 0; mmap_events := 0 |};
     perdie_events := 0 |}.

(** *** Properties of the per-die events *)

Lemma bit_test a k :
  0 <= k -> (Z.land a (Z.shiftl 1 k) =? 0) = negb (Z.testbit a k).
Proof.
  intros Hk. rewrite Z.shiftl_1_l.
  destruct (Z.testbit a k) eqn:Hbit; cbn [negb].
  - apply Z.eqb_neq. intros Hzero.
    assert (Hk' : Z.testbit (Z.land a (2 ^ k)) k = true).
    { rewrite Z.land_spec, Hbit, Z.pow2_bits_true by lia. reflexivity. }
    rewrite Hzero, Z.bits_0 in Hk'. discriminate.
  - apply Z.eqb_eq. apply Z.bits_inj'. intros n Hn.
    rewrite Z.land_spec, Z.bits_0, Z.pow2_bits_eqb by lia.
    destruct (Z.eqb_spec k n) as [<-|_].
    + now rewrite Hbit.
    + apply andb_false_r.
Qed.

Lemma perdie_event_set_bit c id :
  0 <= perdie_event_id_to_num id ->
  perdie_event_set c id
  = Z.testbit (perdie_events c) (perdie_event_id_to_num id).
Proof.
  intros Hk. unfold perdie_event_set. rewrite bit_test by exact Hk.
  apply negb_involutive.
Qed.

Lemma perdie_num_valid id :
  is_perdie_event id -> perdie_num id = perdie_event_id_to_num id /\
                        0 <= perdie_event_id_to_num id < 2.
Proof.
  intros [->| ->]; vm_compute; repeat split; discriminate.
Qed.

Lemma perdie_num_invalid id :
  0 <= id < 2 ^ 32 -> ~ is_perdie_event id ->
  (perdie_num id >=? EDGETPU_NUM_PERDIE_EVENTS) = true.
Proof.
  intros Hid Hnot. unfold perdie_num, EDGETPU_NUM_PERDIE_EVENTS.
  unfold is_perdie_event, EDGETPU_PERDIE_EVENT_LOGS_AVAILABLE,
    EDGETPU_PERDIE_EVENT_TRACES_AVAILABLE in *.
  change (2 ^ 32) with 4294967296 in *.
  apply Z.geb_le.
  destruct (Z.lt_ge_cases id 4096) as [Hlow|Hhigh].
  - replace ((id - 4096) mod 4294967296) with (id - 4096 + 4294967296);
      [lia|].
    apply Z.mod_unique with (q := -1); lia.
  - rewrite Z.mod_small by lia. lia.
Qed.

(** [edgetpu_client_remove] unsets the telemetry event of a kind exactly
    when the client's bit for it is set. *)
Lemma remove_unsets client (log_type : bool) :
  In (edgetpu_telemetry_unset_event log_type) (edgetpu_client_remove client)
  <-> perdie_event_set client
        (if log_type then EDGETPU_PERDIE_EVENT_LOGS_AVAILABLE
         else EDGETPU_PERDIE_EVENT_TRACES_AVAILABLE) = true.
Proof.
  unfold edgetpu_client_remove. cbv zeta.
  rewrite !in_app_iff.
  assert (Hloop : ~ In (edgetpu_telemetry_unset_event log_type)
                       (pm_put_loop (req_count (wakelock client)))).
  { unfold pm_put_loop. intros Hin. apply repeat_spec in Hin. discriminate. }
  destruct log_type; cbv iota;
    destruct (perdie_event_set client EDGETPU_PERDIE_EVENT_LOGS_AVAILABLE);
    destruct (perdie_event_set client EDGETPU_PERDIE_EVENT_TRACES_AVAILABLE);
    destruct (group client);
    destruct (req_count (wakelock client) =? 0);
    unfold client_put; cbn;
    intuition (try discriminate; try congruence).
Qed.

(** X16: for an event id that fits the [__u32] of the ioctl argument,
    [edgetpu_ioctl_set_perdie_eventfd] registers exactly the two per-die
    events: for one of them it sets the client's bit for the event and
    returns what [edgetpu_telemetry_set_event] returns (the bit is set also
    when that call fails); for any other id, also one below 0x1000, and
    when the argument cannot be copied in, it fails with -EINVAL
    (-EFAULT) and changes nothing. *)
Theorem perdie_event_ids_checked :
  forall copy_ok event_id eventfd set_ret client,
    0 <= event_id < 2 ^ 32 ->
    (copy_ok = true -> is_perdie_event event_id ->
     fst (fst (edgetpu_ioctl_set_perdie_eventfd
                 copy_ok event_id eventfd set_ret client)) = set_ret /\
     perdie_event_set
       (client_after (edgetpu_ioctl_set_perdie_eventfd
                        copy_ok event_id eventfd set_ret client))
       event_id = true /\
     length (snd (edgetpu_ioctl_set_perdie_eventfd
                    copy_ok event_id eventfd set_ret client)) = 1%nat) /\
    (copy_ok = false \/ ~ is_perdie_event event_id ->
     edgetpu_ioctl_set_perdie_eventfd copy_ok event_id eventfd set_ret client
     = (if copy_ok then - EINVAL else - EFAULT, client, [])).
Proof.
  intros copy_ok event_id eventfd set_ret client Hid. split.
  - intros -> Hev.
    destruct (perdie_num_valid event_id Hev) as [Hnum Hrange].
    unfold edgetpu_ioctl_set_perdie_eventfd, client_after. cbn [negb].
    rewrite Hnum.
    replace (perdie_event_id_to_num event_id >=? EDGETPU_NUM_PERDIE_EVENTS)
      with false
      by (symmetry; rewrite Z.geb_leb; apply Z.leb_gt;
          unfold EDGETPU_NUM_PERDIE_EVENTS; lia).
    cbv zeta.
    assert (Hbit : perdie_event_set
                     (set_perdie_events client
                        (Z.lor (perdie_events client)
                           (Z.shiftl 1 (perdie_event_id_to_num event_id))))
                     event_id = true).
    { rewrite perdie_event_set_bit by lia. cbn [perdie_events set_perdie_events].
      rewrite Z.lor_spec, Z.shiftl_1_l, Z.pow2_bits_true by lia.
      apply orb_true_r. }
    destruct Hev as [->| ->]; cbn; auto.
  - intros [-> | Hnot]; [reflexivity|].
    unfold edgetpu_ioctl_set_perdie_eventfd.
    destruct copy_ok; [|reflexivity]. cbn [negb].
    now rewrite perdie_num_invalid.
Qed.

Lemma perdie_event_ids_checked_witness :
  0 <= 0 < 2 ^ 32 /\ ~ is_perdie_event 0 /\
  edgetpu_ioctl_set_perdie_eventfd true 0 5 0 fresh_client
  = (- EINVAL, fresh_client, []) /\
  is_perdie_event 4097 /\
  perdie_events
    (client_after (edgetpu_ioctl_set_perdie_eventfd true 4097 5 (- 9)
                     fresh_client)) = 2.
Proof.
  assert (Hid : 0 <= 0 < 2 ^ 32) by lia.
  assert (Hnot : ~ is_perdie_event 0)
    by (intros [H|H]; vm_compute in H; discriminate H).
  split; [exact Hid|]. split; [exact Hnot|]. split.
  - apply (perdie_event_ids_checked true 0 5 0 fresh_client Hid).
    now right.
  - split; [right; reflexivity | reflexivity].
Defined.

(** X17: a per-die event that a client has registered is unset by
    [edgetpu_client_remove] (whether or not the registration with the
    telemetry code succeeded), one that it has unregistered again is not,
    and registering or unregistering one event does not change what
    removal does for the other. *)
Theorem client_remove_unsets_registered_events :
  forall event_id eventfd set_ret client,
    is_perdie_event event_id ->
    In (edgetpu_telemetry_unset_event (unsets_log event_id))
       (edgetpu_client_remove
          (client_after (edgetpu_ioctl_set_perdie_eventfd
                           true event_id eventfd set_ret client))) /\
    ~ In (edgetpu_telemetry_unset_event (unsets_log event_id))
         (edgetpu_client_remove
            (client_after (edgetpu_ioctl_unset_perdie_eventfd
                             event_id client))) /\
    (In (edgetpu_telemetry_unset_event (negb (unsets_log event_id)))
        (edgetpu_client_remove
           (client_after (edgetpu_ioctl_set_perdie_eventfd
                            true event_id eventfd set_ret client)))
     <-> In (edgetpu_telemetry_unset_event (negb (unsets_log event_id)))
            (edgetpu_client_remove client)) /\
    (In (edgetpu_telemetry_unset_event (negb (unsets_log event_id)))
        (edgetpu_client_remove
           (client_after (edgetpu_ioctl_unset_perdie_eventfd
                            event_id client)))
     <-> In (edgetpu_telemetry_unset_event (negb (unsets_log event_id)))
            (edgetpu_client_remove client)).
Proof.
  intros event_id eventfd set_ret client Hev.
  rewrite !remove_unsets.
  destruct Hev as [->| ->];
    unfold edgetpu_ioctl_set_perdie_eventfd, edgetpu_ioctl_unset_perdie_eventfd,
      client_after, unsets_log;
    cbn [negb fst snd];
    change (perdie_num EDGETPU_PERDIE_EVENT_LOGS_AVAILABLE) with 0;
    change (perdie_num EDGETPU_PERDIE_EVENT_TRACES_AVAILABLE) with 1;
    cbn [Z.geb Z.compare Z.eqb fst snd negb Pos.compare Pos.compare_cont
         EDGETPU_NUM_PERDIE_EVENTS EDGETPU_PERDIE_EVENT_LOGS_AVAILABLE
         EDGETPU_PERDIE_EVENT_TRACES_AVAILABLE Pos.eqb];
    rewrite !perdie_event_set_bit by (vm_compute; discriminate);
    cbn [perdie_events set_perdie_events];
    change (perdie_event_id_to_num 4096) with 0;
    change (perdie_event_id_to_num 4097) with 1;
    rewrite ?Z.lor_spec, ?Z.land_spec, ?Z.lnot_spec by lia;
    rewrite ?Z.shiftl_1_l; change (2 ^ 0) with 1; change (2 ^ 1) with 2;
    change (Z.testbit 1 0) with true; change (Z.testbit 1 1) with false;
    change (Z.testbit 2 0) with false; change (Z.testbit 2 1) with true;
    cbn [negb];
    rewrite ?orb_true_r, ?orb_false_r, ?andb_true_r, ?andb_false_r;
    repeat split; intros; try assumption; try reflexivity; try discriminate.
Qed.

Lemma client_remove_unsets_registered_events_witness :
  is_perdie_event 4096 /\
  In (edgetpu_telemetry_unset_event true)
     (edgetpu_client_remove
        (client_after (edgetpu_ioctl_set_perdie_eventfd
                         true 4096 5 (- 9) fresh_client))) /\
  ~ In (edgetpu_telemetry_unset_event true)
       (edgetpu_client_remove fresh_client).
Proof.
  assert (Hev : is_perdie_event 4096) by (left; reflexivity).
  split; [exact Hev|]. split.
  - exact (proj1 (client_remove_unsets_registered_events
                    4096 5 (- 9) fresh_client Hev)).
  - vm_compute. intuition discriminate.
Defined.

End PerDie.

(** ** Device files of the interfaces ([edgetpu-fs.c]) *)

Module Cdev.

(** What the kernel answers while interface [i] is added: the return
    value of [cdev_add], the error of [device_create] (0 for a valid
    pointer), and whether the interface has a name of its own. *)
Record iface_outcome := {
  cdev_add_ret : Z;
  device_create_err : Z;
  named : bool                  (* etiparams->name != NULL *)
}.

(** The calls of [edgetpu_fs_add] and [edgetpu_fs_remove]; [i] is the
    index of the interface in [etdev->etiface]. *)
Inductive fs_call :=
| cdev_add (i : nat) (ret : Z)
| device_create (i : nat) (err : Z)
| cdev_del (i : nat)
| debugfs_create_symlink (i : nat)
| device_add_group (ret : Z)
| edgetpu_fs_setup_debugfs
| device_remove_group
| debugfs_remove (i : nat)
| device_destroy (i : nat)
| debugfs_remove_recursive.

(** [edgeptu_fs_add_interface] for interface [i]. *)
Definition edgeptu_fs_add_interface (i : nat) (o : iface_outcome)
  : Z * list fs_call :=
  if negb (cdev_add_ret o =? 0) then
    (cdev_add_ret o, [cdev_add i (cdev_add_ret o)])
  else if negb (device_create_err o =? 0) then
    (device_create_err o,
     [cdev_add i 0; device_create i (device_create_err o); cdev_del i])
  else
    (0, [cdev_add i 0; device_create i 0] ++
        (if named o then [debugfs_create_symlink i] else [])).

(** The [for] loop of [edgetpu_fs_add] from interface [i] on: the return
    value, the number of interfaces it counted in [etdev->num_ifaces] and
    the calls. *)
Fixpoint add_interfaces (i : nat) (os : list iface_outcome)
  : Z * nat * list fs_call :=
  match os with
  | [] => (0, 0%nat, [])
  | o :: rest =>
      let (ret, tr) := edgeptu_fs_add_interface i o in
      if negb (ret =? 0) then (ret, 0%nat, tr)
      else
        let '(r, n, tr') := add_interfaces (S i) rest in
        (r, S n, tr ++ tr')
  end.

(** [edgetpu_fs_add] for [num_ifaces = length os]: return value,
    [etdev->num_ifaces] afterwards, calls. *)
Definition edgetpu_fs_add (os : list iface_outcome) (add_group_ret : Z)
  : Z * nat * list fs_call :=
  let '(ret, n, tr) := add_interfaces 0 os in
  if negb (ret =? 0) then (ret, n, tr)
  else (0, n, tr ++ [device_add_group add_group_ret;
                     edgetpu_fs_setup_debugfs]).

(** [edgetpu_fs_remove] on a device with [num_ifaces] interfaces. *)
Definition edgetpu_fs_remove (num_ifaces : nat) : list fs_call :=
  device_remove_group ::
  flat_map (fun i => [debugfs_remove i; device_destroy i; cdev_del i])
           (seq 0 num_ifaces) ++
  [debugfs_remove_recursive].

Definition count_calls (p : fs_call -> bool) (tr : list fs_call) : nat :=
  length (filter p tr).

(** The calls that add, delete, create and destroy for interface [j]. *)
Definition adds (j : nat) (c : fs_call) : bool :=
  match c with cdev_add i ret => Nat.eqb i j && (ret =? 0) | _ => false end.
Definition deletes (j : nat) (c : fs_call) : bool :=
  match c with cdev_del i => Nat.eqb i j | _ => false end.
Definition creates (j : nat) (c : fs_call) : bool :=
  match c with
  | device_create i err => Nat.eqb i j && (err =? 0)
  | _ => false
  end.
Definition destroys (j : nat) (c : fs_call) : bool :=
  match c with device_destroy i => Nat.eqb i j | _ => false end.

(** Whether interface [j] is one of the [n] interfaces from [i] on. *)
Definition among (i n j : nat) : nat :=
  if Nat.leb i j && Nat.ltb j (i + n) then 1%nat else 0%nat.

(** Three interfaces, the last of which cannot get its device node. *)
Definition three_ifaces : list iface_outcome :=
  [{| cdev_add_ret := 0; device_create_err := 0; named := false |};
   {| cdev_add_ret := 0; device_create_err := 0; named := true |};
   {| cdev_add_ret := 0; device_create_err := - 12; named := true |}].

(** *** Properties of the interface files *)

Lemma count_calls_app p a b :
  count_calls p (a ++ b) = (count_calls p a + count_calls p b)%nat.
Proof. unfold count_calls. now rewrite filter_app, length_app. Qed.

Lemma among_step i n j :
  among i (S n) j
  = ((if Nat.eqb i j then 1 else 0) + among (S i) n j)%nat.
Proof.
  unfold among.
  destruct (Nat.eqb_spec i j), (Nat.leb_spec i j), (Nat.leb_spec (S i) j),
    (Nat.ltb_spec j (i + S n)), (Nat.ltb_spec j (S i + n));
    cbn; try reflexivity; lia.
Qed.

Lemma among_none i j : among i 0 j = 0%nat.
Proof.
  unfold among.
  destruct (Nat.leb_spec i j), (Nat.ltb_spec j (i + 0)); cbn;
    try reflexivity; lia.
Qed.

Lemma add_interfaces_counts os : forall i j,
  count_calls (adds j) (snd (add_interfaces i os))
  = (count_calls (deletes j) (snd (add_interfaces i os))
     + among i (snd (fst (add_interfaces i os))) j)%nat /\
  count_calls (creates j) (snd (add_interfaces i os))
  = among i (snd (fst (add_interfaces i os))) j /\
  count_calls (destroys j) (snd (add_interfaces i os)) = 0%nat /\
  (fst (fst (add_interfaces i os)) = 0 <->
   snd (fst (add_interfaces i os)) = length os).
Proof.
  induction os as [|o rest IH]; intros i j.
  - cbn. rewrite among_none. repeat split; reflexivity.
  - cbn [add_interfaces]. unfold edgeptu_fs_add_interface.
    destruct (cdev_add_ret o =? 0) eqn:Hadd; cbn [negb].
    + destruct (device_create_err o =? 0) eqn:Hcreate; cbn [negb].
      * cbn [Z.eqb negb].
        specialize (IH (S i) j).
        destruct (add_interfaces (S i) rest) as [[r n] tr'].
        cbn [fst snd] in *.
        destruct IH as (Ha & Hc & Hd & Hr).
        rewrite !count_calls_app, Ha, Hc, Hd, among_step.
        unfold count_calls.
        destruct (named o); cbn; destruct (Nat.eqb i j); cbn;
          (split; [lia | split; [lia | split; [lia|]]]);
          (split; intros H;
           [f_equal; now apply Hr | apply Hr; now inversion H]).
      * rewrite Hcreate. cbn [negb fst snd]. rewrite among_none.
        unfold count_calls. cbn. rewrite Hcreate.
        apply Z.eqb_neq in Hcreate.
        destruct (Nat.eqb i j); cbn;
          (split; [lia | split; [lia | split; [lia|]]]);
          (split; intros H; [contradiction | discriminate]).
    + rewrite Hadd. cbn [negb fst snd]. rewrite among_none.
      unfold count_calls. cbn. rewrite Hadd.
      apply Z.eqb_neq in Hadd.
      destruct (Nat.eqb i j); cbn;
        (split; [lia | split; [lia | split; [lia|]]]);
        (split; intros H; [contradiction | discriminate]).
Qed.

Lemma remove_counts n : forall j,
  count_calls (deletes j) (edgetpu_fs_remove n) = among 0 n j /\
  count_calls (destroys j) (edgetpu_fs_remove n) = among 0 n j /\
  count_calls (adds j) (edgetpu_fs_remove n) = 0%nat /\
  count_calls (creates j) (edgetpu_fs_remove n) = 0%nat.
Proof.
  intros j. unfold edgetpu_fs_remove.
  change (device_remove_group :: ?l) with ([device_remove_group] ++ l).
  rewrite !count_calls_app.
  assert (Hloop : forall i,
             count_calls (deletes j)
               (flat_map (fun i => [debugfs_remove i; device_destroy i;
                                    cdev_del i]) (seq i n)) = among i n j /\
             count_calls (destroys j)
               (flat_map (fun i => [debugfs_remove i; device_destroy i;
                                    cdev_del i]) (seq i n)) = among i n j /\
             count_calls (adds j)
               (flat_map (fun i => [debugfs_remove i; device_destroy i;
                                    cdev_del i]) (seq i n)) = 0%nat /\
             count_calls (creates j)
               (flat_map (fun i => [debugfs_remove i; device_destroy i;
                                    cdev_del i]) (seq i n)) = 0%nat).
  { induction n as [|n IH]; intros i.
    - cbn. rewrite among_none. repeat split.
    - cbn [seq flat_map]. rewrite !count_calls_app.
      destruct (IH (S i)) as (H1 & H2 & H3 & H4).
      rewrite H1, H2, H3, H4, among_step. unfold count_calls. cbn.
      destruct (Nat.eqb i j); cbn; repeat split; lia. }
  destruct (Hloop 0%nat) as (H1 & H2 & H3 & H4).
  rewrite H1, H2, H3, H4. unfold count_calls. cbn. repeat split; lia.
Qed.

(** X18: whatever happens while [edgetpu_fs_add] adds the interfaces,
    [edgetpu_fs_remove] afterwards takes back exactly what was added: over
    the two calls together every character device that was added is
    deleted exactly as often, and every device node that was created is
    destroyed exactly as often, also when the add stopped at an interface
    that failed.  [edgetpu_fs_add] returns 0 exactly when it has counted
    every interface, whatever [device_add_group] returns. *)
Theorem fs_remove_takes_back_fs_add :
  forall os add_group_ret j,
    count_calls (deletes j)
      (snd (edgetpu_fs_add os add_group_ret)
       ++ edgetpu_fs_remove (snd (fst (edgetpu_fs_add os add_group_ret))))
    = count_calls (adds j)
        (snd (edgetpu_fs_add os add_group_ret)
         ++ edgetpu_fs_remove (snd (fst (edgetpu_fs_add os add_group_ret))))
    /\
    count_calls (destroys j)
      (snd (edgetpu_fs_add os add_group_ret)
       ++ edgetpu_fs_remove (snd (fst (edgetpu_fs_add os add_group_ret))))
    = count_calls (creates j)
        (snd (edgetpu_fs_add os add_group_ret)
         ++ edgetpu_fs_remove (snd (fst (edgetpu_fs_add os add_group_ret))))
    /\
    (fst (fst (edgetpu_fs_add os add_group_ret)) = 0 <->
     snd (fst (edgetpu_fs_add os add_group_ret)) = length os).
Proof.
  intros os add_group_ret j. unfold edgetpu_fs_add.
  pose proof (add_interfaces_counts os 0 j) as (Ha & Hc & Hd & Hr).
  destruct (add_interfaces 0 os) as [[ret n] tr]. cbn [fst snd] in *.
  destruct (remove_counts n j) as (R1 & R2 & R3 & R4).
  destruct (ret =? 0) eqn:E; cbn [negb fst snd];
    rewrite !count_calls_app, Ha, Hc, Hd, R1, R2, R3, R4;
    try (unfold count_calls; cbn);
    (split; [lia | split; [lia|]]).
  - split; [|reflexivity]. intros _. apply Hr. now apply Z.eqb_eq.
  - exact Hr.
Qed.

Lemma fs_remove_takes_back_fs_add_witness :
  fst (edgetpu_fs_add three_ifaces 0) = (- 12, 2%nat) /\
  snd (edgetpu_fs_add three_ifaces 0) ++ edgetpu_fs_remove 2
  = [cdev_add 0 0; device_create 0 0;
     cdev_add 1 0; device_create 1 0; debugfs_create_symlink 1;
     cdev_add 2 0; device_create 2 (- 12); cdev_del 2;
     device_remove_group;
     debugfs_remove 0; device_destroy 0; cdev_del 0;
     debugfs_remove 1; device_destroy 1; cdev_del 1;
     debugfs_remove_recursive] /\
  count_calls (deletes 2)
    (snd (edgetpu_fs_add three_ifaces 0) ++ edgetpu_fs_remove 2) = 1%nat.
Proof.
  split; [reflexivity|]. split; [reflexivity|].
  destruct (fs_remove_takes_back_fs_add three_ifaces 0 2) as [Hdel _].
  exact Hdel.
Defined.

End Cdev.

(** ** Fence arrays of a VII command ([edgetpu-fs.c]) *)

Module Fences.

Definition EDGETPU_VII_COMMAND_MAX_NUM_FENCES : Z := 64.

(** A [struct gcip_fence], as far as the helper looks at it. *)
Record gcip_fence := {
  in_kernel : bool;             (* type == GCIP_IN_KERNEL_FENCE *)
  is_dma_fence_array : bool     (* dma_fence_is_array(fence.ikf) *)
}.

(** A [struct gcip_fence_array *]: NULL, an [ERR_PTR] or an array. *)
Inductive fence_array_ptr :=
| NullArray
| ErrPtr (err : Z)
| Array (fences : list gcip_fence).

Inductive fence_call :=
| kcalloc (ok : bool)
| copy_from_user (ok : bool)
| gcip_fence_array_create
| gcip_fence_array_put
| kfree.

(** The test of the [for] loop on one fence. *)
Definition is_ikf_array (fence : gcip_fence) : bool :=
  in_kernel fence && is_dma_fence_array fence.

(** [get_fence_array_from_user]: [created] is what
    [gcip_fence_array_create] answers (an [ERR_PTR] or an array). *)
Definition get_fence_array_from_user
  (count : Z) (kcalloc_ok copy_ok : bool) (created : fence_array_ptr)
  (reject_dma_fence_array : bool) : fence_array_ptr * list fence_call :=
  if count =? 0 then (NullArray, [])
  else if count >? EDGETPU_VII_COMMAND_MAX_NUM_FENCES
  then (ErrPtr (- EINVAL), [])
  else if negb kcalloc_ok then (ErrPtr (- ENOMEM), [kcalloc false])
  else if negb copy_ok
  then (ErrPtr (- EFAULT), [kcalloc true; copy_from_user false; kfree])
  else
    let pre := [kcalloc true; copy_from_user true; gcip_fence_array_create] in
    match created with
    | Array fences =>
        if reject_dma_fence_array && existsb is_ikf_array fences
        then (ErrPtr (- EINVAL), pre ++ [gcip_fence_array_put; kfree])
        else (created, pre ++ [kfree])
    | _ => (created, pre ++ [kfree])
    end.

Definition count_calls (p : fence_call -> bool) (tr : list fence_call) : nat :=
  length (filter p tr).

Definition is_kcalloc_ok (c : fence_call) : bool :=
  match c with kcalloc true => true | _ => false end.
Definition is_kfree (c : fence_call) : bool :=
  match c with kfree => true | _ => false end.
Definition is_array_put (c : fence_call) : bool :=
  match c with gcip_fence_array_put => true | _ => false end.

Definition plain_fence : gcip_fence :=
  {| in_kernel := true; is_dma_fence_array := false |}.
Definition array_fence : gcip_fence :=
  {| in_kernel := true; is_dma_fence_array := true |}.

(** *** Properties of the helper *)

(** Settles the statement below on one path through the helper. *)
Ltac fence_path :=
  cbn; repeat split; intros;
  repeat match goal with
         | H : _ \/ _ |- _ => destruct H
         | H : Array _ = Array _ |- _ => inversion H; subst; clear H
         | H : existsb _ _ = false, Hin : In ?f _ |- is_ikf_array ?f = false =>
             destruct (is_ikf_array f) eqn:?; [exfalso|reflexivity]
         | H : existsb is_ikf_array ?l = false,
           Hin : In ?f ?l, Hf : is_ikf_array ?f = true |- _ =>
             assert (existsb is_ikf_array l = true)
               by (apply existsb_exists; now exists f);
             congruence
         end;
  try discriminate; try lia; try reflexivity; auto.

(** X19: [get_fence_array_from_user] frees the temporary array of file
    descriptors on every path on which it allocated it; it answers NULL
    without doing anything for a count of 0 and -EINVAL without allocating
    for more than 64 fences.  When it answers an array, that is the array
    [gcip_fence_array_create] made, handed over without a put, and, if DMA
    fence arrays are to be rejected, none of its fences is an in-kernel DMA
    fence array; when the created array holds one, the array is put once
    and the answer is -EINVAL. *)
Theorem fence_array_from_user :
  forall count kcalloc_ok copy_ok created reject,
    created <> NullArray ->
    let r := get_fence_array_from_user count kcalloc_ok copy_ok created reject in
    count_calls is_kfree (snd r) = count_calls is_kcalloc_ok (snd r) /\
    (fst r = NullArray <-> count = 0) /\
    (count = 0 \/ EDGETPU_VII_COMMAND_MAX_NUM_FENCES < count -> snd r = []) /\
    (EDGETPU_VII_COMMAND_MAX_NUM_FENCES < count -> fst r = ErrPtr (- EINVAL)) /\
    (forall fences, fst r = Array fences ->
       created = Array fences /\
       count_calls is_array_put (snd r) = 0%nat /\
       (reject = true -> forall f, In f fences -> is_ikf_array f = false)) /\
    (forall fences f,
       0 < count <= EDGETPU_VII_COMMAND_MAX_NUM_FENCES ->
       kcalloc_ok = true -> copy_ok = true -> reject = true ->
       created = Array fences -> In f fences -> is_ikf_array f = true ->
       fst r = ErrPtr (- EINVAL) /\
       count_calls is_array_put (snd r) = 1%nat).
Proof.
  intros count kcalloc_ok copy_ok created reject Hnonnull r.
  subst r. unfold get_fence_array_from_user,
             EDGETPU_VII_COMMAND_MAX_NUM_FENCES in *.
  destruct (Z.eqb_spec count 0) as [Hz|Hnz]; [fence_path|].
  destruct (Z.gtb_spec count 64) as [Hbig|Hsmall]; [fence_path|].
  destruct kcalloc_ok; cbn [negb]; [|fence_path].
  destruct copy_ok; cbn [negb]; [|fence_path].
  cbv zeta.
  destruct created as [|err|fences]; [now elim Hnonnull|fence_path|].
  destruct reject; cbn [andb]; [|fence_path].
  destruct (existsb is_ikf_array fences) eqn:Hex; fence_path.
Qed.

Lemma fence_array_from_user_witness :
  Array [plain_fence; array_fence] <> NullArray /\
  get_fence_array_from_user 2 true true (Array [plain_fence; array_fence]) true
  = (ErrPtr (- EINVAL),
     [kcalloc true; copy_from_user true; gcip_fence_array_create;
      gcip_fence_array_put; kfree]) /\
  fst (get_fence_array_from_user 2 true true
         (Array [plain_fence; array_fence]) false)
  = Array [plain_fence; array_fence] /\
  count_calls is_array_put
    (snd (get_fence_array_from_user 2 true true
            (Array [plain_fence; array_fence]) false)) = 0%nat.
Proof.
  assert (Hnn : Array [plain_fence; array_fence] <> NullArray)
    by discriminate.
  split; [exact Hnn|]. split; [reflexivity|]. split; [reflexivity|].
  destruct (fence_array_from_user 2 true true
              (Array [plain_fence; array_fence]) false Hnn)
    as (_ & _ & _ & _ & Hkept & _).
  exact (proj1 (proj2 (Hkept _ eq_refl))).
Defined.

End Fences.

(** ** Power references over a session of the device file
       ([edgetpu-fs.c], [edgetpu-core.c]) *)

Module Power.

Import Internal.
Import Fs.
Import Core.

(** Modelled from the spec: [edgetpu_wakelock_init] ([edgetpu-wakelock.c]
    is not among the sources) leaves a wakelock with no request
    outstanding and no mmap event counted. *)
Definition edgetpu_wakelock_init : edgetpu_wakelock :=
  {| req_count := 0; mmap_events := 0 |}.

(** [edgetpu_client_add]: NULL stands for [ERR_PTR(-ENOMEM)]; the new
    client holds one reference, belongs to no group and has registered no
    per-die event. *)
Definition edgetpu_client_add (list_entry_ok client_ok : bool)
  : option edgetpu_client :=
  if negb list_entry_ok then None
  else if negb client_ok then None
  else Some {| count := 1; group := None;
               wakelock := edgetpu_wakelock_init; perdie_events := 0 |}.

(** [edgetpu_fs_open] with [edgetpu_open]: return value,
    [file->private_data], calls.  [format_known] tells whether
    [etdev->vii_format] is already initialised. *)
Definition edgetpu_fs_open (format_known : bool) (pm_get_ret : Z)
  (list_entry_ok client_ok : bool)
  : Z * option edgetpu_client * list call :=
  if negb format_known && negb (pm_get_ret =? 0) then
    (pm_get_ret, None, [edgetpu_pm_get pm_get_ret])
  else
    let pre := if format_known then []
               else [edgetpu_pm_get 0; edgetpu_pm_put] in
    match edgetpu_client_add list_entry_ok client_ok with
    | None => (- ENOMEM, None, pre)
    | Some client => (0, Some client, pre)
    end.

(** [edgetpu_fs_release]. *)
Definition edgetpu_fs_release (private_data : option edgetpu_client)
  : Z * list call :=
  match private_data with
  | None => (0, [])
  | Some client => (0, edgetpu_client_remove client)
  end.

(** The two wakelock ioctls, with the surroundings of each acquire. *)
Inductive wakelock_ioctl :=
| Acquire (env : environment)
| Release.

Definition do_ioctl (op : wakelock_ioctl) (client : edgetpu_client)
  : Z * edgetpu_client * list call :=
  match op with
  | Acquire env => edgetpu_ioctl_acquire_wakelock env client
  | Release => edgetpu_ioctl_release_wakelock client
  end.

(** A sequence of wakelock ioctls on one client: the client afterwards and
    all the calls made. *)
Fixpoint do_ioctls (ops : list wakelock_ioctl) (client : edgetpu_client)
  : edgetpu_client * list call :=
  match ops with
  | [] => (client, [])
  | op :: rest =>
      let '(_, client1, tr) := do_ioctl op client in
      let (client2, tr') := do_ioctls rest client1 in
      (client2, tr ++ tr')
  end.

(** A session on the device file: open, wakelock ioctls, close.  When the
    open fails there is no file and nothing more happens. *)
Definition session (format_known : bool) (pm_get_ret : Z)
  (list_entry_ok client_ok : bool) (ops : list wakelock_ioctl)
  : list call :=
  let '(_, private_data, tr) :=
    edgetpu_fs_open format_known pm_get_ret list_entry_ok client_ok in
  match private_data with
  | None => tr
  | Some client =>
      let (client', tr') := do_ioctls ops client in
      tr ++ tr' ++ snd (edgetpu_fs_release (Some client'))
  end.

Definition is_pm_get_ok (c : call) : bool :=
  match c with edgetpu_pm_get ret => ret =? 0 | _ => false end.

(** Number of [edgetpu_pm_get] calls that took a power reference. *)
Definition pm_gets (tr : list call) : Z :=
  Z.of_nat (length (filter is_pm_get_ok tr)).

(** A wakelock as the driver keeps it: counts are not negative and no mmap
    event is counted while no request is outstanding. *)
Definition held_ok (w : edgetpu_wakelock) : Prop :=
  0 <= req_count w /\ 0 <= mmap_events w /\
  (req_count w = 0 -> mmap_events w = 0).

(** Surroundings in which the power-up of an acquire fails. *)
Definition pm_get_fails_env : environment :=
  {| copy_from_user_ok := true; copy_payload_ok := true;
     copy_to_user_ok := true; copy_payload_out_ok := true;
     use_ikv := true; vii_format := EDGETPU_VII_FORMAT_FLATBUFFER;
     callee_ret := 0; in_fence_err := 0; out_fence_err := 0;
     in_iif_err := 0; out_iif_err := 0; litebuf_inline := true;
     kzalloc_ok := true; iremap_alloc_ret := 0;
     thermal_suspended := false; pm_get_ret := - 5; attach_ret := 0 |}.

(** *** Properties of the power references *)

Lemma pm_gets_app a b : pm_gets (a ++ b) = pm_gets a + pm_gets b.
Proof. unfold pm_gets. rewrite filter_app, length_app. lia. Qed.

Lemma remove_puts client :
  0 <= req_count (wakelock client) ->
  pm_puts (edgetpu_client_remove client) = req_count (wakelock client) /\
  pm_gets (edgetpu_client_remove client) = 0.
Proof.
  intros Hheld.
  destruct (prefix_has_no_put client) as (_ & _ & Hnone).
  rewrite remove_split. split.
  - change (client_put client :: pm_put_loop (req_count (wakelock client)))
      with ([client_put client]
              ++ pm_put_loop (req_count (wakelock client))).
    rewrite !pm_puts_app, Hnone, pm_puts_loop by assumption. reflexivity.
  - rewrite pm_gets_app.
    assert (Hloop : forall k, pm_gets (client_put client
                                         :: repeat edgetpu_pm_put k) = 0).
    { unfold pm_gets. induction k as [|k IH]; [reflexivity | exact IH]. }
    unfold pm_put_loop. rewrite Hloop.
    unfold teardown_prefix.
    destruct (group client) as [g|];
      destruct (req_count (wakelock client) =? 0);
      destruct (perdie_event_set client EDGETPU_PERDIE_EVENT_LOGS_AVAILABLE);
      destruct (perdie_event_set client EDGETPU_PERDIE_EVENT_TRACES_AVAILABLE);
      reflexivity.
Qed.

(** One wakelock ioctl keeps the wakelock well-formed, and the power
    references it keeps are the change of the request count. *)
Lemma ioctl_balance op client :
  held_ok (wakelock client) ->
  held_ok (wakelock (snd (fst (do_ioctl op client)))) /\
  pm_gets (snd (do_ioctl op client)) - pm_puts (snd (do_ioctl op client))
  = req_count (wakelock (snd (fst (do_ioctl op client))))
    - req_count (wakelock client).
Proof.
  destruct client as [cnt g [rc me] pe].
  unfold held_ok. cbn [wakelock req_count mmap_events].
  intros (Hrc & Hme & Hzero).
  destruct op as [env|]; cbn [do_ioctl].
  - unfold edgetpu_ioctl_acquire_wakelock.
    destruct (thermal_suspended env);
      [cbn; repeat split; try assumption; lia|].
    destruct (Z.eqb_spec (pm_get_ret env) 0) as [Hget|Hget]; cbn [negb].
    2:{ unfold pm_gets, pm_puts. cbn.
        apply Z.eqb_neq in Hget. rewrite Hget. cbn.
        repeat split; try assumption; lia. }
    unfold edgetpu_wakelock_acquire, set_wakelock.
    cbn [wakelock req_count mmap_events Internal.count Internal.group
         perdie_events].
    destruct (Z.gtb_spec (rc + 1) INT_MAX) as [Hover|Hroom].
    + assert (Hneg : (- EOVERFLOW <? 0) = true) by reflexivity.
      rewrite Hneg. unfold pm_gets, pm_puts. cbn.
      repeat split; try assumption; lia.
    + destruct (Z.ltb_spec rc 0) as [Hn|_]; [lia|].
      destruct (Z.eqb_spec rc 0) as [Hfirst|Hmore].
      * subst rc. specialize (Hzero eq_refl). subst me.
        destruct g as [g|].
        -- destruct (Z.eqb_spec (attach_ret env) 0) as [Hat|Hat];
             cbn [negb]; unfold pm_gets, pm_puts; cbn;
             repeat split; try lia; intros; lia.
        -- unfold pm_gets, pm_puts; cbn; repeat split; try lia;
             intros; lia.
      * unfold pm_gets, pm_puts; cbn; repeat split; try lia; intros; lia.
  - unfold edgetpu_ioctl_release_wakelock, edgetpu_wakelock_release,
      set_wakelock.
    cbn [wakelock req_count mmap_events Internal.count Internal.group
         perdie_events].
    destruct (Z.eqb_spec rc 0) as [Hnone|Hsome].
    + assert (Hneg : (- EINVAL <? 0) = true) by reflexivity.
      rewrite Hneg. unfold pm_gets, pm_puts. cbn.
      repeat split; try assumption; lia.
    + destruct (Z.eqb_spec rc 1) as [Hlast|Hmore];
        destruct (Z.ltb_spec 0 me) as [Hev|Hnoev]; cbn [andb].
      * assert (Hneg : (- EAGAIN <? 0) = true) by reflexivity.
        rewrite Hneg. unfold pm_gets, pm_puts. cbn.
        repeat split; try assumption; lia.
      * destruct (Z.ltb_spec (rc - 1) 0) as [Hn|_]; [lia|].
        subst rc. cbn [Z.sub Z.eqb Z.add Z.opp Z.pos_sub].
        destruct g as [g|]; unfold pm_gets, pm_puts; cbn;
          repeat split; try lia; intros; lia.
      * destruct (Z.ltb_spec (rc - 1) 0) as [Hn|_]; [lia|].
        destruct (Z.eqb_spec (rc - 1) 0) as [Hz|_]; [lia|].
        unfold pm_gets, pm_puts; cbn; repeat split; try lia; intros; lia.
      * destruct (Z.ltb_spec (rc - 1) 0) as [Hn|_]; [lia|].
        destruct (Z.eqb_spec (rc - 1) 0) as [Hz|_]; [lia|].
        unfold pm_gets, pm_puts; cbn; repeat split; try lia; intros; lia.
Qed.

Lemma ioctls_balance ops : forall client,
  held_ok (wakelock client) ->
  held_ok (wakelock (fst (do_ioctls ops client))) /\
  pm_gets (snd (do_ioctls ops client)) - pm_puts (snd (do_ioctls ops client))
  = req_count (wakelock (fst (do_ioctls ops client)))
    - req_count (wakelock client).
Proof.
  induction ops as [|op rest IH]; intros client Hok.
  - cbn. split; [exact Hok | lia].
  - cbn [do_ioctls].
    destruct (ioctl_balance op client Hok) as [Hok1 Hbal1].
    destruct (do_ioctl op client) as [[ret client1] tr].
    cbn [fst snd] in Hok1, Hbal1.
    destruct (IH client1 Hok1) as [Hok2 Hbal2].
    destruct (do_ioctls rest client1) as [client2 tr'].
    cbn [fst snd] in *.
    split; [exact Hok2|].
    rewrite pm_gets_app, pm_puts_app. lia.
Qed.

(** X20: the request count of a client's wakelock is the number of power
    references its wakelock ioctls hold: over any sequence of acquire and
    release ioctls (succeeding or failing, with or without a group) the
    successful [edgetpu_pm_get] calls minus the [edgetpu_pm_put] calls
    equal the change of the count.  Hence over a whole session of the
    device file (open, wakelock ioctls, close) every power reference taken
    is released: [edgetpu_client_remove] puts back exactly what is still
    held at close. *)
Theorem session_power_balanced :
  (forall ops client,
     held_ok (wakelock client) ->
     held_ok (wakelock (fst (do_ioctls ops client))) /\
     pm_gets (snd (do_ioctls ops client))
     - pm_puts (snd (do_ioctls ops client))
     = req_count (wakelock (fst (do_ioctls ops client)))
       - req_count (wakelock client)) /\
  (forall format_known pm_get_ret list_entry_ok client_ok ops,
     pm_gets (session format_known pm_get_ret list_entry_ok client_ok ops)
     = pm_puts (session format_known pm_get_ret list_entry_ok client_ok ops)).
Proof.
  split; [intros ops client; apply ioctls_balance|].
  intros format_known pm_get_ret list_entry_ok client_ok ops.
  unfold session, edgetpu_fs_open, edgetpu_client_add.
  destruct format_known; cbn [negb andb].
  - destruct list_entry_ok; cbn [negb]; [|reflexivity].
    destruct client_ok; cbn [negb]; [|reflexivity].
    set (client := {| count := 1; group := None;
                      wakelock := edgetpu_wakelock_init;
                      perdie_events := 0 |}).
    assert (Hok : held_ok (wakelock client))
      by (unfold held_ok; cbn; lia).
    destruct (ioctls_balance ops client Hok) as [Hok' Hbal].
    destruct (do_ioctls ops client) as [client' tr'].
    cbn [fst snd edgetpu_fs_release] in *.
    destruct (remove_puts client' (proj1 Hok')) as [Hputs Hgets].
    rewrite !pm_gets_app, !pm_puts_app, Hputs, Hgets.
    change (pm_gets []) with 0. change (pm_puts []) with 0.
    change (req_count (wakelock client)) with 0 in Hbal. lia.
  - destruct (Z.eqb_spec pm_get_ret 0) as [Hget|Hget]; cbn [negb].
    + destruct list_entry_ok; cbn [negb]; [|reflexivity].
      destruct client_ok; cbn [negb]; [|reflexivity].
      set (client := {| count := 1; group := None;
                        wakelock := edgetpu_wakelock_init;
                        perdie_events := 0 |}).
      assert (Hok : held_ok (wakelock client))
        by (unfold held_ok; cbn; lia).
      destruct (ioctls_balance ops client Hok) as [Hok' Hbal].
      destruct (do_ioctls ops client) as [client' tr'].
      cbn [fst snd edgetpu_fs_release] in *.
      destruct (remove_puts client' (proj1 Hok')) as [Hputs Hgets].
      rewrite !pm_gets_app, !pm_puts_app, Hputs, Hgets.
      change (pm_gets [edgetpu_pm_get 0; edgetpu_pm_put]) with 1.
      change (pm_puts [edgetpu_pm_get 0; edgetpu_pm_put]) with 1.
      change (req_count (wakelock client)) with 0 in Hbal. lia.
    + unfold pm_gets, pm_puts. cbn.
      apply Z.eqb_neq in Hget. now rewrite Hget.
Qed.

Lemma session_power_balanced_witness :
  session false 0 true true
    [Acquire quiet_env; Acquire pm_get_fails_env; Acquire quiet_env; Release]
  = [edgetpu_pm_get 0; edgetpu_pm_put;
     trace_point; edgetpu_pm_get 0; lock_group_lock; unlock_group_lock;
     trace_point;
     trace_point; edgetpu_pm_get (- 5); trace_point;
     trace_point; edgetpu_pm_get 0; lock_group_lock; unlock_group_lock;
     trace_point;
     trace_point; lock_group_lock; unlock_group_lock; edgetpu_pm_put;
     trace_point;
     lock_group_lock; unlock_group_lock; list_del_client;
     edgetpu_ext_client_remove; edgetpu_client_put true; edgetpu_pm_put] /\
  pm_gets (session false 0 true true
             [Acquire quiet_env; Acquire pm_get_fails_env;
              Acquire quiet_env; Release]) = 3 /\
  pm_puts (session false 0 true true
             [Acquire quiet_env; Acquire pm_get_fails_env;
              Acquire quiet_env; Release]) = 3.
Proof.
  split; [vm_compute; reflexivity|].
  split; [vm_compute; reflexivity|].
  rewrite <- (proj2 session_power_balanced false 0 true true).
  vm_compute. reflexivity.
Defined.

End Power.

(** ** What the group-scoped handlers give back ([edgetpu-fs.c]) *)

Module Handlers.

Import Internal.
Import Fs.

(** The group lock is taken only when free, dropped only when held, and
    free at the end. *)
Fixpoint lock_discipline (held : bool) (tr : list call) : bool :=
  match tr with
  | [] => negb held
  | lock_group_lock :: tl => negb held && lock_discipline true tl
  | unlock_group_lock :: tl => held && lock_discipline false tl
  | _ :: tl => lock_discipline held tl
  end.

Definition count_calls (p : call -> bool) (tr : list call) : nat :=
  length (filter p tr).

Definition is_group_get (c : call) : bool :=
  match c with edgetpu_device_group_get _ => true | _ => false end.
Definition is_group_put (c : call) : bool :=
  match c with edgetpu_device_group_put _ => true | _ => false end.
(** A fence array was obtained (possibly the NULL array of no fences). *)
Definition is_fence_array_got (c : call) : bool :=
  match c with get_fence_array_from_user err => err =? 0 | _ => false end.
Definition is_fence_array_put (c : call) : bool :=
  match c with gcip_fence_array_put => true | _ => false end.
Definition is_iremap_alloc (c : call) : bool :=
  match c with edgetpu_iremap_alloc ret => ret =? 0 | _ => false end.
Definition is_iremap_free (c : call) : bool :=
  match c with edgetpu_iremap_free => true | _ => false end.

(** The staging of a large litebuf command went through: the buffer was
    allocated and the payload copied into it. *)
Definition large_command_staged (env : environment) : bool :=
  negb (litebuf_inline env) && kzalloc_ok env
  && (iremap_alloc_ret env =? 0) && copy_payload_ok env.

(** Surroundings of a large litebuf command whose in-fences cannot be
    fetched. *)
Definition large_command_bad_fence_env : environment :=
  {| copy_from_user_ok := true; copy_payload_ok := true;
     copy_to_user_ok := true; copy_payload_out_ok := true;
     use_ikv := true; vii_format := EDGETPU_VII_FORMAT_LITEBUF;
     callee_ret := 0; in_fence_err := - 22; out_fence_err := 0;
     in_iif_err := 0; out_iif_err := 0; litebuf_inline := false;
     kzalloc_ok := true; iremap_alloc_ret := 0;
     thermal_suspended := false; pm_get_ret := 0; attach_ret := 0 |}.

(** *** Properties of the handlers *)

(** Splits on the tests of a handler one at a time and evaluates the
    calls of each path. *)
Ltac handler_paths :=
  repeat match goal with
         | |- context [if negb (?x =? 0) then _ else _] =>
             destruct (x =? 0) eqn:?; cbn [negb andb orb]; cbv iota
         | |- context [if ?c then _ else _] =>
             destruct c eqn:?; cbn [negb andb orb]; cbv iota
         | |- context [match ?o with Some _ => _ | None => _ end] =>
             destruct o eqn:?; cbv iota
         end;
  cbn;
  repeat match goal with
         | H : (?x =? 0) = _ |- context [?x =? 0] => rewrite H
         end;
  cbn; repeat split; try reflexivity; try discriminate.

Ltac unfold_handlers :=
  unfold edgetpu_ioctl_map_buffer, edgetpu_ioctl_unmap_buffer,
    edgetpu_ioctl_sync_buffer, edgetpu_ioctl_map_dmabuf,
    edgetpu_ioctl_unmap_dmabuf, edgetpu_ioctl_set_eventfd,
    edgetpu_ioctl_unset_eventfd, edgetpu_ioctl_sync_fence_create,
    edgetpu_ioctl_vii_command, edgetpu_ioctl_vii_response,
    edgetpu_ioctl_vii_litebuf_command, edgetpu_ioctl_vii_litebuf_response,
    lock_check_group_member, vii_unsupported.

(** X21: on every path of [edgetpu_ioctl] for a group-scoped command
    (through its guards and through every path of every handler, success
    or error, client with or without a group) the client's group lock is
    taken at most once and is released before the handler returns, every
    reference taken on the group is put back, and every fence array
    obtained from user space is put exactly once. *)
Theorem handlers_give_back :
  forall f cmd env,
    lock_discipline false (snd (edgetpu_ioctl f cmd env)) = true /\
    count_calls is_group_put (snd (edgetpu_ioctl f cmd env))
    = count_calls is_group_get (snd (edgetpu_ioctl f cmd env)) /\
    count_calls is_fence_array_put (snd (edgetpu_ioctl f cmd env))
    = count_calls is_fence_array_got (snd (edgetpu_ioctl f cmd env)).
Proof.
  intros [[[cnt g w pe]|] mode] cmd env;
    unfold edgetpu_ioctl; cbn [private_data];
    [|repeat split; reflexivity].
  destruct (edgetpu_ioctl_check_permissions _ cmd);
    cbn [negb]; cbv iota; [|repeat split; reflexivity].
  destruct env as [cfu cp ctu cpo ikv fmt cr ife ofe iie oie inl kz ir th pg att].
  destruct cmd; unfold_handlers;
    cbn [copy_from_user_ok copy_payload_ok copy_to_user_ok
         copy_payload_out_ok use_ikv vii_format callee_ret in_fence_err
         out_fence_err in_iif_err out_iif_err litebuf_inline kzalloc_ok
         iremap_alloc_ret Internal.group];
    unfold count_calls; handler_paths.
Qed.

Lemma handlers_give_back_witness :
  snd (edgetpu_ioctl (sample_file (sample_client (Some 7%nat) 1))
                     EDGETPU_VII_COMMAND quiet_env)
  = [trace_point; lock_group_lock;
     get_fence_array_from_user 0; get_fence_array_from_user 0;
     edgetpu_device_group_send_vii_command 7 0;
     gcip_fence_array_put; gcip_fence_array_put;
     unlock_group_lock; trace_point] /\
  count_calls is_fence_array_put
    (snd (edgetpu_ioctl (sample_file (sample_client (Some 7%nat) 1))
                        EDGETPU_VII_COMMAND quiet_env)) = 2%nat.
Proof.
  split; [reflexivity|].
  destruct (handlers_give_back (sample_file (sample_client (Some 7%nat) 1))
              EDGETPU_VII_COMMAND quiet_env) as (_ & _ & Hput).
  rewrite Hput. reflexivity.
Defined.

(** Settles the statement below on one path of the handler. *)
Ltac large_command_path :=
  cbn;
  repeat match goal with
         | H : (?x =? 0) = _ |- context [?x =? 0] => rewrite H
         end;
  cbn; repeat split; intros;
  repeat match goal with
         | H : (_ =? 0) = true |- _ => apply Z.eqb_eq in H
         | H : (_ =? 0) = false |- _ => apply Z.eqb_neq in H
         end;
  try reflexivity; try discriminate; try congruence;
  try (exfalso; unfold ENOMEM, EFAULT, EINVAL in *; lia).

(** X22: the buffer that [edgetpu_ioctl_vii_litebuf_command] allocates in
    the instruction-remap pool for a command too large to be sent inline.
    When the handler returns 0 the buffer is not freed by it: it goes with
    the command, to be released by the release callback.  When the handler
    fails after allocating it, it frees the buffer, on every error path but
    one: when the in-fence array cannot be fetched the handler returns the
    error with the buffer still allocated. *)
Theorem large_command_buffer :
  forall env client g,
    Internal.group client = Some g ->
    copy_from_user_ok env = true ->
    vii_unsupported env EDGETPU_VII_FORMAT_LITEBUF = false ->
    litebuf_inline env = false ->
    (fst (edgetpu_ioctl_vii_litebuf_command env client) = 0 ->
     count_calls is_iremap_alloc
       (snd (edgetpu_ioctl_vii_litebuf_command env client)) = 1%nat /\
     count_calls is_iremap_free
       (snd (edgetpu_ioctl_vii_litebuf_command env client)) = 0%nat) /\
    (fst (edgetpu_ioctl_vii_litebuf_command env client) <> 0 ->
     large_command_staged env = false \/ in_fence_err env = 0 ->
     count_calls is_iremap_free
       (snd (edgetpu_ioctl_vii_litebuf_command env client))
     = count_calls is_iremap_alloc
         (snd (edgetpu_ioctl_vii_litebuf_command env client))) /\
    (large_command_staged env = true -> in_fence_err env <> 0 ->
     fst (edgetpu_ioctl_vii_litebuf_command env client) = in_fence_err env /\
     count_calls is_iremap_alloc
       (snd (edgetpu_ioctl_vii_litebuf_command env client)) = 1%nat /\
     count_calls is_iremap_free
       (snd (edgetpu_ioctl_vii_litebuf_command env client)) = 0%nat).
Proof.
  intros env [cnt g0 w pe] g Hg Hcopy Hvii Hbig.
  cbn [Internal.group] in Hg. subst g0.
  unfold edgetpu_ioctl_vii_litebuf_command, lock_check_group_member,
    large_command_staged.
  rewrite Hcopy, Hvii, Hbig. cbn [negb Internal.group andb]. cbv iota zeta.
  unfold count_calls.
  destruct (kzalloc_ok env); cbn [negb andb]; cbv iota;
    [|large_command_path; destruct H0; congruence].
  destruct (iremap_alloc_ret env =? 0) eqn:Hir; cbn [negb andb]; cbv iota;
    [|large_command_path; destruct H0; congruence].
  destruct (copy_payload_ok env); cbn [negb andb]; cbv iota;
    [|large_command_path; destruct H0; congruence].
  destruct (in_fence_err env =? 0) eqn:Hin; cbn [negb andb]; cbv iota;
    [|large_command_path; destruct H0; congruence].
  destruct (out_fence_err env =? 0) eqn:Hout; cbn [negb andb]; cbv iota;
    [|large_command_path].
  destruct (in_iif_err env =? 0) eqn:Hiin; cbn [negb andb]; cbv iota;
    [|large_command_path].
  destruct (out_iif_err env =? 0) eqn:Hiout; cbn [negb andb]; cbv iota;
    [|large_command_path].
  destruct (callee_ret env =? 0) eqn:Hret; large_command_path.
Qed.

Lemma large_command_buffer_witness :
  edgetpu_ioctl_vii_litebuf_command large_command_bad_fence_env
    (sample_client (Some 7%nat) 1)
  = (- 22,
     [trace_point; lock_group_lock; kzalloc true; edgetpu_iremap_alloc 0;
      copy_payload_from_user true; get_fence_array_from_user (- 22);
      unlock_group_lock; trace_point]) /\
  large_command_staged large_command_bad_fence_env = true /\
  count_calls is_iremap_free
    (snd (edgetpu_ioctl_vii_litebuf_command large_command_bad_fence_env
            (sample_client (Some 7%nat) 1))) = 0%nat.
Proof.
  split; [reflexivity|]. split; [reflexivity|].
  destruct (large_command_buffer large_command_bad_fence_env
              (sample_client (Some 7%nat) 1) 7%nat
              eq_refl eq_refl eq_refl eq_refl) as (_ & _ & Hleft).
  destruct (Hleft eq_refl) as (_ & _ & Hfree); [discriminate | exact Hfree].
Defined.

End Handlers.
